(** * Xilinx Alveo QSPI flash controller driver: shallow embedding

    The driver (xrt_qspi) talks to a QSPI controller through a handful of
    memory-mapped registers and turns stream reads and writes on a flat
    64-bit offset into flash command transactions.  The embedding keeps the
    layering of the C file:

    - machine integers and the page macros,
    - the flat address model (qspi_offset2faddr / qspi_faddr2offset),
    - the register access layer over an abstract device,
    - the transaction engine (qspi_rx, qspi_tx, qspi_reset_fifo,
      qspi_transaction),
    - the command layer (qspi_is_ready, qspi_enable_write, qspi_set_sector),
    - the page I/O layer (qspi_fifo_rd, qspi_fifo_wr, qspi_buf_rdwr,
      qspi_page_erase, qspi_page_rmw, qspi_page_wr),
    - the stream facade (qspi_read, qspi_kernel_read, qspi_write,
      qspi_llseek) and the attach sequence (qspi_get_fifo_depth,
      qspi_get_ID, qspi_controller_probe, qspi_probe).

    Integers are Z with the C wrap-around written out; buffers are lists of
    bytes; the controller instance is a record threaded through every call.

    A register-level mock of the controller (module Mock: two NOR chips
    behind the TX/RX FIFOs, with fault injection) instantiates the abstract
    device, so that the driver can be run and its effect on the flash
    contents stated.  The properties follow the definitions. *)

From Stdlib Require Import ZArith List Bool Lia String.
Import ListNotations.
Local Open Scope Z_scope.

(** ** Machine integers *)

Definition u8 (x : Z) : Z := x mod 256.
Definition u32 (x : Z) : Z := x mod 2 ^ 32.
(** size_t and u64 on the 64-bit kernel the driver is built for. *)
Definition u64 (x : Z) : Z := x mod 2 ^ 64.
(** loff_t: signed 64-bit. *)
Definition s64 (x : Z) : Z := (x + 2 ^ 63) mod 2 ^ 64 - 2 ^ 63.

Definition BIT (n : Z) : Z := Z.shiftl 1 n.

(** Kernel errno values returned (negated) by the driver. *)
Definition ENOMEM : Z := 12.
Definition EFAULT : Z := 14.
Definition EINVAL : Z := 22.
Definition ENOSPC : Z := 28.
Definition EOPNOTSUPP : Z := 95.
Definition ETIMEDOUT : Z := 110.

(** ** Flash command opcodes used by the driver *)

Definition QSPI_CMD_PAGE_PROGRAM : Z := 0x02.
Definition QSPI_CMD_STATUSREG_READ : Z := 0x05.
Definition QSPI_CMD_WRITE_ENABLE : Z := 0x06.
Definition QSPI_CMD_4KB_SUBSECTOR_ERASE : Z := 0x20.
Definition QSPI_CMD_QUAD_WRITE : Z := 0x32.
Definition QSPI_CMD_32KB_SUBSECTOR_ERASE : Z := 0x52.
Definition QSPI_CMD_QUAD_READ : Z := 0x6B.
Definition QSPI_CMD_IDCODE_READ : Z := 0x9F.
Definition QSPI_CMD_EXTENDED_ADDRESS_REG_WRITE : Z := 0xC5.
Definition QSPI_CMD_SECTOR_ERASE : Z := 0xD8.

(** ** Control and status register bits *)

Definition QSPI_CR_LOOPBACK : Z := BIT 0.
Definition QSPI_CR_ENABLED : Z := BIT 1.
Definition QSPI_CR_MASTER_MODE : Z := BIT 2.
Definition QSPI_CR_TXFIFO_RESET : Z := BIT 5.
Definition QSPI_CR_RXFIFO_RESET : Z := BIT 6.
Definition QSPI_CR_MANUAL_SLAVE_SEL : Z := BIT 7.
Definition QSPI_CR_TRANS_INHIBIT : Z := BIT 8.
Definition QSPI_CR_INIT_STATE : Z :=
  Z.lor QSPI_CR_TRANS_INHIBIT
    (Z.lor QSPI_CR_MANUAL_SLAVE_SEL
       (Z.lor QSPI_CR_RXFIFO_RESET
          (Z.lor QSPI_CR_TXFIFO_RESET
             (Z.lor QSPI_CR_ENABLED QSPI_CR_MASTER_MODE)))).

Definition QSPI_SR_RX_EMPTY : Z := BIT 0.
Definition QSPI_SR_RX_FULL : Z := BIT 1.
Definition QSPI_SR_TX_EMPTY : Z := BIT 2.
Definition QSPI_SR_TX_FULL : Z := BIT 3.
Definition QSPI_SR_MODE_ERR : Z := BIT 4.
Definition QSPI_SR_SLAVE_MODE : Z := BIT 5.
Definition QSPI_SR_CPOL_CPHA_ERR : Z := BIT 6.
Definition QSPI_SR_SLAVE_MODE_ERR : Z := BIT 7.
Definition QSPI_SR_MSB_ERR : Z := BIT 8.
Definition QSPI_SR_LOOPBACK_ERR : Z := BIT 9.
Definition QSPI_SR_CMD_ERR : Z := BIT 10.
Definition QSPI_SR_ERRS : Z :=
  Z.lor QSPI_SR_CMD_ERR
    (Z.lor QSPI_SR_LOOPBACK_ERR
       (Z.lor QSPI_SR_MSB_ERR
          (Z.lor QSPI_SR_SLAVE_MODE_ERR
             (Z.lor QSPI_SR_CPOL_CPHA_ERR QSPI_SR_MODE_ERR)))).

Definition MAX_NUM_OF_SLAVES : Z := 2.
Definition SLAVE_NONE : Z := -1.
Definition SLAVE_SELECT_NONE : Z := BIT MAX_NUM_OF_SLAVES - 1.

(** ** Page macros *)

Definition QSPI_LARGE_PAGE_SIZE : Z := 32 * 1024.
Definition QSPI_HUGE_PAGE_SIZE : Z := 64 * 1024.
Definition QSPI_PAGE_SIZE : Z := 4 * 1024.
Definition QSPI_PAGE_MASK : Z := QSPI_PAGE_SIZE - 1.
(** The macros mix a loff_t with an unsigned long mask, so the arithmetic is
    done on the 64-bit pattern of the offset. *)
Definition QSPI_PAGE_ALIGN (off : Z) : Z :=
  Z.land (u64 off) (u64 (Z.lnot QSPI_PAGE_MASK)).
Definition QSPI_PAGE_OFFSET (off : Z) : Z := Z.land (u64 off) QSPI_PAGE_MASK.

(** round_up(x, y) of the kernel, y a power of two. *)
Definition round_up (x y : Z) : Z := Z.lor (x - 1) (y - 1) + 1.

Definition QSPI_PAGE_ROUNDUP (offset : Z) : Z :=
  if negb (QSPI_PAGE_OFFSET offset =? 0)
  then u64 (round_up offset QSPI_PAGE_SIZE)
  else u64 (offset + QSPI_PAGE_SIZE).

(** IS_ALIGNED(x, a) of the kernel: (x & (a - 1)) == 0. *)
Definition IS_ALIGNED (x a : Z) : bool := Z.land (u64 x) (a - 1) =? 0.

(** ** Vendors *)

Definition micron_code2sectors (code : Z) : Z :=
  if code =? 0x17 then 1
  else if code =? 0x18 then 1
  else if code =? 0x19 then 2
  else if code =? 0x20 then 4
  else if code =? 0x21 then 8
  else if code =? 0x22 then 16
  else 0.

Definition macronix_code2sectors (code : Z) : Z :=
  if (code <? 0x38) || (code >? 0x3c) then 0 else BIT (code - 0x38).

Definition macronix_write_cmd : Z := QSPI_CMD_PAGE_PROGRAM.
Definition micron_write_cmd : Z := QSPI_CMD_QUAD_WRITE.

Record qspi_flash_vendor := {
  vendor_id : Z;
  vendor_name : string;
  code2sectors : Z -> Z;
  write_cmd : Z
}.

Definition micron : qspi_flash_vendor :=
  {| vendor_id := 0x20; vendor_name := "micron";
     code2sectors := micron_code2sectors; write_cmd := micron_write_cmd |}.

Definition macronix : qspi_flash_vendor :=
  {| vendor_id := 0xc2; vendor_name := "macronix";
     code2sectors := macronix_code2sectors;
     write_cmd := macronix_write_cmd |}.

Definition vendors : list qspi_flash_vendor := [micron; macronix].

(** Stands for the NULL vendor pointer of a controller that is not probed. *)
Definition no_vendor : qspi_flash_vendor :=
  {| vendor_id := 0; vendor_name := ""; code2sectors := fun _ => 0;
     write_cmd := 0 |}.

(** ** Flat address model *)

Record qspi_flash_addr := {
  slave : Z;
  sector : Z;
  addr_lo : Z;
  addr_mid : Z;
  addr_hi : Z
}.

(** For 24 bit addressing.  [addr] is a loff_t; the shifts are arithmetic. *)
Definition qspi_offset2faddr (addr : Z) : qspi_flash_addr :=
  {| slave := u8 (Z.shiftr addr 56);
     sector := u8 (Z.shiftr addr 24);
     addr_lo := u8 addr;
     addr_mid := u8 (Z.shiftr addr 8);
     addr_hi := u8 (Z.shiftr addr 16) |}.

Definition qspi_faddr2offset (faddr : qspi_flash_addr) : Z :=
  let off := 0 in
  let off := Z.lor off (sector faddr) in
  let off := s64 (Z.shiftl off 8) in
  let off := Z.lor off (addr_hi faddr) in
  let off := s64 (Z.shiftl off 8) in
  let off := Z.lor off (addr_mid faddr) in
  let off := s64 (Z.shiftl off 8) in
  let off := Z.lor off (addr_lo faddr) in
  s64 (Z.lor (u64 off) (u64 (Z.shiftl (slave faddr) 56))).

Definition set_slave (s : Z) (faddr : qspi_flash_addr) : qspi_flash_addr :=
  {| slave := s; sector := sector faddr; addr_lo := addr_lo faddr;
     addr_mid := addr_mid faddr; addr_hi := addr_hi faddr |}.

(** ** Register access layer *)

(** The fields of struct qspi_reg (reg_rx is qspi_regs->qspi_rx, and so on). *)
Inductive qspi_reg :=
| reg_reset | reg_ctrl | reg_status | reg_tx | reg_rx | reg_slave
| reg_tx_fifo | reg_rx_fifo.

(** The register block behind ioread32 / iowrite32.  A read can change the
    device (pulling from the RX FIFO pops it). *)
Class Device := {
  dev : Type;
  ioread32 : qspi_reg -> dev -> Z * dev;
  iowrite32 : qspi_reg -> Z -> dev -> dev
}.

(** ** Buffers *)

(** buf[i], and the store buf[i] = v.  Outside the buffer the C code would
    run over memory; the model reads 0 and drops the store. *)
Definition buf_get (buf : list Z) (i : Z) : Z :=
  if i <? 0 then 0 else nth (Z.to_nat i) buf 0.

Fixpoint list_set (buf : list Z) (i : nat) (v : Z) : list Z :=
  match buf, i with
  | [], _ => []
  | _ :: t, O => v :: t
  | h :: t, S j => h :: list_set t j v
  end.

Definition buf_set (buf : list Z) (i : Z) (v : Z) : list Z :=
  if i <? 0 then buf else list_set buf (Z.to_nat i) v.

(** The bytes src[from], ..., src[from + n - 1]. *)
Definition buf_slice (src : list Z) (from : Z) (n : Z) : list Z :=
  map (fun i => buf_get src (from + Z.of_nat i)) (seq 0 (Z.to_nat n)).

(** The stores dst[pos] = d0, dst[pos + 1] = d1, ... *)
Fixpoint buf_write (dst : list Z) (pos : Z) (data : list Z) : list Z :=
  match data with
  | [] => dst
  | d :: t => buf_write (buf_set dst pos d) (pos + 1) t
  end.

(** memcpy(&dst[pos], &src[from], n). *)
Definition memcpy (dst : list Z) (pos : Z) (src : list Z) (from n : Z)
  : list Z :=
  buf_write dst pos (buf_slice src from n).

(** QSPI_BUSY_WAIT: poll [cond] until it holds, at most [retry] times; the
    result is true when the wait timed out.  The condition is not polled any
    more once the retry count reaches zero. *)
Fixpoint busy_wait {S : Type} (retry : nat) (cond : S -> bool * S) (s : S)
  : bool * S :=
  match retry with
  | O => (true, s)
  | S r =>
      let '(c, s1) := cond s in
      if c then (false, s1) else busy_wait r cond s1
  end.

Definition QSPI_BUSY_RETRY : nat := Z.to_nat (1000 * 1000 / 5).

Definition QSPI_BUSY_WAIT {S : Type} (cond : S -> bool * S) (s : S)
  : bool * S :=
  busy_wait QSPI_BUSY_RETRY cond s.

Section Driver.

Context {D : Device}.

(** ** Controller instance *)

Record xrt_qspi := {
  flash_size : Z;
  io_buf : list Z;
  qspi_regs : dev;
  qspi_fifo_depth : Z;
  qspi_curr_sector : Z;
  vendor : qspi_flash_vendor;
  qspi_curr_slave : Z
}.

Definition set_regs (d : dev) (flash : xrt_qspi) : xrt_qspi :=
  {| flash_size := flash_size flash; io_buf := io_buf flash; qspi_regs := d;
     qspi_fifo_depth := qspi_fifo_depth flash;
     qspi_curr_sector := qspi_curr_sector flash; vendor := vendor flash;
     qspi_curr_slave := qspi_curr_slave flash |}.

Definition set_io_buf (b : list Z) (flash : xrt_qspi) : xrt_qspi :=
  {| flash_size := flash_size flash; io_buf := b;
     qspi_regs := qspi_regs flash;
     qspi_fifo_depth := qspi_fifo_depth flash;
     qspi_curr_sector := qspi_curr_sector flash; vendor := vendor flash;
     qspi_curr_slave := qspi_curr_slave flash |}.

Definition set_curr_sector (s : Z) (flash : xrt_qspi) : xrt_qspi :=
  {| flash_size := flash_size flash; io_buf := io_buf flash;
     qspi_regs := qspi_regs flash;
     qspi_fifo_depth := qspi_fifo_depth flash;
     qspi_curr_sector := s; vendor := vendor flash;
     qspi_curr_slave := qspi_curr_slave flash |}.

Definition set_flash_size (n : Z) (flash : xrt_qspi) : xrt_qspi :=
  {| flash_size := n; io_buf := io_buf flash;
     qspi_regs := qspi_regs flash;
     qspi_fifo_depth := qspi_fifo_depth flash;
     qspi_curr_sector := qspi_curr_sector flash; vendor := vendor flash;
     qspi_curr_slave := qspi_curr_slave flash |}.

Definition set_fifo_depth (n : Z) (flash : xrt_qspi) : xrt_qspi :=
  {| flash_size := flash_size flash; io_buf := io_buf flash;
     qspi_regs := qspi_regs flash;
     qspi_fifo_depth := n;
     qspi_curr_sector := qspi_curr_sector flash; vendor := vendor flash;
     qspi_curr_slave := qspi_curr_slave flash |}.

Definition set_vendor (v : qspi_flash_vendor) (flash : xrt_qspi) : xrt_qspi :=
  {| flash_size := flash_size flash; io_buf := io_buf flash;
     qspi_regs := qspi_regs flash;
     qspi_fifo_depth := qspi_fifo_depth flash;
     qspi_curr_sector := qspi_curr_sector flash; vendor := v;
     qspi_curr_slave := qspi_curr_slave flash |}.

Definition set_curr_slave (s : Z) (flash : xrt_qspi) : xrt_qspi :=
  {| flash_size := flash_size flash; io_buf := io_buf flash;
     qspi_regs := qspi_regs flash;
     qspi_fifo_depth := qspi_fifo_depth flash;
     qspi_curr_sector := qspi_curr_sector flash; vendor := vendor flash;
     qspi_curr_slave := s |}.

(** ** Register access *)

Definition qspi_reg_rd (reg : qspi_reg) (flash : xrt_qspi) : Z * xrt_qspi :=
  let '(val, d) := ioread32 reg (qspi_regs flash) in
  (u32 val, set_regs d flash).

Definition qspi_reg_wr (reg : qspi_reg) (val : Z) (flash : xrt_qspi)
  : xrt_qspi :=
  set_regs (iowrite32 reg (u32 val) (qspi_regs flash)) flash.

Definition qspi_get_status (flash : xrt_qspi) : Z * xrt_qspi :=
  qspi_reg_rd reg_status flash.

Definition qspi_get_ctrl (flash : xrt_qspi) : Z * xrt_qspi :=
  qspi_reg_rd reg_ctrl flash.

Definition qspi_set_ctrl (ctrl : Z) (flash : xrt_qspi) : xrt_qspi :=
  qspi_reg_wr reg_ctrl ctrl flash.

Definition qspi_activate_slave (index : Z) (flash : xrt_qspi) : xrt_qspi :=
  let slave_reg :=
    if index =? SLAVE_NONE then SLAVE_SELECT_NONE
    else u32 (Z.lnot (BIT index)) in
  qspi_reg_wr reg_slave slave_reg flash.

(** Pull one byte from the RX fifo. *)
Definition qspi_read8 (flash : xrt_qspi) : Z * xrt_qspi :=
  let '(v, flash) := qspi_reg_rd reg_rx flash in
  (u8 v, flash).

(** Push one byte to the TX fifo. *)
Definition qspi_send8 (val : Z) (flash : xrt_qspi) : xrt_qspi :=
  qspi_reg_wr reg_tx val flash.

Definition qspi_has_err (flash : xrt_qspi) : bool * xrt_qspi :=
  let '(status, flash) := qspi_get_status flash in
  (negb (Z.land status QSPI_SR_ERRS =? 0), flash).

(** ** Transaction engine *)

(** The pull loop of qspi_rx, from index [cnt] for [n] more bytes.  [buf] is
    None for the NULL destination.  A nonzero result is the early return. *)
Fixpoint qspi_rx_loop (n : nat) (cnt : Z) (buf : option (list Z))
  (flash : xrt_qspi) : Z * option (list Z) * xrt_qspi :=
  match n with
  | O => (0, buf, flash)
  | S m =>
      let '(status, flash) := qspi_get_status flash in
      if negb (Z.land status QSPI_SR_RX_EMPTY =? 0) then
        (- EINVAL, buf, flash)
      else
        let '(c, flash) := qspi_read8 flash in
        let buf :=
          match buf with
          | Some b => Some (buf_set b cnt c)
          | None => None
          end in
        qspi_rx_loop m (cnt + 1) buf flash
  end.

Definition qspi_rx (buf : option (list Z)) (len : Z) (flash : xrt_qspi)
  : Z * option (list Z) * xrt_qspi :=
  let '(ret, buf, flash) := qspi_rx_loop (Z.to_nat len) 0 buf flash in
  if negb (ret =? 0) then (ret, buf, flash)
  else
    let '(status, flash) := qspi_get_status flash in
    if Z.land status QSPI_SR_RX_EMPTY =? 0 then (- EINVAL, buf, flash)
    else
      let '(err, flash) := qspi_has_err flash in
      if err then (- EINVAL, buf, flash) else (0, buf, flash).

(** The fill loop of qspi_tx. *)
Fixpoint qspi_tx_loop (n : nat) (i : Z) (buf : list Z) (flash : xrt_qspi)
  : xrt_qspi :=
  match n with
  | O => flash
  | S m => qspi_tx_loop m (i + 1) buf (qspi_send8 (buf_get buf i) flash)
  end.

Definition qspi_tx_done (flash : xrt_qspi) : bool * xrt_qspi :=
  let '(status, flash) := qspi_get_status flash in
  (negb (Z.land status (Z.lor QSPI_SR_TX_EMPTY QSPI_SR_ERRS) =? 0), flash).

Definition qspi_tx (buf : list Z) (len : Z) (flash : xrt_qspi)
  : Z * xrt_qspi :=
  let '(ctrl, flash) := qspi_get_ctrl flash in
  (* Stop transferring to the flash. *)
  let flash := qspi_set_ctrl (Z.lor ctrl QSPI_CR_TRANS_INHIBIT) flash in
  (* Fill out the FIFO. *)
  let flash := qspi_tx_loop (Z.to_nat len) 0 buf flash in
  (* Start transferring to the flash. *)
  let flash :=
    qspi_set_ctrl (Z.land ctrl (Z.lnot QSPI_CR_TRANS_INHIBIT)) flash in
  (* Waiting for FIFO to become empty again. *)
  let '(timedout, flash) := QSPI_BUSY_WAIT qspi_tx_done flash in
  if timedout then
    let '(err, flash) := qspi_has_err flash in
    if err then (- ETIMEDOUT, flash)
    else
      (* the status is read once more for the timeout message *)
      let '(_, flash) := qspi_get_status flash in
      (- ETIMEDOUT, flash)
  else
    (* Always stop transferring to the flash after we finish. *)
    let flash := qspi_set_ctrl (Z.lor ctrl QSPI_CR_TRANS_INHIBIT) flash in
    let '(err, flash) := qspi_has_err flash in
    if err then (- EINVAL, flash) else (0, flash).

Definition status_fifo_mask : Z :=
  Z.lor QSPI_SR_TX_FULL
    (Z.lor QSPI_SR_RX_FULL (Z.lor QSPI_SR_TX_EMPTY QSPI_SR_RX_EMPTY)).

Definition qspi_fifo_is_reset (flash : xrt_qspi) : bool * xrt_qspi :=
  let '(status, flash) := qspi_get_status flash in
  (Z.land status status_fifo_mask
     =? Z.lor QSPI_SR_TX_EMPTY QSPI_SR_RX_EMPTY, flash).

(** Reset both RX and TX FIFO. *)
Definition qspi_reset_fifo (flash : xrt_qspi) : Z * xrt_qspi :=
  let '(empty, flash) := qspi_fifo_is_reset flash in
  if empty then (0, flash)
  else
    let '(ctrl, flash) := qspi_get_ctrl flash in
    let flash :=
      qspi_set_ctrl
        (Z.lor (Z.lor ctrl QSPI_CR_TXFIFO_RESET) QSPI_CR_RXFIFO_RESET)
        flash in
    let '(timedout, flash) := QSPI_BUSY_WAIT qspi_fifo_is_reset flash in
    if timedout then
      (* the status is read once more for the error message *)
      let '(_, flash) := qspi_get_status flash in
      (- ETIMEDOUT, flash)
    else (0, flash).

Definition qspi_transaction (buf : list Z) (len : Z) (need_output : bool)
  (flash : xrt_qspi) : Z * list Z * xrt_qspi :=
  (* Reset both the TX and RX fifo before starting transaction. *)
  let '(ret, flash) := qspi_reset_fifo flash in
  if negb (ret =? 0) then (ret, buf, flash)
  else
    (* The slave index should be within range. *)
    if qspi_curr_slave flash >=? MAX_NUM_OF_SLAVES then (- EINVAL, buf, flash)
    else
      let flash := qspi_activate_slave (qspi_curr_slave flash) flash in
      let '(ret, flash) := qspi_tx buf len flash in
      if negb (ret =? 0) then (ret, buf, flash)
      else
        let '(ret, buf, flash) :=
          if need_output then
            let '(r, b, fl) := qspi_rx (Some buf) len flash in
            (r, match b with Some b' => b' | None => buf end, fl)
          else
            (* Needs to drain the FIFO even when the data is not wanted;
               the result of the drain is dropped. *)
            let '(_, _, fl) := qspi_rx None len flash in
            (ret, buf, fl) in
        (* Always need to reset slave select register after each
           transaction *)
        let flash := qspi_activate_slave SLAVE_NONE flash in
        (ret, buf, flash).

(** ** Command layer *)

(** Exec flash IO command on specified slave: the transaction runs on
    flash->io_buf itself. *)
Definition qspi_exec_io_cmd (len : Z) (output_needed : bool)
  (flash : xrt_qspi) : Z * xrt_qspi :=
  let '(ret, buf, flash) :=
    qspi_transaction (io_buf flash) len output_needed flash in
  (ret, set_io_buf buf flash).

(** Test if flash memory is ready. *)
Definition qspi_is_ready (flash : xrt_qspi) : bool * xrt_qspi :=
  let cmd := [QSPI_CMD_STATUSREG_READ; 0] in
  let '(ret, cmd, flash) := qspi_transaction cmd 2 true flash in
  if negb (ret =? 0) || negb (Z.land (buf_get cmd 1) 1 =? 0)
  then (false, flash)
  else (true, flash).

Definition qspi_enable_write (flash : xrt_qspi) : Z * xrt_qspi :=
  let '(ret, _, flash) :=
    qspi_transaction [QSPI_CMD_WRITE_ENABLE] 1 false flash in
  (ret, flash).

Definition qspi_set_sector (sector : Z) (flash : xrt_qspi) : Z * xrt_qspi :=
  let cmd := [QSPI_CMD_EXTENDED_ADDRESS_REG_WRITE; sector] in
  if sector =? qspi_curr_sector flash then (0, flash)
  else
    let '(ret, flash) := qspi_enable_write flash in
    if negb (ret =? 0) then (ret, flash)
    else
      let '(ret, _, flash) := qspi_transaction cmd 2 false flash in
      if negb (ret =? 0) then (ret, flash)
      else (ret, set_curr_sector sector flash).

(** IO cmd starts with op code followed by address.  The second component
    is *header_len, which is only written on success. *)
Definition qspi_setup_io_cmd_header (op : Z) (faddr : qspi_flash_addr)
  (flash : xrt_qspi) : Z * Z * xrt_qspi :=
  (* Set sector (the high byte of a 32-bit address), if needed. *)
  let '(ret, flash) := qspi_set_sector (sector faddr) flash in
  if ret =? 0 then
    (* The rest of address bytes are in cmd. *)
    let b := io_buf flash in
    let b := buf_set b 0 op in
    let b := buf_set b 1 (addr_hi faddr) in
    let b := buf_set b 2 (addr_mid faddr) in
    let b := buf_set b 3 (addr_lo faddr) in
    (ret, 4, set_io_buf b flash)
  else (ret, 0, flash).

Definition qspi_wait_until_ready (flash : xrt_qspi) : bool * xrt_qspi :=
  let '(timedout, flash) := QSPI_BUSY_WAIT qspi_is_ready flash in
  (negb timedout, flash).

(** ** Page I/O layer *)

(** For read cmd, we need to exclude a few more dummy bytes in FIFO. *)
Definition read_dummy_len : Z := 4.

(** For write cmd, we can't write more than write_max_len bytes in one IO
    request even though we have larger fifo. *)
Definition write_max_len : Z := 128.

(** "Figure out length of IO for this read": payload_len and total_len of
    qspi_fifo_rd, in size_t arithmetic. *)
Definition qspi_fifo_rd_len (fifo_depth header_len cnt : Z) : Z * Z :=
  let payload_len :=
    Z.min cnt (u64 (fifo_depth - header_len - read_dummy_len)) in
  let total_len := u64 (payload_len + header_len + read_dummy_len) in
  (payload_len, total_len).

(** "Figure out length of IO for this write": payload_len and total_len of
    qspi_fifo_wr. *)
Definition qspi_fifo_wr_len (fifo_depth header_len cnt : Z) : Z * Z :=
  let payload_len := Z.min cnt (u64 (fifo_depth - header_len)) in
  let payload_len := Z.min payload_len write_max_len in
  let total_len := u64 (payload_len + header_len) in
  (payload_len, total_len).

(** Do one FIFO read from flash into &buf[pos].  The third component is
    *cnt, the bytes actually read on successful return. *)
Definition qspi_fifo_rd (off : Z) (buf : list Z) (pos : Z) (cnt : Z)
  (flash : xrt_qspi) : Z * list Z * Z * xrt_qspi :=
  let faddr := qspi_offset2faddr off in
  let '(ret, header_len, flash) :=
    qspi_setup_io_cmd_header QSPI_CMD_QUAD_READ faddr flash in
  if negb (ret =? 0) then (ret, buf, cnt, flash)
  else
    let '(payload_len, total_len) :=
      qspi_fifo_rd_len (qspi_fifo_depth flash) header_len cnt in
    let '(ret, flash) := qspi_exec_io_cmd total_len true flash in
    if negb (ret =? 0) then (ret, buf, cnt, flash)
    else
      (* Copy out the output. Skip the garbage part. *)
      let buf :=
        memcpy buf pos (io_buf flash) (header_len + read_dummy_len)
          payload_len in
      (0, buf, payload_len, flash).

(** Do one FIFO write to flash from &buf[pos].  Assuming erase is already
    done.  The second component is *cnt. *)
Definition qspi_fifo_wr (off : Z) (buf : list Z) (pos : Z) (cnt : Z)
  (flash : xrt_qspi) : Z * Z * xrt_qspi :=
  let faddr := qspi_offset2faddr off in
  let '(ret, header_len, flash) :=
    qspi_setup_io_cmd_header (write_cmd (vendor flash)) faddr flash in
  if negb (ret =? 0) then (ret, cnt, flash)
  else
    let '(payload_len, total_len) :=
      qspi_fifo_wr_len (qspi_fifo_depth flash) header_len cnt in
    (* Copy in payload after header. *)
    let flash :=
      set_io_buf (memcpy (io_buf flash) header_len buf pos payload_len)
        flash in
    let '(ret, flash) := qspi_enable_write flash in
    if negb (ret =? 0) then (ret, cnt, flash)
    else
      let '(ret, flash) := qspi_exec_io_cmd total_len false flash in
      if negb (ret =? 0) then (ret, cnt, flash)
      else
        let '(ready, flash) := qspi_wait_until_ready flash in
        if negb ready then (- EINVAL, cnt, flash)
        else (0, payload_len, flash).

(** The loop of qspi_buf_rdwr.  It has no bound of its own in C (a FIFO
    transfer that moves zero bytes repeats for ever); [fuel] bounds the number
    of iterations and None is the result when it does not suffice. *)
Fixpoint qspi_buf_rdwr_loop (fuel : nat) (buf : list Z) (pos : Z) (off : Z)
  (len : Z) (write : bool) (n : Z) (flash : xrt_qspi)
  : option (Z * list Z * xrt_qspi) :=
  if n <? len then
    match fuel with
    | O => None
    | S fuel =>
        let curlen := u64 (len - n) in
        if write then
          let '(ret, curlen, flash) :=
            qspi_fifo_wr (s64 (off + n)) buf (pos + n) curlen flash in
          if ret =? 0
          then qspi_buf_rdwr_loop fuel buf pos off len write
                 (u64 (n + curlen)) flash
          else Some (ret, buf, flash)
        else
          let '(ret, buf, curlen, flash) :=
            qspi_fifo_rd (s64 (off + n)) buf (pos + n) curlen flash in
          if ret =? 0
          then qspi_buf_rdwr_loop fuel buf pos off len write
                 (u64 (n + curlen)) flash
          else Some (ret, buf, flash)
    end
  else Some (0, buf, flash).

(** Load/store the whole buf of data from/to flash memory, at &buf[pos]. *)
Definition qspi_buf_rdwr (buf : list Z) (pos : Z) (off : Z) (len : Z)
  (write : bool) (flash : xrt_qspi) : option (Z * list Z * xrt_qspi) :=
  qspi_buf_rdwr_loop (Z.to_nat len) buf pos off len write 0 flash.

Definition qspi_erase_cmd (pagesz : Z) : Z :=
  let onek := 1024 in
  let k := pagesz / onek in
  if k =? 4 then QSPI_CMD_4KB_SUBSECTOR_ERASE
  else if k =? 32 then QSPI_CMD_32KB_SUBSECTOR_ERASE
  else if k =? 64 then QSPI_CMD_SECTOR_ERASE
  else 0.

(** The two WARN_ONs of qspi_erase_cmd: they log and change nothing else. *)
Definition qspi_erase_cmd_warns (pagesz : Z) : bool :=
  let onek := 1024 in
  let k := pagesz / onek in
  negb (IS_ALIGNED pagesz onek)
  || negb ((k =? 4) || (k =? 32) || (k =? 64)).

(** Erase one flash page. *)
Definition qspi_page_erase (off : Z) (pagesz : Z) (flash : xrt_qspi)
  : Z * xrt_qspi :=
  let cmd := qspi_erase_cmd pagesz in
  let faddr := qspi_offset2faddr off in
  let '(ready, flash) := qspi_wait_until_ready flash in
  if negb ready then (- EINVAL, flash)
  else
    let '(ret, cmdlen, flash) := qspi_setup_io_cmd_header cmd faddr flash in
    if negb (ret =? 0) then (ret, flash)
    else
      let '(ret, flash) := qspi_enable_write flash in
      if negb (ret =? 0) then (ret, flash)
      else
        let '(ret, flash) := qspi_exec_io_cmd cmdlen false flash in
        if negb (ret =? 0) then (ret, flash)
        else
          let '(ready, flash) := qspi_wait_until_ready flash in
          if negb ready then (- EINVAL, flash) else (0, flash).

Definition is_valid_offset (flash : xrt_qspi) (off : Z) : bool :=
  let faddr := qspi_offset2faddr off in
  (* Assuming all flash are of the same size, we use offset into flash 0 to
     perform boundary check. *)
  let faddr := set_slave 0 faddr in
  u64 (qspi_faddr2offset faddr) <? flash_size flash.

(** ** Stream facade *)

(** User memory is the list of bytes accessible at the user pointer; a copy
    that would leave it faults.  copy_from_user(&dst[pos], &ubuf[upos], n)
    and copy_to_user return the number of bytes not copied; a faulting copy
    is modelled as copying nothing (the driver only tests for nonzero and
    gives up). *)
Definition copy_from_user (dst : list Z) (pos : Z) (ubuf : list Z)
  (upos n : Z) : Z * list Z :=
  if upos + n <=? Z.of_nat (List.length ubuf)
  then (0, memcpy dst pos ubuf upos n)
  else (n, dst).

Definition copy_to_user (ubuf : list Z) (kbuf : list Z) (n : Z)
  : Z * list Z :=
  if n <=? Z.of_nat (List.length ubuf)
  then (0, memcpy ubuf 0 kbuf 0 n)
  else (n, ubuf).

(** Whether vmalloc of the given size succeeds is up to the kernel. *)
Variable vmalloc_ok : Z -> bool.

(** A fresh allocation (its content is unspecified; zeroes here). *)
Definition vmalloc (n : Z) : list Z := repeat 0 (Z.to_nat n).

Fixpoint qspi_do_read_loop (fuel : nat) (page kbuf : list Z) (n off : Z)
  (cnt : Z) (flash : xrt_qspi) : option (Z * list Z * xrt_qspi) :=
  if cnt <? n then
    match fuel with
    | O => None
    | S fuel =>
        let thisoff := s64 (off + cnt) in
        let thislen :=
          Z.min (u64 (n - cnt))
            (u64 (QSPI_PAGE_ROUNDUP thisoff - u64 thisoff)) in
        let thisbuf := QSPI_PAGE_OFFSET thisoff in
        match qspi_buf_rdwr page thisbuf thisoff thislen false flash with
        | None => None
        | Some (ret, page, flash) =>
            if negb (ret =? 0) then Some (ret, kbuf, flash)
            else
              let kbuf := memcpy kbuf cnt page thisbuf thislen in
              qspi_do_read_loop fuel page kbuf n off (u64 (cnt + thislen))
                flash
        end
    end
  else Some (0, kbuf, flash).

Definition qspi_do_read (kbuf : list Z) (n : Z) (off : Z) (flash : xrt_qspi)
  : option (Z * list Z * xrt_qspi) :=
  if negb (vmalloc_ok QSPI_PAGE_SIZE) then Some (- ENOMEM, kbuf, flash)
  else
    let page := vmalloc QSPI_PAGE_SIZE in
    let faddr := qspi_offset2faddr off in
    let flash := set_curr_slave (slave faddr) flash in
    let '(ready, flash) := qspi_wait_until_ready flash in
    if negb ready then Some (- EINVAL, kbuf, flash)
    else qspi_do_read_loop (Z.to_nat n) page kbuf n off 0 flash.

(** Read flash memory page by page into user buf.  The result is the return
    value, the user buffer and *off. *)
Definition qspi_read (ubuf : list Z) (n : Z) (off : Z) (flash : xrt_qspi)
  : option (Z * list Z * Z * xrt_qspi) :=
  if (n =? 0) || negb (is_valid_offset flash off) then
    Some (0, ubuf, off, flash)
  else
    let n := Z.min n (u64 (flash_size flash - u64 off)) in
    if negb (vmalloc_ok n) then Some (- ENOMEM, ubuf, off, flash)
    else
      let kbuf := vmalloc n in
      match qspi_do_read kbuf n off flash with
      | None => None
      | Some (ret, kbuf, flash) =>
          let '(ret, ubuf) :=
            if ret =? 0 then
              let '(uncopied, ubuf') := copy_to_user ubuf kbuf n in
              if negb (uncopied =? 0) then (- EFAULT, ubuf') else (ret, ubuf')
            else (ret, ubuf) in
          if negb (ret =? 0) then Some (ret, ubuf, off, flash)
          else Some (s64 n, ubuf, s64 (off + n), flash)
      end.

(** Read request from other parts of driver. *)
Definition qspi_kernel_read (buf : list Z) (n : Z) (off : Z)
  (flash : xrt_qspi) : option (Z * list Z * xrt_qspi) :=
  qspi_do_read buf n off flash.

(** Write a page. Perform read-modify-write as needed.  [ubuf] at [upos] is
    the user source, [kbuf] the 64KB scratch page; the third component is
    *cnt, the bytes actually copied from user. *)
Definition qspi_page_rmw (ubuf : list Z) (upos : Z) (kbuf : list Z)
  (off : Z) (cnt : Z) (flash : xrt_qspi)
  : option (Z * list Z * Z * xrt_qspi) :=
  let thisoff := s64 (QSPI_PAGE_ALIGN off) in
  let front := QSPI_PAGE_OFFSET off in
  let mid := Z.min cnt (u64 (QSPI_PAGE_SIZE - front)) in
  let last := u64 (QSPI_PAGE_SIZE - front - mid) in
  let thiskbuf := 0 in
  match
    (if negb (front =? 0)
     then qspi_buf_rdwr kbuf thiskbuf thisoff front false flash
     else Some (0, kbuf, flash))
  with
  | None => None
  | Some (ret, kbuf, flash) =>
      if negb (ret =? 0) then Some (ret, kbuf, cnt, flash)
      else
        let thisoff := s64 (thisoff + front) in
        let thiskbuf := thiskbuf + front in
        let '(uncopied, kbuf) := copy_from_user kbuf thiskbuf ubuf upos mid in
        if negb (uncopied =? 0) then Some (- EFAULT, kbuf, cnt, flash)
        else
          let cnt := mid in
          let thisoff := s64 (thisoff + mid) in
          let thiskbuf := thiskbuf + mid in
          match
            (if negb (last =? 0)
             then qspi_buf_rdwr kbuf thiskbuf thisoff last false flash
             else Some (0, kbuf, flash))
          with
          | None => None
          | Some (ret, kbuf, flash) =>
              if negb (ret =? 0) then Some (ret, kbuf, cnt, flash)
              else
                let '(ret, flash) :=
                  qspi_page_erase (s64 (QSPI_PAGE_ALIGN off)) QSPI_PAGE_SIZE
                    flash in
                if ret =? 0 then
                  match
                    qspi_buf_rdwr kbuf 0 (s64 (QSPI_PAGE_ALIGN off))
                      QSPI_PAGE_SIZE true flash
                  with
                  | None => None
                  | Some (ret, kbuf, flash) => Some (ret, kbuf, cnt, flash)
                  end
                else Some (ret, kbuf, cnt, flash)
          end
  end.

Definition qspi_get_page_io_size (off : Z) (sz : Z) : Z :=
  if IS_ALIGNED off QSPI_HUGE_PAGE_SIZE && (sz >=? QSPI_HUGE_PAGE_SIZE)
  then QSPI_HUGE_PAGE_SIZE
  else if IS_ALIGNED off QSPI_LARGE_PAGE_SIZE
          && (sz >=? QSPI_LARGE_PAGE_SIZE)
  then QSPI_LARGE_PAGE_SIZE
  else if IS_ALIGNED off QSPI_PAGE_SIZE && (sz >=? QSPI_PAGE_SIZE)
  then QSPI_PAGE_SIZE
  else 0 (* can't do full page IO *).

(** Try to erase and write full (large/huge) page.  Needs to fallback to
    RMW, if not possible. *)
Definition qspi_page_wr (ubuf : list Z) (upos : Z) (kbuf : list Z)
  (off : Z) (cnt : Z) (flash : xrt_qspi)
  : option (Z * list Z * Z * xrt_qspi) :=
  let thislen := qspi_get_page_io_size off cnt in
  if thislen =? 0 then Some (- EOPNOTSUPP, kbuf, cnt, flash)
  else
    let cnt := thislen in
    let '(uncopied, kbuf) := copy_from_user kbuf 0 ubuf upos thislen in
    if negb (uncopied =? 0) then Some (- EFAULT, kbuf, cnt, flash)
    else
      let '(ret, flash) := qspi_page_erase off thislen flash in
      if ret =? 0 then
        match qspi_buf_rdwr kbuf 0 off thislen true flash with
        | None => None
        | Some (ret, kbuf, flash) => Some (ret, kbuf, cnt, flash)
        end
      else Some (ret, kbuf, cnt, flash).

(** One write attempt of the qspi_write loop at [thisoff]: the full page
    write, then the fallback to RMW on -EOPNOTSUPP. *)
Definition qspi_write_attempt (ubuf : list Z) (upos : Z) (page : list Z)
  (thisoff : Z) (thislen : Z) (flash : xrt_qspi)
  : option (Z * list Z * Z * xrt_qspi) :=
  (* Try write full page. *)
  match qspi_page_wr ubuf upos page thisoff thislen flash with
  | None => None
  | Some (ret, page', thislen', flash') =>
      if negb (ret =? 0) then
        (* Fallback to RMW. *)
        if ret =? - EOPNOTSUPP
        then qspi_page_rmw ubuf upos page' thisoff thislen' flash'
        else Some (ret, page', thislen', flash')
      else Some (ret, page', thislen', flash')
  end.

(** The loop of qspi_write; the result carries ret, cnt and the flash. *)
Fixpoint qspi_write_loop (fuel : nat) (buf : list Z) (page : list Z)
  (n off : Z) (cnt : Z) (flash : xrt_qspi) : option (Z * Z * xrt_qspi) :=
  if cnt <? n then
    match fuel with
    | O => None
    | S fuel =>
        let thisoff := s64 (off + cnt) in
        let thisbuf := cnt in
        let thislen := u64 (n - cnt) in
        match qspi_write_attempt buf thisbuf page thisoff thislen flash with
        | None => None
        | Some (ret, page, thislen, flash) =>
            if negb (ret =? 0) then Some (ret, cnt, flash)
            else qspi_write_loop fuel buf page n off (u64 (cnt + thislen))
                   flash
        end
    end
  else Some (0, cnt, flash).

(** The locked part of qspi_write: ret and cnt when the loop is left. *)
Definition qspi_write_locked (buf : list Z) (n off : Z) (flash : xrt_qspi)
  : option (Z * Z * xrt_qspi) :=
  let page := vmalloc QSPI_HUGE_PAGE_SIZE in
  let faddr := qspi_offset2faddr off in
  let flash := set_curr_slave (slave faddr) flash in
  let '(ready, flash) := qspi_wait_until_ready flash in
  if negb ready then Some (- EINVAL, 0, flash)
  else qspi_write_loop (Z.to_nat n) buf page n off 0 flash.

(** Write to flash memory page by page from user buf.  The result is the
    return value and *off. *)
Definition qspi_write (buf : list Z) (n : Z) (off : Z) (flash : xrt_qspi)
  : option (Z * Z * xrt_qspi) :=
  if (n =? 0) || negb (is_valid_offset flash off) then
    Some (- ENOSPC, off, flash)
  else
    let n := Z.min n (u64 (flash_size flash - u64 off)) in
    if negb (vmalloc_ok QSPI_HUGE_PAGE_SIZE) then Some (- ENOMEM, off, flash)
    else
      match qspi_write_locked buf n off flash with
      | None => None
      | Some (ret, cnt, flash) =>
          if negb (ret =? 0) then Some (ret, off, flash)
          else Some (s64 n, s64 (off + n), flash)
      end.

(** The result is the return value and filp->f_pos. *)
Definition qspi_llseek (f_pos : Z) (off : Z) (whence : Z) : Z * Z :=
  match
    (if whence =? 0 then Some off                       (* SEEK_SET *)
     else if whence =? 1 then Some (s64 (f_pos + off))  (* SEEK_CUR *)
     else None)            (* SEEK_END: no need to support; default *)
  with
  | None => (- EINVAL, f_pos)
  | Some npos => if npos <? 0 then (- EINVAL, f_pos) else (npos, npos)
  end.

(** ** Attach *)

(** The push loop of qspi_get_fifo_depth: it runs until the device reports
    TX full or an error, with no bound of its own ([fuel] as above). *)
Fixpoint qspi_get_fifo_depth_loop (fuel : nat) (depth : Z) (flash : xrt_qspi)
  : option (Z * xrt_qspi) :=
  let '(status, flash) := qspi_get_status flash in
  if Z.land status (Z.lor QSPI_SR_TX_FULL QSPI_SR_ERRS) =? 0 then
    match fuel with
    | O => None
    | S fuel =>
        qspi_get_fifo_depth_loop fuel (u64 (depth + 1)) (qspi_send8 1 flash)
    end
  else Some (depth, flash).

Definition qspi_get_fifo_depth (fuel : nat) (flash : xrt_qspi)
  : option (Z * xrt_qspi) :=
  (* Reset TX fifo. *)
  let '(ret, flash) := qspi_reset_fifo flash in
  if negb (ret =? 0) then Some (0, flash)
  else
    (* Stop transferring to flash. *)
    let '(ctrl, flash) := qspi_get_ctrl flash in
    let flash := qspi_set_ctrl (Z.lor ctrl QSPI_CR_TRANS_INHIBIT) flash in
    match qspi_get_fifo_depth_loop fuel 0 flash with
    | None => None
    | Some (depth, flash) =>
        (* Make sure flash is still in good shape. *)
        let '(err, flash) := qspi_has_err flash in
        if err then Some (0, flash)
        else
          (* Reset RX/TX fifo and restore ctrl since we just touched them. *)
          let flash := qspi_set_ctrl ctrl flash in
          let '(_, flash) := qspi_reset_fifo flash in
          Some (depth, flash)
    end.

Definition qspi_get_ID (flash : xrt_qspi) : Z * xrt_qspi :=
  let cmd := [QSPI_CMD_IDCODE_READ; 0; 0; 0; 0] in
  let '(ret, cmd, flash) := qspi_transaction cmd 5 true flash in
  if negb (ret =? 0) then (- EINVAL, flash)
  else
    match find (fun v => buf_get cmd 1 =? vendor_id v) vendors with
    | None => (- EINVAL, flash)
    | Some v =>
        let flash := set_vendor v flash in
        let flash :=
          set_flash_size
            (u64 (code2sectors v (buf_get cmd 3) * (16 * 1024 * 1024)))
            flash in
        if flash_size flash =? 0 then (- EINVAL, flash) else (0, flash)
    end.

Definition qspi_controller_probe (fuel : nat) (flash : xrt_qspi)
  : option (Z * xrt_qspi) :=
  (* Probing on first flash only. *)
  let flash := set_curr_slave 0 flash in
  let flash := qspi_set_ctrl QSPI_CR_INIT_STATE flash in
  (* Find out fifo depth before any read/write operations. *)
  match qspi_get_fifo_depth fuel flash with
  | None => None
  | Some (depth, flash) =>
      let flash := set_fifo_depth depth flash in
      if qspi_fifo_depth flash =? 0 then Some (- EINVAL, flash)
      else
        let '(ready, flash) := qspi_wait_until_ready flash in
        if negb ready then Some (- EINVAL, flash)
        else
          (* Update flash vendor. *)
          let '(ret, flash) := qspi_get_ID flash in
          if negb (ret =? 0) then Some (ret, flash)
          else Some (0, set_curr_sector 0xff flash)
  end.

(** qspi_probe on the mapped register block [regs]: the zeroed instance is
    probed, then io_buf is allocated with the discovered FIFO depth. *)
Definition qspi_probe (fuel : nat) (regs : dev) : option (Z * xrt_qspi) :=
  let flash :=
    {| flash_size := 0; io_buf := []; qspi_regs := regs;
       qspi_fifo_depth := 0; qspi_curr_sector := 0; vendor := no_vendor;
       qspi_curr_slave := 0 |} in
  match qspi_controller_probe fuel flash with
  | None => None
  | Some (ret, flash) =>
      if negb (ret =? 0) then Some (ret, flash)
      else if negb (vmalloc_ok (qspi_fifo_depth flash))
      then Some (- ENOMEM, flash)
      else Some (0, set_io_buf (vmalloc (qspi_fifo_depth flash)) flash)
  end.

End Driver.

(** * A mock controller with a flash backing store

    The device side of the registers: an 8-bit TX and RX FIFO of a fixed
    depth, a slave-select register (active low, one bit per chip), and two
    NOR flash chips behind it.  Clearing the transfer-inhibit bit clocks the
    TX FIFO out to the selected chip as one command frame and fills the RX
    FIFO with one response byte per byte sent.  A chip keeps its memory, its
    extended address register and its write-enable latch; programming can
    only clear bits, erasing sets a whole page to 0xFF.  Faults can be
    injected to drive the error paths of the driver. *)

Module Mock.

Record chip := {
  mem : Z -> Z;
  ext_addr : Z;
  wel : bool
}.

Inductive fault :=
| NoFault
| ErrBits (bits : Z)   (* these status bits read as set *)
| TxStall              (* the TX FIFO is never clocked out *)
| RxShort              (* the last response byte is lost *)
| RxExtra.             (* one response byte too many *)

Record hw := {
  ctrl : Z;
  txq : list Z;
  rxq : list Z;
  slave_sel : Z;
  depth : Z;
  chip0 : chip;
  chip1 : chip;
  flt : fault;
  id_vendor : Z;
  id_code : Z;
  frames : list (list Z)   (* command frames clocked out, latest first *)
}.

Definition frame_addr (c : chip) (frame : list Z) : Z :=
  ext_addr c * 2 ^ 24 + buf_get frame 1 * 2 ^ 16 + buf_get frame 2 * 2 ^ 8
  + buf_get frame 3.

Definition program (m : Z -> Z) (base : Z) (data : list Z) : Z -> Z :=
  fun a =>
    if (base <=? a) && (a <? base + Z.of_nat (List.length data))
    then Z.land (m a) (buf_get data (a - base))
    else m a.

Definition erase (m : Z -> Z) (base : Z) (sz : Z) : Z -> Z :=
  let lo := base - base mod sz in
  fun a => if (lo <=? a) && (a <? lo + sz) then 0xFF else m a.

Definition with_mem (m : Z -> Z) (c : chip) : chip :=
  {| mem := m; ext_addr := ext_addr c; wel := false |}.

Definition erase_size (op : Z) : Z :=
  if op =? QSPI_CMD_4KB_SUBSECTOR_ERASE then 4096
  else if op =? QSPI_CMD_32KB_SUBSECTOR_ERASE then 32768
  else if op =? QSPI_CMD_SECTOR_ERASE then 65536
  else 0.

(** The chip after a command frame. *)
Definition chip_exec (c : chip) (frame : list Z) : chip :=
  let op := buf_get frame 0 in
  if op =? QSPI_CMD_WRITE_ENABLE then
    {| mem := mem c; ext_addr := ext_addr c; wel := true |}
  else if op =? QSPI_CMD_EXTENDED_ADDRESS_REG_WRITE then
    if wel c
    then {| mem := mem c; ext_addr := buf_get frame 1; wel := false |}
    else c
  else if (op =? QSPI_CMD_PAGE_PROGRAM) || (op =? QSPI_CMD_QUAD_WRITE) then
    if wel c
    then with_mem (program (mem c) (frame_addr c frame) (skipn 4 frame)) c
    else c
  else if negb (erase_size op =? 0) then
    if wel c
    then with_mem (erase (mem c) (frame_addr c frame) (erase_size op)) c
    else c
  else c.

(** The response byte clocked in at position [i] of the frame. *)
Definition chip_resp (idv idc : Z) (c : chip) (frame : list Z) (i : Z) : Z :=
  let op := buf_get frame 0 in
  if op =? QSPI_CMD_STATUSREG_READ then (if wel c then 2 else 0)
  else if op =? QSPI_CMD_IDCODE_READ then
    (if i =? 1 then idv else if i =? 3 then idc else 0)
  else if op =? QSPI_CMD_QUAD_READ then
    (if i <? 8 then 0xFF else mem c (frame_addr c frame + (i - 8)))
  else 0xFF.

Definition selected (h : hw) : option bool :=
  if negb (Z.testbit (slave_sel h) 0) then Some false
  else if negb (Z.testbit (slave_sel h) 1) then Some true
  else None.

Definition response (h : hw) (frame : list Z) : list Z :=
  let n := Z.of_nat (List.length frame) in
  let f :=
    match selected h with
    | Some false => chip_resp (id_vendor h) (id_code h) (chip0 h) frame
    | Some true => chip_resp (id_vendor h) (id_code h) (chip1 h) frame
    | None => fun _ => 0xFF
    end in
  let r := map (fun i => u8 (f (Z.of_nat i))) (seq 0 (List.length frame)) in
  match flt h with
  | RxShort => removelast r
  | RxExtra => r ++ [0]
  | _ => r
  end.

(** Clock the TX FIFO out. *)
Definition burst (c : Z) (h : hw) : hw :=
  let frame := txq h in
  {| ctrl := c; txq := []; rxq := rxq h ++ response h frame;
     slave_sel := slave_sel h; depth := depth h;
     chip0 := match selected h with
              | Some false => chip_exec (chip0 h) frame
              | _ => chip0 h
              end;
     chip1 := match selected h with
              | Some true => chip_exec (chip1 h) frame
              | _ => chip1 h
              end;
     flt := flt h; id_vendor := id_vendor h; id_code := id_code h;
     frames := frame :: frames h |}.

Definition with_fifos (c : Z) (t r : list Z) (h : hw) : hw :=
  {| ctrl := c; txq := t; rxq := r; slave_sel := slave_sel h;
     depth := depth h; chip0 := chip0 h; chip1 := chip1 h; flt := flt h;
     id_vendor := id_vendor h; id_code := id_code h; frames := frames h |}.

Definition with_slave_sel (v : Z) (h : hw) : hw :=
  {| ctrl := ctrl h; txq := txq h; rxq := rxq h; slave_sel := v;
     depth := depth h; chip0 := chip0 h; chip1 := chip1 h; flt := flt h;
     id_vendor := id_vendor h; id_code := id_code h; frames := frames h |}.

Definition with_fault (x : fault) (h : hw) : hw :=
  {| ctrl := ctrl h; txq := txq h; rxq := rxq h; slave_sel := slave_sel h;
     depth := depth h; chip0 := chip0 h; chip1 := chip1 h; flt := x;
     id_vendor := id_vendor h; id_code := id_code h; frames := frames h |}.

Definition is_stalled (h : hw) : bool :=
  match flt h with TxStall => true | _ => false end.

Definition status (h : hw) : Z :=
  let full (q : list Z) := depth h <=? Z.of_nat (List.length q) in
  let empty (q : list Z) := match q with [] => true | _ => false end in
  let bit (b : bool) (v : Z) := if b then v else 0 in
  Z.lor (bit (empty (rxq h)) QSPI_SR_RX_EMPTY)
    (Z.lor (bit (full (rxq h)) QSPI_SR_RX_FULL)
       (Z.lor (bit (empty (txq h)) QSPI_SR_TX_EMPTY)
          (Z.lor (bit (full (txq h)) QSPI_SR_TX_FULL)
             (match flt h with ErrBits b => b | _ => 0 end)))).

Definition write_ctrl (v : Z) (h : hw) : hw :=
  let t := if Z.testbit v 5 then [] else txq h in
  let r := if Z.testbit v 6 then [] else rxq h in
  (* the two reset bits clear themselves *)
  let c := Z.land v (Z.lnot (Z.lor QSPI_CR_TXFIFO_RESET QSPI_CR_RXFIFO_RESET)) in
  let h := with_fifos c t r h in
  match t with
  | [] => h
  | _ :: _ => if Z.testbit v 8 || is_stalled h then h else burst c h
  end.

Definition read (reg : qspi_reg) (h : hw) : Z * hw :=
  match reg with
  | reg_ctrl => (ctrl h, h)
  | reg_status => (status h, h)
  | reg_rx =>
      match rxq h with
      | [] => (0, h)
      | b :: r => (b, with_fifos (ctrl h) (txq h) r h)
      end
  | reg_slave => (slave_sel h, h)
  | _ => (0, h)
  end.

Definition write (reg : qspi_reg) (v : Z) (h : hw) : hw :=
  match reg with
  | reg_ctrl => write_ctrl v h
  | reg_tx =>
      if depth h <=? Z.of_nat (List.length (txq h)) then h
      else with_fifos (ctrl h) (txq h ++ [u8 v]) (rxq h) h
  | reg_slave => with_slave_sel v h
  | _ => h
  end.

#[export] Instance device : Device :=
  {| dev := hw; ioread32 := read; iowrite32 := write |}.

Definition blank : chip :=
  {| mem := fun _ => 0xFF; ext_addr := 0; wel := false |}.

(** A controller after reset with the given FIFO depth, holding Micron
    chips of 16MB. *)
Definition init (d : Z) : hw :=
  {| ctrl := 0; txq := []; rxq := []; slave_sel := SLAVE_SELECT_NONE;
     depth := d; chip0 := blank; chip1 := blank; flt := NoFault;
     id_vendor := 0x20; id_code := 0x18; frames := [] |}.

(** Chip 0's memory preloaded with [m]. *)
Definition load (m : Z -> Z) (h : hw) : hw :=
  {| ctrl := ctrl h; txq := txq h; rxq := rxq h; slave_sel := slave_sel h;
     depth := depth h;
     chip0 := {| mem := m; ext_addr := ext_addr (chip0 h);
                 wel := wel (chip0 h) |};
     chip1 := chip1 h; flt := flt h;
     id_vendor := id_vendor h; id_code := id_code h; frames := frames h |}.

Definition the_chip (s : Z) (h : hw) : chip :=
  if s =? 0 then chip0 h else chip1 h.

(** The control register while a burst is clocked out: transfer-inhibit
    cleared. *)
Definition START_CTRL : Z := 0x86.

(** QSPI_CR_INIT_STATE once the two reset bits have cleared themselves: the
    control register between transactions. *)
Definition IDLE_CTRL : Z := 0x186.

(** The controller between two transactions of a working device. *)
Record idle (h : hw) : Prop := {
  idle_ctrl : ctrl h = IDLE_CTRL;
  idle_txq : txq h = [];
  idle_rxq : rxq h = [];
  idle_flt : flt h = NoFault;
  idle_depth : 0 < depth h
}.

(** What slave [s] answers to [frame], and the controller after the
    transaction that clocked [frame] out to it. *)
Definition reply (s : Z) (h : hw) (frame : list Z) : list Z :=
  map (fun i =>
         u8 (chip_resp (id_vendor h) (id_code h) (the_chip s h) frame
               (Z.of_nat i)))
    (seq 0 (List.length frame)).

Definition after_frame (s : Z) (frame : list Z) (h : hw) : hw :=
  {| ctrl := IDLE_CTRL; txq := []; rxq := [];
     slave_sel := SLAVE_SELECT_NONE; depth := depth h;
     chip0 := if s =? 0 then chip_exec (chip0 h) frame else chip0 h;
     chip1 := if s =? 0 then chip1 h else chip_exec (chip1 h) frame;
     flt := NoFault; id_vendor := id_vendor h; id_code := id_code h;
     frames := frame :: frames h |}.

(** The controller as qspi_controller_probe leaves it: idle, with the
    control register in its initial state. *)
Definition settle (h : hw) : hw := with_fifos IDLE_CTRL [] [] h.

Definition probed (d : Z) : hw := settle (init d).

End Mock.

(** A probed controller instance on the mock device [h]. *)
Definition mock_flash (h : Mock.hw) (size : Z) (v : qspi_flash_vendor)
  (sect : Z) (slv : Z) : @xrt_qspi Mock.device :=
  @Build_xrt_qspi Mock.device size (vmalloc (Mock.depth h)) h (Mock.depth h)
    sect v slv.

Definition always_ok (n : Z) : bool := true.

(** What qspi_rx leaves in its destination after pulling [resp]. *)
Definition rx_store (ob : option (list Z)) (cnt : Z) (resp : list Z)
  : option (list Z) :=
  match ob with
  | Some b => Some (buf_write b cnt (map u8 resp))
  | None => None
  end.

(** The frame qspi_tx pushes for buf and len. *)
Definition tx_frame (buf : list Z) (len : Z) : list Z :=
  map (fun k => u8 (buf_get buf (Z.of_nat k))) (seq 0 (Z.to_nat len)).

(** * Specification vocabulary *)

Definition is_byte (x : Z) : Prop := 0 <= x < 256.

(** A flat offset the address model can represent: a loff_t whose bits 32
    to 55 are clear, so that it consists of the slave byte (bits 56-63), the
    sector byte (bits 24-31) and the 24-bit in-sector address. *)
Definition flat_offset_representable (addr : Z) : Prop :=
  - 2 ^ 63 <= addr < 2 ^ 63 /\ Z.land (Z.shiftr addr 32) (Z.ones 24) = 0.

Definition faddr_wf (f : qspi_flash_addr) : Prop :=
  is_byte (slave f) /\ is_byte (sector f) /\ is_byte (addr_lo f) /\
  is_byte (addr_mid f) /\ is_byte (addr_hi f).

(** The return codes of the I/O path: success, -EINVAL or -ETIMEDOUT. *)
Definition io_code (r : Z) : Prop := r = 0 \/ r = - EINVAL \/ r = - ETIMEDOUT.

(** The page size of a full-page write as the specification words it:
    64KB if the offset is a multiple of 64KB and at least 64KB remain, else
    32KB likewise, else 4KB likewise, else none (0). *)
Definition page_io_size_spec (off len : Z) : Z :=
  if (off mod 65536 =? 0) && (65536 <=? len) then 65536
  else if (off mod 32768 =? 0) && (32768 <=? len) then 32768
  else if (off mod 4096 =? 0) && (4096 <=? len) then 4096
  else 0.

(** Whether some step of a transaction fails, following the steps in the
    order qspi_transaction runs them: FIFO reset, slave index validation,
    transmit, then receive (into the buffer, or the drain to NULL). *)
Definition transaction_step_failed {D : Device} (buf : list Z) (len : Z)
  (need_output : bool) (flash : xrt_qspi) : bool :=
  let '(r1, f1) := qspi_reset_fifo flash in
  if negb (r1 =? 0) then true
  else if qspi_curr_slave f1 >=? MAX_NUM_OF_SLAVES then true
  else
    let '(r2, f2) :=
      qspi_tx buf len (qspi_activate_slave (qspi_curr_slave f1) f1) in
    if negb (r2 =? 0) then true
    else
      let '(r3, _, _) :=
        qspi_rx (if need_output then Some buf else None) len f2 in
      negb (r3 =? 0).

(** The same, leaving out the drain whose result qspi_transaction drops. *)
Definition transaction_checked_step_failed {D : Device} (buf : list Z)
  (len : Z) (need_output : bool) (flash : xrt_qspi) : bool :=
  let '(r1, f1) := qspi_reset_fifo flash in
  if negb (r1 =? 0) then true
  else if qspi_curr_slave f1 >=? MAX_NUM_OF_SLAVES then true
  else
    let '(r2, f2) :=
      qspi_tx buf len (qspi_activate_slave (qspi_curr_slave f1) f1) in
    if negb (r2 =? 0) then true
    else
      let '(r3, _, _) :=
        qspi_rx (if need_output then Some buf else None) len f2 in
      need_output && negb (r3 =? 0).

(** A working controller instance on the mock, driving slave [s]. *)
Record healthy (s : Z) (f : @xrt_qspi Mock.device) : Prop := {
  h_idle : Mock.idle (qspi_regs f);
  h_slave : qspi_curr_slave f = s;
  h_slave_ok : s = 0 \/ s = 1;
  h_depth : qspi_fifo_depth f = Mock.depth (qspi_regs f);
  h_io_buf : Z.of_nat (List.length (io_buf f)) = qspi_fifo_depth f;
  h_fifo : 8 < qspi_fifo_depth f < 2 ^ 64
}.

(** The cached sector agrees with the chip's extended address register, or
    at least cannot be mistaken for [sect]. *)
Definition sector_known (s sect : Z) (f : @xrt_qspi Mock.device) : Prop :=
  qspi_curr_sector f = Mock.ext_addr (Mock.the_chip s (qspi_regs f))
  \/ qspi_curr_sector f <> sect.

(** What an operation of the page I/O layer leaves behind: the instance is
    still healthy, its configuration is unchanged, the cached sector is the
    chip's, the other chip is untouched, and the memory of chip [s] is [m]. *)
Record post (s : Z) (f f' : @xrt_qspi Mock.device) (m : Z -> Z) : Prop := {
  p_healthy : healthy s f';
  p_depth : qspi_fifo_depth f' = qspi_fifo_depth f;
  p_vendor : vendor f' = vendor f;
  p_size : flash_size f' = flash_size f;
  p_known :
    qspi_curr_sector f' = Mock.ext_addr (Mock.the_chip s (qspi_regs f'));
  p_other :
    Mock.the_chip (1 - s) (qspi_regs f') = Mock.the_chip (1 - s) (qspi_regs f);
  p_mem : forall a, Mock.mem (Mock.the_chip s (qspi_regs f')) a = m a
}.

(** Memory [m] after programming, from chip address [A] on, the [n] bytes
    at &buf[pos]. *)
Definition programmed (m : Z -> Z) (A : Z) (buf : list Z) (pos n : Z)
  : Z -> Z :=
  fun a =>
    if (A <=? a) && (a <? A + n)
    then Z.land (m a) (u8 (buf_get buf (pos + (a - A))))
    else m a.

(** Memory [m] after the erase frame with opcode [cmd] at chip address [A]. *)
Definition erased (m : Z -> Z) (A : Z) (cmd : Z) : Z -> Z :=
  if Mock.erase_size cmd =? 0 then m
  else Mock.erase m A (Mock.erase_size cmd).

(** The address of a flat offset inside its chip: sector byte and in-sector
    address, the low 32 bits. *)
Definition chip_addr (off : Z) : Z := off mod 2 ^ 32.

(** The program opcodes the chips of the mock accept. *)
Definition is_write_cmd (op : Z) : Prop :=
  op = QSPI_CMD_PAGE_PROGRAM \/ op = QSPI_CMD_QUAD_WRITE.

(** What the reads of a read-modify-write leave behind, seen from the
    instance [f] the operation started on. *)
Record settled (s sect : Z) (f f' : @xrt_qspi Mock.device) (m : Z -> Z)
  : Prop := {
  st_healthy : healthy s f';
  st_vendor : vendor f' = vendor f;
  st_known : sector_known s sect f';
  st_other :
    Mock.the_chip (1 - s) (qspi_regs f')
    = Mock.the_chip (1 - s) (qspi_regs f);
  st_mem : forall a, Mock.mem (Mock.the_chip s (qspi_regs f')) a = m a
}.

(** The committed count [cnt] can be read off the result of qspi_write
    (return value and *off): either the return value is the count or *off
    has advanced by it. *)
Definition write_reports_commit {D : Device} (result : Z * Z * xrt_qspi)
  (off cnt : Z) : Prop :=
  fst (fst result) = cnt \/ snd (fst result) = s64 (off + cnt).

(** A working controller instance on a mock device of FIFO depth 256 with a
    16MB Micron chip on each slave; chip 0 holds a recognisable pattern. *)
Definition demo_flash : @xrt_qspi Mock.device :=
  mock_flash (Mock.load (fun a => a mod 251) (Mock.probed 256)) 16777216
    micron 0xff 0.

(** The same with 32MB chips (two sectors each), both blank. *)
Definition demo_flash32 : @xrt_qspi Mock.device :=
  mock_flash (Mock.probed 256) 33554432 micron 0xff 0.

(** A second stream write on the instance a first one left. *)
Definition then_write (r : option (Z * Z * @xrt_qspi Mock.device))
  (buf : list Z) (n off : Z) : option (Z * Z * @xrt_qspi Mock.device) :=
  match r with
  | Some (_, _, f) => qspi_write always_ok buf n off f
  | None => None
  end.

(** The offset 10 bytes below the end of the 16MB chip on slave 1. *)
Definition slave1_tail : Z := 2 ^ 56 + 16777216 - 10.

(** What a stream call returned and where it left *off. *)
Definition read_outcome {D : Device}
  (r : option (Z * list Z * Z * xrt_qspi)) : option (Z * Z) :=
  option_map (fun x => (fst (fst (fst x)), snd (fst x))) r.

Definition write_outcome {D : Device} (r : option (Z * Z * xrt_qspi))
  : option (Z * Z) :=
  option_map (fun x => (fst (fst x), snd (fst x))) r.

(** What the attach of a device gives: the return value, the discovered
    FIFO depth and the size of io_buf. *)
Definition probe_outcome {D : Device} (r : option (Z * xrt_qspi))
  : option (Z * Z * nat) :=
  option_map
    (fun x => (fst x, qspi_fifo_depth (snd x), List.length (io_buf (snd x))))
    r.

(** What attach sets up and the I/O paths rely on: flash_size, the FIFO
    depth, the vendor and the size of io_buf. *)
Definition config_of {D : Device} (flash : xrt_qspi)
  : Z * Z * qspi_flash_vendor * nat :=
  (flash_size flash, qspi_fifo_depth flash, vendor flash,
   List.length (io_buf flash)).

(** The same with the slave the instance currently drives. *)
Definition setup_of {D : Device} (flash : xrt_qspi)
  : Z * Z * qspi_flash_vendor * nat * Z :=
  (config_of flash, qspi_curr_slave flash).

(** Memory [m] with the first [n] bytes of [buf] stored from chip address
    [A] on. *)
Definition stored (m : Z -> Z) (A : Z) (buf : list Z) (n : Z) : Z -> Z :=
  fun a => if (A <=? a) && (a <? A + n) then u8 (buf_get buf (a - A)) else m a.

(** The bytes one write attempt at [off] covers when [len] remain: a full
    page when one qualifies, else what is left of the 4KB page. *)
Definition write_chunk (off len : Z) : Z :=
  if qspi_get_page_io_size off len =? 0
  then Z.min len (4096 - off mod 4096)
  else qspi_get_page_io_size off len.

(** The state after [k] polls of [cond] that all came out false. *)
Fixpoint after_polls {T : Type} (k : nat) (cond : T -> bool * T) (s : T) : T :=
  match k with
  | O => s
  | S k => after_polls k cond (snd (cond s))
  end.

(** A controller whose chips answer the ID read with [idv] and [idc]. *)
Definition mock_with_id (idv idc : Z) (h : Mock.hw) : Mock.hw :=
  {| Mock.ctrl := Mock.ctrl h; Mock.txq := Mock.txq h; Mock.rxq := Mock.rxq h;
     Mock.slave_sel := Mock.slave_sel h; Mock.depth := Mock.depth h;
     Mock.chip0 := Mock.chip0 h; Mock.chip1 := Mock.chip1 h;
     Mock.flt := Mock.flt h; Mock.id_vendor := idv; Mock.id_code := idc;
     Mock.frames := Mock.frames h |}.

(** The 32MB instance with the recognisable pattern on chip 0. *)
Definition demo_flash32_pattern : @xrt_qspi Mock.device :=
  mock_flash (Mock.load (fun a => a mod 251) (Mock.probed 256)) 33554432
    micron 0xff 0.

(** The [n] bytes a chip holds from address [a] on. *)
Definition bytes_at (c : Mock.chip) (a : Z) (n : nat) : list Z :=
  map (fun j => Mock.mem c (a + Z.of_nat j)) (seq 0 n).

(** The instance a stream call left, switched to slave 0 as the next stream
    call on slave 0 does before its loop. *)
Definition then_slave0 (r : option (Z * Z * @xrt_qspi Mock.device))
  : option (@xrt_qspi Mock.device) :=
  option_map (fun x => set_curr_slave 0 (snd x)) r.

(** A stream write of ten bytes to sector 1 of slave 1. *)
Definition slave1_sector1_write : option (Z * Z * @xrt_qspi Mock.device) :=
  qspi_write always_ok (repeat 7 10) 10 (2 ^ 56 + 16777216 + 100)
    demo_flash32_pattern.

(** The FIFO depths at which a FIFO transfer of the given direction moves
    at least one byte: every size_t but the 4 bytes of the header for a
    write, and but the 8 bytes of header and dummy bytes for a read. *)
Definition fifo_moves (write : bool) (depth : Z) : Prop :=
  0 <= depth < 2 ^ 64 /\ depth <> (if write then 4 else 8).

(** * Properties *)

(** ** Machine arithmetic *)

Lemma land_shifted_low (hi lo k : Z) :
  0 <= k -> 0 <= lo < 2 ^ k -> Z.land (hi * 2 ^ k) lo = 0.
Proof.
  intros Hk Hlo. apply Z.bits_inj'. intros n Hn.
  rewrite Z.land_spec, Z.bits_0.
  destruct (Z.lt_ge_cases n k) as [Hlt | Hge].
  - rewrite Z.mul_pow2_bits_low by lia. reflexivity.
  - assert (Hb : Z.testbit lo n = false).
    { apply Z.testbit_false; [lia |].
      rewrite Z.div_small; [reflexivity |].
      split; [lia |]. apply Z.lt_le_trans with (2 ^ k); [lia |].
      apply Z.pow_le_mono_r; lia. }
    rewrite Hb. apply andb_false_r.
Qed.

Lemma lor_shifted_low (hi lo k : Z) :
  0 <= k -> 0 <= lo < 2 ^ k -> Z.lor (hi * 2 ^ k) lo = hi * 2 ^ k + lo.
Proof.
  intros Hk Hlo.
  pose proof (Z.add_lor_land (hi * 2 ^ k) lo) as H.
  rewrite land_shifted_low in H by assumption. lia.
Qed.

Lemma u8_range x : 0 <= u8 x < 256.
Proof. unfold u8. apply Z.mod_pos_bound. lia. Qed.

Lemma u8_small x : 0 <= x < 256 -> u8 x = x.
Proof. intros H. unfold u8. apply Z.mod_small; lia. Qed.

Lemma s64_small x : - 2 ^ 63 <= x < 2 ^ 63 -> s64 x = x.
Proof. intros H. unfold s64. rewrite Z.mod_small; lia. Qed.

Lemma u64_small x : 0 <= x < 2 ^ 64 -> u64 x = x.
Proof. intros H. unfold u64. apply Z.mod_small; lia. Qed.

Lemma u32_small x : 0 <= x < 2 ^ 32 -> u32 x = x.
Proof. intros H. unfold u32. apply Z.mod_small; lia. Qed.

(** ** The flat address model *)

Lemma qspi_faddr2offset_sum f :
  faddr_wf f ->
  qspi_faddr2offset f =
  s64 (slave f * 2 ^ 56 + sector f * 2 ^ 24 + addr_hi f * 2 ^ 16
       + addr_mid f * 2 ^ 8 + addr_lo f).
Proof.
  unfold faddr_wf, is_byte. intros (Hs & Hc & Hl & Hm & Hh).
  unfold qspi_faddr2offset.
  cbv zeta. rewrite Z.lor_0_l.
  rewrite !Z.shiftl_mul_pow2 by lia.
  rewrite (s64_small (sector f * 2 ^ 8)) by lia.
  rewrite (lor_shifted_low (sector f) (addr_hi f) 8) by lia.
  rewrite (s64_small ((sector f * 2 ^ 8 + addr_hi f) * 2 ^ 8)) by lia.
  rewrite (lor_shifted_low _ (addr_mid f) 8) by lia.
  rewrite (s64_small
             (((sector f * 2 ^ 8 + addr_hi f) * 2 ^ 8 + addr_mid f) * 2 ^ 8))
    by lia.
  rewrite (lor_shifted_low _ (addr_lo f) 8) by lia.
  rewrite (u64_small (slave f * 2 ^ 56)) by lia.
  rewrite u64_small by lia.
  rewrite Z.lor_comm, (lor_shifted_low (slave f) _ 56) by lia.
  f_equal. lia.
Qed.

Lemma qspi_offset2faddr_wf addr : faddr_wf (qspi_offset2faddr addr).
Proof. repeat split; apply u8_range. Qed.

Lemma set_slave_wf s f : is_byte s -> faddr_wf f -> faddr_wf (set_slave s f).
Proof. intros Hs (_ & H). split; assumption. Qed.

Lemma qspi_offset2faddr2offset addr :
  flat_offset_representable addr ->
  qspi_faddr2offset (qspi_offset2faddr addr) = addr.
Proof.
  intros [Hr Hz].
  rewrite qspi_faddr2offset_sum by apply qspi_offset2faddr_wf.
  cbn [qspi_offset2faddr slave sector addr_lo addr_mid addr_hi].
  rewrite Z.land_ones in Hz by lia.
  rewrite Z.shiftr_div_pow2 in Hz by lia.
  unfold u8, s64. rewrite !Z.shiftr_div_pow2 by lia.
  Z.div_mod_to_equations. lia.
Qed.

Lemma qspi_faddr2offset2faddr f :
  faddr_wf f -> qspi_offset2faddr (qspi_faddr2offset f) = f.
Proof.
  intros Hwf. rewrite qspi_faddr2offset_sum by assumption.
  destruct Hwf as (H1 & H2 & H3 & H4 & H5).
  destruct f as [s c l m h]; cbn [slave sector addr_lo addr_mid addr_hi] in *.
  unfold is_byte in *.
  unfold qspi_offset2faddr, u8, s64. rewrite !Z.shiftr_div_pow2 by lia.
  f_equal; Z.div_mod_to_equations; lia.
Qed.

(** C5.  A representable flat offset, decomposed by qspi_offset2faddr and
    recomposed by qspi_faddr2offset, is the original offset; and the slave
    byte is kept apart from the sector and in-sector bytes: putting any other
    slave byte into the decomposition and going through the flat offset gives
    back that slave and the same sector and address bytes. *)
Theorem flat_offset_roundtrip (addr : Z) :
  flat_offset_representable addr ->
  qspi_faddr2offset (qspi_offset2faddr addr) = addr /\
  (forall s, is_byte s ->
     qspi_offset2faddr
       (qspi_faddr2offset (set_slave s (qspi_offset2faddr addr)))
     = set_slave s (qspi_offset2faddr addr)).
Proof.
  intros Hrep. split.
  - apply qspi_offset2faddr2offset, Hrep.
  - intros s Hs. apply qspi_faddr2offset2faddr.
    apply set_slave_wf; [exact Hs | apply qspi_offset2faddr_wf].
Qed.

Lemma flat_offset_roundtrip_witness :
  flat_offset_representable 0x01000000020A0B0C /\
  qspi_faddr2offset (qspi_offset2faddr 0x01000000020A0B0C)
  = 0x01000000020A0B0C.
Proof.
  assert (H : flat_offset_representable 0x01000000020A0B0C).
  { split; [lia | reflexivity]. }
  split; [exact H | exact (proj1 (flat_offset_roundtrip _ H))].
Defined.

(** ** Return codes of the I/O path *)

Create HintDb qspi.

Section DriverFacts.
Context {D : Device}.
Implicit Types flash : xrt_qspi.

Lemma io_code_0 : io_code 0. Proof. left; reflexivity. Qed.
Lemma io_code_EINVAL : io_code (- EINVAL). Proof. right; left; reflexivity. Qed.
Lemma io_code_ETIMEDOUT : io_code (- ETIMEDOUT). Proof. right; right; reflexivity. Qed.
#[local] Hint Resolve io_code_0 io_code_EINVAL io_code_ETIMEDOUT : qspi.

Ltac pair_split :=
  repeat match goal with
  | |- context [let '(_, _) := ?e in _] => destruct e
  | |- context [if ?b then _ else _] => destruct b
  end.

Lemma qspi_reset_fifo_code flash : io_code (fst (qspi_reset_fifo flash)).
Proof. unfold qspi_reset_fifo. pair_split; cbn [fst snd]; auto with qspi. Qed.

Lemma qspi_tx_code buf len flash : io_code (fst (qspi_tx buf len flash)).
Proof. unfold qspi_tx. pair_split; cbn [fst snd]; auto with qspi. Qed.

Lemma qspi_rx_loop_code n : forall cnt buf flash,
  let r := fst (fst (qspi_rx_loop n cnt buf flash)) in r = 0 \/ r = - EINVAL.
Proof.
  induction n as [| n IH]; intros cnt buf flash; cbn [qspi_rx_loop];
    [left; reflexivity |].
  destruct (qspi_get_status flash) as [st f1].
  destruct (negb _); [right; reflexivity |].
  destruct (qspi_read8 f1) as [c f2]. apply IH.
Qed.

Lemma qspi_rx_code buf len flash : io_code (fst (fst (qspi_rx buf len flash))).
Proof.
  unfold qspi_rx.
  pose proof (qspi_rx_loop_code (Z.to_nat len) 0 buf flash) as H. cbv zeta in H.
  destruct (qspi_rx_loop (Z.to_nat len) 0 buf flash) as [[r b] f1]. cbn [fst snd] in H.
  destruct H as [-> | ->]; cbn [fst snd]; pair_split; cbn [fst snd]; auto with qspi.
Qed.

Lemma qspi_transaction_code buf len out flash :
  io_code (fst (fst (qspi_transaction buf len out flash))).
Proof.
  unfold qspi_transaction.
  pose proof (qspi_reset_fifo_code flash) as H1.
  destruct (qspi_reset_fifo flash) as [r1 f1]. cbn [fst snd] in H1.
  destruct (negb (r1 =? 0)); cbn [fst snd]; [assumption |].
  destruct (_ >=? _); cbn [fst snd]; auto with qspi.
  pose proof (qspi_tx_code buf len (qspi_activate_slave (qspi_curr_slave f1) f1)) as H2.
  destruct (qspi_tx _ _ _) as [r2 f2]. cbn [fst snd] in H2.
  destruct (negb (r2 =? 0)) eqn:E2; cbn [fst snd]; [assumption |].
  destruct out.
  - pose proof (qspi_rx_code (Some buf) len f2) as H3.
    destruct (qspi_rx _ _ _) as [[r3 b3] f3]. cbn [fst snd] in *. assumption.
  - destruct (qspi_rx _ _ _) as [[r3 b3] f3]. cbn [fst snd]. assumption.
Qed.

Lemma qspi_exec_io_cmd_code len out flash :
  io_code (fst (qspi_exec_io_cmd len out flash)).
Proof.
  unfold qspi_exec_io_cmd.
  pose proof (qspi_transaction_code (io_buf flash) len out flash) as H.
  destruct (qspi_transaction _ _ _ _) as [[r b] f]. exact H.
Qed.

Lemma qspi_enable_write_code flash : io_code (fst (qspi_enable_write flash)).
Proof.
  unfold qspi_enable_write.
  pose proof (qspi_transaction_code [QSPI_CMD_WRITE_ENABLE] 1 false flash) as H.
  destruct (qspi_transaction _ _ _ _) as [[r b] f]. exact H.
Qed.

Lemma qspi_set_sector_code s flash : io_code (fst (qspi_set_sector s flash)).
Proof.
  unfold qspi_set_sector. destruct (s =? _); cbn [fst snd]; auto with qspi.
  pose proof (qspi_enable_write_code flash) as H1.
  destruct (qspi_enable_write flash) as [r1 f1]. cbn [fst snd] in H1.
  destruct (negb (r1 =? 0)); cbn [fst snd]; [assumption |].
  pose proof (qspi_transaction_code
                [QSPI_CMD_EXTENDED_ADDRESS_REG_WRITE; s] 2 false f1) as H2.
  destruct (qspi_transaction _ _ _ _) as [[r2 b2] f2]. cbn [fst snd] in H2.
  destruct (negb (r2 =? 0)); cbn [fst snd]; assumption.
Qed.

Lemma qspi_setup_io_cmd_header_code op faddr flash :
  io_code (fst (fst (qspi_setup_io_cmd_header op faddr flash))).
Proof.
  unfold qspi_setup_io_cmd_header.
  pose proof (qspi_set_sector_code (sector faddr) flash) as H.
  destruct (qspi_set_sector _ _) as [r f]. cbn [fst snd] in H.
  destruct (r =? 0); cbn [fst snd]; assumption.
Qed.

Lemma qspi_fifo_rd_code off buf pos cnt flash :
  io_code (fst (fst (fst (qspi_fifo_rd off buf pos cnt flash)))).
Proof.
  unfold qspi_fifo_rd. cbv zeta.
  pose proof (qspi_setup_io_cmd_header_code QSPI_CMD_QUAD_READ
                (qspi_offset2faddr off) flash) as H1.
  destruct (qspi_setup_io_cmd_header _ _ _) as [[r1 hl] f1]. cbn [fst snd] in H1.
  destruct (negb (r1 =? 0)); cbn [fst snd]; [assumption |].
  destruct (qspi_fifo_rd_len _ _ _) as [pl tl].
  pose proof (qspi_exec_io_cmd_code tl true f1) as H2.
  destruct (qspi_exec_io_cmd tl true f1) as [r2 f2].
  cbn [fst snd] in H2. destruct (negb (r2 =? 0)); cbn [fst snd]; auto with qspi.
Qed.

Lemma qspi_fifo_wr_code off buf pos cnt flash :
  io_code (fst (fst (qspi_fifo_wr off buf pos cnt flash))).
Proof.
  unfold qspi_fifo_wr. cbv zeta.
  pose proof (qspi_setup_io_cmd_header_code (write_cmd (vendor flash))
                (qspi_offset2faddr off) flash) as H1.
  destruct (qspi_setup_io_cmd_header _ _ _) as [[r1 hl] f1]. cbn [fst snd] in H1.
  destruct (negb (r1 =? 0)); cbn [fst snd]; [assumption |].
  destruct (qspi_fifo_wr_len _ _ _) as [pl tl].
  match goal with |- context [qspi_enable_write ?f] =>
    pose proof (qspi_enable_write_code f) as H2;
    destruct (qspi_enable_write f) as [r2 f2] end.
  cbn [fst snd] in H2. destruct (negb (r2 =? 0)); cbn [fst snd]; [assumption |].
  match goal with |- context [qspi_exec_io_cmd ?l ?o ?f] =>
    pose proof (qspi_exec_io_cmd_code l o f) as H3;
    destruct (qspi_exec_io_cmd l o f) as [r3 f3] end.
  cbn [fst snd] in H3. destruct (negb (r3 =? 0)); cbn [fst snd]; [assumption |].
  destruct (qspi_wait_until_ready f3) as [rdy f4].
  destruct (negb rdy); cbn [fst snd]; auto with qspi.
Qed.

Lemma qspi_buf_rdwr_loop_code fuel : forall buf pos off len write n flash r b f,
  qspi_buf_rdwr_loop fuel buf pos off len write n flash = Some (r, b, f) ->
  io_code r.
Proof.
  induction fuel as [| fuel IH]; intros buf pos off len write n flash r b f;
    cbn [qspi_buf_rdwr_loop]; destruct (n <? len).
  - intros H; inversion H.
  - intros H; inversion H; auto with qspi.
  - destruct write.
    + match goal with |- context [qspi_fifo_wr ?a ?b ?c ?d ?e] =>
        pose proof (qspi_fifo_wr_code a b c d e) as H;
        destruct (qspi_fifo_wr a b c d e) as [[r1 c1] f1] end.
      cbn [fst snd] in H. destruct (r1 =? 0).
      * apply IH.
      * intros H0; inversion H0; subst; exact H.
    + match goal with |- context [qspi_fifo_rd ?a ?b ?c ?d ?e] =>
        pose proof (qspi_fifo_rd_code a b c d e) as H;
        destruct (qspi_fifo_rd a b c d e) as [[[r1 b1] c1] f1] end.
      cbn [fst snd] in H. destruct (r1 =? 0).
      * apply IH.
      * intros H0; inversion H0; subst; exact H.
  - intros H; inversion H; auto with qspi.
Qed.

Lemma qspi_page_erase_code off pagesz flash :
  io_code (fst (qspi_page_erase off pagesz flash)).
Proof.
  unfold qspi_page_erase. cbv zeta.
  destruct (qspi_wait_until_ready flash) as [rdy f0].
  destruct (negb rdy); cbn [fst snd]; auto with qspi.
  match goal with |- context [qspi_setup_io_cmd_header ?a ?b ?c] =>
    pose proof (qspi_setup_io_cmd_header_code a b c) as H1;
    destruct (qspi_setup_io_cmd_header a b c) as [[r1 hl] f1] end.
  cbn [fst snd] in H1. destruct (negb (r1 =? 0)); cbn [fst snd]; [assumption |].
  pose proof (qspi_enable_write_code f1) as H2.
  destruct (qspi_enable_write f1) as [r2 f2].
  cbn [fst snd] in H2. destruct (negb (r2 =? 0)); cbn [fst snd]; [assumption |].
  pose proof (qspi_exec_io_cmd_code hl false f2) as H3.
  destruct (qspi_exec_io_cmd hl false f2) as [r3 f3].
  cbn [fst snd] in H3. destruct (negb (r3 =? 0)); cbn [fst snd]; [assumption |].
  destruct (qspi_wait_until_ready f3) as [rdy' f4].
  destruct (negb rdy'); cbn [fst snd]; auto with qspi.
Qed.

Lemma io_code_not_EOPNOTSUPP r : io_code r -> r <> - EOPNOTSUPP.
Proof. unfold io_code, EINVAL, ETIMEDOUT, EOPNOTSUPP. lia. Qed.

Lemma IS_ALIGNED_mod x k :
  0 <= k <= 64 -> IS_ALIGNED x (2 ^ k) = (x mod 2 ^ k =? 0).
Proof.
  intros Hk. unfold IS_ALIGNED, u64.
  change (2 ^ k - 1) with (Z.pred (2 ^ k)). rewrite <- Z.ones_equiv.
  rewrite Z.land_ones by lia.
  rewrite Z.mod_mod_divide; [reflexivity |].
  exists (2 ^ (64 - k)). rewrite <- Z.pow_add_r by lia. f_equal. lia.
Qed.

Lemma qspi_get_page_io_size_spec off sz :
  qspi_get_page_io_size off sz = page_io_size_spec off sz.
Proof.
  unfold qspi_get_page_io_size, page_io_size_spec.
  change QSPI_HUGE_PAGE_SIZE with (2 ^ 16).
  change QSPI_LARGE_PAGE_SIZE with (2 ^ 15).
  change QSPI_PAGE_SIZE with (2 ^ 12).
  rewrite !IS_ALIGNED_mod by lia.
  rewrite !Z.geb_leb. reflexivity.
Qed.

Lemma qspi_page_wr_not_applicable ubuf upos kbuf off cnt flash :
  qspi_get_page_io_size off cnt = 0 ->
  qspi_page_wr ubuf upos kbuf off cnt flash
  = Some (- EOPNOTSUPP, kbuf, cnt, flash).
Proof. intros H. unfold qspi_page_wr. rewrite H. reflexivity. Qed.

Lemma qspi_page_wr_applicable ubuf upos kbuf off cnt flash r b c f :
  qspi_get_page_io_size off cnt <> 0 ->
  qspi_page_wr ubuf upos kbuf off cnt flash = Some (r, b, c, f) ->
  r <> - EOPNOTSUPP /\ c = qspi_get_page_io_size off cnt.
Proof.
  intros Hsz. unfold qspi_page_wr. cbv zeta.
  destruct (Z.eqb_spec (qspi_get_page_io_size off cnt) 0) as [E | _];
    [contradiction |].
  destruct (copy_from_user _ _ _ _ _) as [left kb].
  destruct (negb (left =? 0)).
  { intros [= <- _ <- _]. split; [discriminate | reflexivity]. }
  pose proof (qspi_page_erase_code off (qspi_get_page_io_size off cnt) flash)
    as H1.
  destruct (qspi_page_erase _ _ _) as [r1 f1]. cbn [fst snd] in H1.
  destruct (r1 =? 0).
  - destruct (qspi_buf_rdwr _ _ _ _ _ _) as [[[r2 b2] f2] |] eqn:E2;
      [| discriminate].
    intros [= <- _ <- _]. split; [| reflexivity].
    apply io_code_not_EOPNOTSUPP.
    unfold qspi_buf_rdwr in E2. eapply qspi_buf_rdwr_loop_code, E2.
  - intros [= <- _ <- _]. split; [| reflexivity].
    apply io_code_not_EOPNOTSUPP, H1.
Qed.

End DriverFacts.

(** ** Full-page write and the fallback to RMW *)

Lemma qspi_write_attempt_fallback {D : Device} ubuf upos page off len
  (flash : xrt_qspi) :
  qspi_get_page_io_size off len = 0 ->
  qspi_write_attempt ubuf upos page off len flash
  = qspi_page_rmw ubuf upos page off len flash.
Proof.
  intros H. unfold qspi_write_attempt.
  rewrite (qspi_page_wr_not_applicable _ _ _ _ _ _ H). reflexivity.
Qed.

(** ** The transaction engine *)

(** C10, as the code has it.  qspi_transaction returns a failure exactly
    when the FIFO reset, the slave index validation, the transmit, or the
    receive into the buffer (need_output = true) fails.  The drain that runs
    when need_output = false is not among them: its result is dropped. *)
Theorem transaction_reports_checked_steps {D : Device} buf len need_output
  (flash : xrt_qspi) :
  transaction_checked_step_failed buf len need_output flash = true <->
  fst (fst (qspi_transaction buf len need_output flash)) <> 0.
Proof.
  unfold transaction_checked_step_failed, qspi_transaction.
  destruct (qspi_reset_fifo flash) as [r1 f1].
  destruct (Z.eqb_spec r1 0) as [-> | Hr1]; cbn [negb fst snd].
  2:{ split; [intros _; exact Hr1 | reflexivity]. }
  destruct (qspi_curr_slave f1 >=? MAX_NUM_OF_SLAVES); cbn [fst snd].
  { split; [intros _; discriminate | reflexivity]. }
  destruct (qspi_tx buf len _) as [r2 f2].
  destruct (Z.eqb_spec r2 0) as [-> | Hr2]; cbn [negb fst snd].
  2:{ split; [intros _; exact Hr2 | reflexivity]. }
  destruct need_output.
  - destruct (qspi_rx (Some buf) len f2) as [[r3 b3] f3]. cbn [andb fst snd].
    destruct (Z.eqb_spec r3 0) as [-> | Hr3]; cbn [negb].
    + split; [discriminate | intros H; contradiction H; reflexivity].
    + split; [intros _; exact Hr3 | reflexivity].
  - destruct (qspi_rx None len f2) as [[r3 b3] f3]. cbn [andb fst snd].
    split; [discriminate | intros H; contradiction H; reflexivity].
Qed.

(** C10 as stated fails: with the last response byte lost, the drain of a
    write-enable transaction pulls from an empty RX FIFO and fails, and the
    transaction still returns 0. *)
Lemma transaction_drain_failure_unreported :
  let flash :=
    mock_flash (Mock.with_fault Mock.RxShort (Mock.init 16)) 16777216 micron
      0 0 in
  ~ (transaction_step_failed [QSPI_CMD_WRITE_ENABLE] 1 false flash = true ->
     fst (fst (qspi_transaction [QSPI_CMD_WRITE_ENABLE] 1 false flash)) <> 0).
Proof.
  intros flash H. apply H; vm_compute; reflexivity.
Qed.

Lemma qspi_transaction_deselects_after_tx buf len need_output
  (flash : @xrt_qspi Mock.device) :
  fst (qspi_reset_fifo flash) = 0 ->
  (qspi_curr_slave (snd (qspi_reset_fifo flash)) >=? MAX_NUM_OF_SLAVES)
  = false ->
  fst (qspi_tx buf len
         (qspi_activate_slave (qspi_curr_slave (snd (qspi_reset_fifo flash)))
            (snd (qspi_reset_fifo flash)))) = 0 ->
  Mock.slave_sel
    (qspi_regs (snd (qspi_transaction buf len need_output flash)))
  = SLAVE_SELECT_NONE.
Proof.
  unfold qspi_transaction.
  destruct (qspi_reset_fifo flash) as [r1 f1]. cbn [fst snd].
  intros -> Hs. rewrite Hs. cbn [Z.eqb negb].
  destruct (qspi_tx buf len _) as [r2 f2]. cbn [fst snd].
  intros ->. cbn [Z.eqb negb].
  destruct need_output.
  - destruct (qspi_rx (Some buf) len f2) as [[r3 b3] f3]. reflexivity.
  - destruct (qspi_rx None len f2) as [[r3 b3] f3]. reflexivity.
Qed.

(** C9 at the failing input.  With an error bit set in the status register
    the transmit of a write-enable transaction fails; qspi_transaction
    returns -EINVAL through the early return and the slave-select register
    still selects slave 0 (bit 0 low) instead of holding the "none selected"
    value. *)
Theorem transaction_tx_failure_leaves_slave_selected :
  let flash :=
    mock_flash
      (Mock.with_fault (Mock.ErrBits QSPI_SR_MODE_ERR) (Mock.init 16))
      16777216 micron 0 0 in
  let result := qspi_transaction [QSPI_CMD_WRITE_ENABLE] 1 false flash in
  Mock.slave_sel (qspi_regs flash) = SLAVE_SELECT_NONE /\
  fst (fst result) = - EINVAL /\
  Mock.slave_sel (qspi_regs (snd result)) = u32 (Z.lnot (BIT 0)) /\
  Mock.slave_sel (qspi_regs (snd result)) <> SLAVE_SELECT_NONE.
Proof.
  intros flash result. vm_compute. repeat split; discriminate.
Qed.

(** The same through the timeout: a TX FIFO that never drains makes the
    transmit return -ETIMEDOUT, again with slave 0 left selected. *)
Lemma transaction_tx_timeout_leaves_slave_selected :
  let flash :=
    mock_flash (Mock.with_fault Mock.TxStall (Mock.init 16)) 16777216 micron
      0 0 in
  let result := qspi_transaction [QSPI_CMD_WRITE_ENABLE] 1 false flash in
  fst (fst result) = - ETIMEDOUT /\
  Mock.slave_sel (qspi_regs (snd result)) <> SLAVE_SELECT_NONE.
Proof.
  intros flash result. vm_compute. split; [reflexivity | discriminate].
Qed.

(** ** The mock controller, one transaction at a time *)

Lemma retry_succ : QSPI_BUSY_RETRY = S (Z.to_nat 199999).
Proof. unfold QSPI_BUSY_RETRY. rewrite <- Z2Nat.inj_succ by lia. reflexivity. Qed.

Lemma QSPI_BUSY_WAIT_now {S : Type} (cond : S -> bool * S) (s s' : S) :
  cond s = (true, s') -> QSPI_BUSY_WAIT cond s = (false, s').
Proof.
  intros H. unfold QSPI_BUSY_WAIT. rewrite retry_succ.
  cbn [busy_wait]. rewrite H. reflexivity.
Qed.
Opaque QSPI_BUSY_RETRY.

Lemma u8_u32 x : u8 (u32 x) = u8 x.
Proof.
  unfold u8, u32. change (2 ^ 32) with (256 * 2 ^ 24).
  rewrite Z.mod_mod_divide; [reflexivity |]. exists (2 ^ 24). lia.
Qed.

Lemma u8_u8 x : u8 (u8 x) = u8 x.
Proof. unfold u8. apply Z.mod_mod. lia. Qed.

Section MockSim.

Local Abbreviation flashT := (@xrt_qspi Mock.device).
Local Abbreviation mset := (@set_regs Mock.device).
Implicit Types (f flash : flashT) (h : Mock.hw).

Lemma set_regs_eta f : mset (qspi_regs f) f = f.
Proof. destruct f; reflexivity. Qed.

Lemma set_regs_twice h h' f : mset h (mset h' f) = mset h f.
Proof. reflexivity. Qed.

Lemma with_fifos_twice c t r c' t' r' h :
  Mock.with_fifos c t r (Mock.with_fifos c' t' r' h) = Mock.with_fifos c t r h.
Proof. reflexivity. Qed.

(** Status register of a fault-free controller with at least one RX byte
    pending or not. *)
Lemma status_fifo_empty h :
  Mock.txq h = [] -> Mock.rxq h = [] -> Mock.flt h = Mock.NoFault ->
  0 < Mock.depth h ->
  Mock.status h = Z.lor QSPI_SR_TX_EMPTY QSPI_SR_RX_EMPTY.
Proof.
  intros Ht Hr Hf Hd. unfold Mock.status. rewrite Ht, Hr, Hf.
  cbn [List.length Z.of_nat].
  destruct (Z.leb_spec (Mock.depth h) 0); [lia | reflexivity].
Qed.

Lemma qspi_reset_fifo_idle h f :
  Mock.idle h -> qspi_reset_fifo (mset h f) = (0, mset h f).
Proof.
  intros [Hc Ht Hr Hf Hd]. unfold qspi_reset_fifo, qspi_fifo_is_reset.
  unfold qspi_get_status, qspi_reg_rd. cbn [qspi_regs set_regs ioread32 Mock.device Mock.read].
  rewrite (status_fifo_empty h Ht Hr Hf Hd). reflexivity.
Qed.

Lemma qspi_tx_loop_fill buf (n : nat) : forall i c q r h f,
  Z.of_nat (List.length q) + Z.of_nat n <= Mock.depth h ->
  qspi_tx_loop n i buf (mset (Mock.with_fifos c q r h) f)
  = mset
      (Mock.with_fifos c
         (q ++ map (fun k => u8 (buf_get buf (i + Z.of_nat k))) (seq 0 n)) r h)
      f.
Proof.
  induction n as [| n IH]; intros i c q r h f Hfit.
  - cbn [qspi_tx_loop seq map]. rewrite app_nil_r. reflexivity.
  - cbn [qspi_tx_loop]. unfold qspi_send8, qspi_reg_wr.
    cbn [qspi_regs set_regs iowrite32 Mock.device Mock.write Mock.with_fifos
         Mock.depth Mock.txq Mock.rxq Mock.ctrl].
    destruct (Z.leb_spec (Mock.depth h) (Z.of_nat (List.length q))) as [Hle | _];
      [lia |].
    rewrite u8_u32.
    rewrite set_regs_twice, with_fifos_twice.
    rewrite IH by (rewrite length_app; cbn [List.length]; lia).
    rewrite <- app_assoc. cbn [seq map app]. rewrite Z.add_0_r.
    do 3 f_equal. rewrite <- seq_shift, map_map. f_equal.
    apply map_ext. intros k. do 2 f_equal. lia.
Qed.

Lemma status_rx_pending h x r :
  Mock.rxq h = x :: r -> Mock.flt h = Mock.NoFault ->
  Z.land (u32 (Mock.status h)) QSPI_SR_RX_EMPTY = 0.
Proof.
  intros Hr Hf. unfold Mock.status. rewrite Hr, Hf.
  destruct (Mock.depth h <=? _), (Mock.depth h <=? _), (Mock.txq h);
    reflexivity.
Qed.

Lemma status_no_errs h :
  Mock.flt h = Mock.NoFault ->
  Z.land (u32 (Mock.status h)) QSPI_SR_ERRS = 0.
Proof.
  intros Hf. unfold Mock.status. rewrite Hf.
  destruct (Mock.depth h <=? _), (Mock.depth h <=? _), (Mock.txq h),
    (Mock.rxq h); reflexivity.
Qed.

Lemma status_rx_drained h :
  Mock.rxq h = [] -> Mock.flt h = Mock.NoFault ->
  Z.land (u32 (Mock.status h)) QSPI_SR_RX_EMPTY = 1.
Proof.
  intros Hr Hf. unfold Mock.status. rewrite Hr, Hf.
  destruct (Mock.depth h <=? _), (Mock.depth h <=? _), (Mock.txq h);
    reflexivity.
Qed.

Lemma status_tx_drained h :
  Mock.txq h = [] -> Mock.flt h = Mock.NoFault ->
  (Z.land (u32 (Mock.status h)) (Z.lor QSPI_SR_TX_EMPTY QSPI_SR_ERRS) =? 0)
  = false.
Proof.
  intros Ht Hf. unfold Mock.status. rewrite Ht, Hf.
  destruct (Mock.depth h <=? _), (Mock.depth h <=? _), (Mock.rxq h);
    reflexivity.
Qed.

Lemma qspi_rx_loop_drain (resp : list Z) : forall cnt ob c t rest h f,
  Mock.flt h = Mock.NoFault ->
  qspi_rx_loop (List.length resp) cnt ob
    (mset (Mock.with_fifos c t (resp ++ rest) h) f)
  = (0, rx_store ob cnt resp, mset (Mock.with_fifos c t rest h) f).
Proof.
  induction resp as [| x resp IH]; intros cnt ob c t rest h f Hf.
  - cbn [List.length qspi_rx_loop app]. destruct ob; reflexivity.
  - cbn [List.length qspi_rx_loop app].
    unfold qspi_get_status, qspi_reg_rd.
    cbn [qspi_regs set_regs ioread32 Mock.device Mock.read].
    rewrite (status_rx_pending _ x (resp ++ rest)) by (try reflexivity; exact Hf).
    cbn [Z.eqb negb]. unfold qspi_read8, qspi_reg_rd.
    cbn [qspi_regs set_regs ioread32 Mock.device Mock.read Mock.rxq
         Mock.with_fifos Mock.ctrl Mock.txq].
    rewrite u8_u32, !set_regs_twice, with_fifos_twice.
    rewrite IH by exact Hf. destruct ob; reflexivity.
Qed.

Lemma qspi_rx_drain ob len (resp : list Z) c t h f :
  Mock.flt h = Mock.NoFault ->
  Z.to_nat len = List.length resp ->
  qspi_rx ob len (mset (Mock.with_fifos c t resp h) f)
  = (0, rx_store ob 0 resp, mset (Mock.with_fifos c t [] h) f).
Proof.
  intros Hf Hlen. unfold qspi_rx. rewrite Hlen.
  rewrite <- (app_nil_r resp) at 2.
  rewrite qspi_rx_loop_drain by exact Hf.
  cbn [Z.eqb negb]. unfold qspi_has_err, qspi_get_status, qspi_reg_rd.
  cbn [qspi_regs set_regs ioread32 Mock.device Mock.read].
  rewrite status_rx_drained by (try reflexivity; exact Hf).
  rewrite status_no_errs by exact Hf.
  reflexivity.
Qed.

Lemma write_ctrl_inhibit h :
  Mock.write_ctrl Mock.IDLE_CTRL h
  = Mock.with_fifos Mock.IDLE_CTRL (Mock.txq h) (Mock.rxq h) h.
Proof.
  unfold Mock.write_ctrl.
  change (Z.testbit Mock.IDLE_CTRL 5) with false.
  change (Z.testbit Mock.IDLE_CTRL 6) with false.
  change (Z.testbit Mock.IDLE_CTRL 8) with true.
  cbv iota zeta. cbn [orb]. destruct (Mock.txq h); reflexivity.
Qed.

Lemma write_ctrl_start h x q :
  Mock.txq h = x :: q -> Mock.flt h = Mock.NoFault ->
  Mock.write_ctrl Mock.START_CTRL h
  = Mock.burst Mock.START_CTRL (Mock.with_fifos Mock.START_CTRL (x :: q) (Mock.rxq h) h).
Proof.
  intros Ht Hf. unfold Mock.write_ctrl.
  change (Z.testbit Mock.START_CTRL 5) with false.
  change (Z.testbit Mock.START_CTRL 6) with false.
  change (Z.testbit Mock.START_CTRL 8) with false.
  cbv iota zeta. rewrite Ht. unfold Mock.is_stalled.
  cbn [Mock.flt Mock.with_fifos orb]. rewrite Hf. reflexivity.
Qed.

Lemma tx_frame_cons buf len :
  0 < len -> exists x q, tx_frame buf len = x :: q.
Proof.
  intros H. unfold tx_frame.
  destruct (Z.to_nat len) as [| n] eqn:E; [lia |].
  cbn [seq map]. eauto.
Qed.

Lemma tx_frame_length buf len :
  0 <= len -> Z.of_nat (List.length (tx_frame buf len)) = len.
Proof.
  intros H. unfold tx_frame. rewrite length_map, length_seq. lia.
Qed.

Lemma selected_slave s h :
  s = 0 \/ s = 1 ->
  Mock.slave_sel h = u32 (Z.lnot (BIT s)) ->
  Mock.selected h = Some (negb (s =? 0)).
Proof.
  intros [-> | ->] Hs; unfold Mock.selected; rewrite Hs; reflexivity.
Qed.

Lemma qspi_tx_burst buf len s h f :
  Mock.idle h -> s = 0 \/ s = 1 ->
  Mock.slave_sel h = u32 (Z.lnot (BIT s)) ->
  0 < len <= Mock.depth h ->
  qspi_tx buf len (mset h f)
  = (0, mset
          (Mock.with_fifos Mock.IDLE_CTRL []
             (Mock.reply s h (tx_frame buf len))
             (Mock.with_slave_sel (Mock.slave_sel h)
                (Mock.after_frame s (tx_frame buf len) h))) f).
Proof.
  intros [Hc Ht Hr Hf Hd] Hs Hsel Hlen.
  unfold qspi_tx, qspi_get_ctrl, qspi_set_ctrl, qspi_reg_rd, qspi_reg_wr.
  cbn [qspi_regs set_regs ioread32 iowrite32 Mock.device Mock.read
       Mock.write].
  rewrite Hc.
  change (u32 (Z.lor (u32 Mock.IDLE_CTRL) QSPI_CR_TRANS_INHIBIT))
    with Mock.IDLE_CTRL.
  change (u32 (Z.land (u32 Mock.IDLE_CTRL) (Z.lnot QSPI_CR_TRANS_INHIBIT)))
    with Mock.START_CTRL.
  rewrite write_ctrl_inhibit, Ht, Hr, !set_regs_twice.
  rewrite (qspi_tx_loop_fill buf (Z.to_nat len) 0 Mock.IDLE_CTRL [] [] h f)
    by (cbn [List.length]; lia).
  cbn [app]. fold (tx_frame buf len).
  destruct (tx_frame_cons buf len (proj1 Hlen)) as (x & q & Hfr).
  rewrite (write_ctrl_start _ x q) by (try exact Hfr; exact Hf).
  rewrite set_regs_twice.
  erewrite QSPI_BUSY_WAIT_now.
  2:{ unfold qspi_tx_done, qspi_get_status, qspi_reg_rd.
      cbn [qspi_regs set_regs ioread32 Mock.device Mock.read].
      rewrite status_tx_drained by (try reflexivity; exact Hf).
      reflexivity. }
  cbv iota beta. rewrite write_ctrl_inhibit, !set_regs_twice.
  unfold qspi_has_err, qspi_get_status, qspi_reg_rd.
  cbn [qspi_regs set_regs ioread32 Mock.device Mock.read].
  rewrite status_no_errs by exact Hf.
  cbn [Z.eqb negb]. rewrite set_regs_twice. do 2 f_equal.
  unfold Mock.burst, Mock.with_fifos, Mock.after_frame, Mock.with_slave_sel,
    Mock.response, Mock.reply, Mock.the_chip.
  cbn [Mock.ctrl Mock.txq Mock.rxq Mock.slave_sel Mock.depth Mock.chip0
       Mock.chip1 Mock.flt Mock.id_vendor Mock.id_code Mock.frames].
  rewrite <- Hfr, Hf.
  pose proof (selected_slave s h Hs Hsel) as Hsd. unfold Mock.selected in Hsd.
  unfold Mock.selected. cbn [Mock.slave_sel]. rewrite Hsd.
  destruct Hs as [-> | ->]; reflexivity.
Qed.

Lemma reply_bytes s h frame : map u8 (Mock.reply s h frame) = Mock.reply s h frame.
Proof.
  unfold Mock.reply. rewrite map_map. apply map_ext. intros i. apply u8_u8.
Qed.

Lemma reply_length s h frame :
  List.length (Mock.reply s h frame) = List.length frame.
Proof. unfold Mock.reply. rewrite length_map, length_seq. reflexivity. Qed.

Lemma idle_with_slave_sel v h : Mock.idle h -> Mock.idle (Mock.with_slave_sel v h).
Proof. intros [Hc Ht Hr Hf Hd]. constructor; assumption. Qed.

Lemma idle_after_frame s frame h :
  Mock.idle h -> Mock.idle (Mock.after_frame s frame h).
Proof. intros [Hc Ht Hr Hf Hd]. constructor; try reflexivity. exact Hd. Qed.

Lemma qspi_activate_slave_mock s h f :
  s = 0 \/ s = 1 ->
  qspi_activate_slave s (mset h f)
  = mset (Mock.with_slave_sel (u32 (Z.lnot (BIT s))) h) f.
Proof. intros [-> | ->]; reflexivity. Qed.

(** One transaction on a working controller: the frame goes out to slave
    [s], the reply comes back into the buffer when output is wanted, and the
    controller is idle again with no slave selected. *)
Lemma qspi_transaction_mock buf len out s h f :
  Mock.idle h -> qspi_curr_slave f = s -> s = 0 \/ s = 1 ->
  0 < len <= Mock.depth h ->
  qspi_transaction buf len out (mset h f)
  = (0,
     (if out then buf_write buf 0 (Mock.reply s h (tx_frame buf len))
      else buf),
     mset (Mock.after_frame s (tx_frame buf len) h) f).
Proof.
  intros Hidle Hcur Hs Hlen. unfold qspi_transaction.
  rewrite qspi_reset_fifo_idle by exact Hidle.
  cbn [Z.eqb negb qspi_curr_slave set_regs]. rewrite Hcur.
  replace (s >=? MAX_NUM_OF_SLAVES) with false
    by (destruct Hs as [-> | ->]; reflexivity).
  rewrite qspi_activate_slave_mock by exact Hs.
  rewrite (qspi_tx_burst buf len s) by
    (try apply idle_with_slave_sel; try reflexivity; assumption).
  cbn [Z.eqb negb].
  assert (Hn : Z.to_nat len
               = List.length (Mock.reply s (Mock.with_slave_sel
                                 (u32 (Z.lnot (BIT s))) h) (tx_frame buf len))).
  { rewrite reply_length. unfold tx_frame.
    rewrite length_map, length_seq. reflexivity. }
  destruct out.
  - rewrite (qspi_rx_drain (Some buf) len _ _ _ _ f) by (try exact Hn; reflexivity).
    cbn [rx_store]. rewrite reply_bytes. reflexivity.
  - rewrite (qspi_rx_drain None len _ _ _ _ f) by (try exact Hn; reflexivity).
    reflexivity.
Qed.
End MockSim.

(** ** Buffers *)

Lemma length_list_set b : forall i v, List.length (list_set b i v) = List.length b.
Proof.
  induction b as [| x b IH]; intros [| i] v; cbn [list_set List.length];
    try reflexivity. rewrite IH. reflexivity.
Qed.

Lemma nth_list_set b : forall i j v,
  nth j (list_set b i v) 0
  = if (Nat.eqb j i) && (Nat.ltb i (List.length b)) then v else nth j b 0.
Proof.
  induction b as [| x b IH]; intros [| i] [| j] v;
    cbn [list_set nth List.length Nat.eqb andb]; try reflexivity.
  - destruct (Nat.eqb _ _); reflexivity.
  - rewrite IH. reflexivity.
Qed.

Lemma length_buf_set b i v : List.length (buf_set b i v) = List.length b.
Proof. unfold buf_set. destruct (i <? 0); [reflexivity | apply length_list_set]. Qed.

Lemma buf_get_buf_set b i j v :
  0 <= j ->
  buf_get (buf_set b i v) j
  = if (j =? i) && (i <? Z.of_nat (List.length b)) then v else buf_get b j.
Proof.
  intros Hj. unfold buf_get, buf_set.
  destruct (Z.ltb_spec j 0); [lia |].
  destruct (Z.ltb_spec i 0).
  - destruct (Z.eqb_spec j i); [lia | reflexivity].
  - rewrite nth_list_set.
    destruct (Z.eqb_spec j i) as [-> | NE].
    + rewrite Nat.eqb_refl. cbn [andb].
      destruct (Nat.ltb_spec (Z.to_nat i) (List.length b)),
        (Z.ltb_spec i (Z.of_nat (List.length b))); try reflexivity; lia.
    + destruct (Nat.eqb_spec (Z.to_nat j) (Z.to_nat i)); [lia | reflexivity].
Qed.

Lemma length_buf_write data : forall b pos,
  List.length (buf_write b pos data) = List.length b.
Proof.
  induction data as [| d data IH]; intros b pos; cbn [buf_write];
    [reflexivity |]. rewrite IH. apply length_buf_set.
Qed.

Lemma buf_get_buf_write data : forall b pos j,
  0 <= pos -> 0 <= j ->
  pos + Z.of_nat (List.length data) <= Z.of_nat (List.length b) ->
  buf_get (buf_write b pos data) j
  = if (pos <=? j) && (j <? pos + Z.of_nat (List.length data))
    then buf_get data (j - pos) else buf_get b j.
Proof.
  induction data as [| d data IH]; intros b pos j Hp Hj Hfit.
  - cbn [buf_write List.length Z.of_nat].
    destruct (Z.leb_spec pos j), (Z.ltb_spec j (pos + 0)); try reflexivity; lia.
  - cbn [buf_write]. cbn [List.length] in Hfit |- *.
    rewrite IH; [| lia | lia | rewrite length_buf_set; lia].
    rewrite buf_get_buf_set by lia.
    destruct (Z.leb_spec (pos + 1) j), (Z.ltb_spec j (pos + 1 + Z.of_nat (List.length data)));
      destruct (Z.leb_spec pos j), (Z.ltb_spec j (pos + Z.of_nat (S (List.length data))));
      cbn [andb]; try lia.
    + unfold buf_get. destruct (Z.ltb_spec (j - (pos + 1)) 0), (Z.ltb_spec (j - pos) 0); try lia.
      replace (Z.to_nat (j - pos)) with (S (Z.to_nat (j - (pos + 1)))) by lia.
      reflexivity.
    + destruct (Z.eqb_spec j pos); [lia | reflexivity].
    + destruct (Z.eqb_spec j pos) as [-> | NE]; [| lia].
      destruct (Z.ltb_spec pos (Z.of_nat (List.length b))); [| lia].
      rewrite Z.sub_diag. reflexivity.
    + destruct (Z.eqb_spec j pos); [lia | reflexivity].
Qed.

Lemma length_buf_slice src from n :
  List.length (buf_slice src from n) = Z.to_nat n.
Proof. unfold buf_slice. rewrite length_map, length_seq. reflexivity. Qed.

Lemma buf_get_map_seq (g : nat -> Z) n i :
  0 <= i < Z.of_nat n ->
  buf_get (map g (seq 0 n)) i = g (Z.to_nat i).
Proof.
  intros Hi. unfold buf_get. destruct (Z.ltb_spec i 0); [lia |].
  rewrite (nth_indep _ 0 (g 0%nat)) by (rewrite length_map, length_seq; lia).
  rewrite (map_nth g (seq 0 n) 0%nat), seq_nth by lia. reflexivity.
Qed.

Lemma buf_get_buf_slice src from n i :
  0 <= i < n -> buf_get (buf_slice src from n) i = buf_get src (from + i).
Proof.
  intros Hi. unfold buf_slice. rewrite buf_get_map_seq by lia.
  f_equal. lia.
Qed.

Lemma length_memcpy dst pos src from n :
  List.length (memcpy dst pos src from n) = List.length dst.
Proof. apply length_buf_write. Qed.

Lemma buf_get_memcpy dst pos src from n j :
  0 <= pos -> 0 <= j -> 0 <= n ->
  pos + n <= Z.of_nat (List.length dst) ->
  buf_get (memcpy dst pos src from n) j
  = if (pos <=? j) && (j <? pos + n) then buf_get src (from + (j - pos))
    else buf_get dst j.
Proof.
  intros Hp Hj Hn Hfit. unfold memcpy.
  rewrite buf_get_buf_write by (rewrite ?length_buf_slice; lia).
  rewrite length_buf_slice, Z2Nat.id by lia.
  destruct (Z.leb_spec pos j), (Z.ltb_spec j (pos + n)); cbn [andb];
    try reflexivity.
  apply buf_get_buf_slice. lia.
Qed.

Lemma buf_get_tx_frame buf len i :
  0 <= i < len -> buf_get (tx_frame buf len) i = u8 (buf_get buf i).
Proof.
  intros Hi. unfold tx_frame. rewrite buf_get_map_seq by lia.
  rewrite Z2Nat.id by lia. reflexivity.
Qed.

Lemma buf_get_skipn l k i :
  0 <= i -> buf_get (skipn k l) i = buf_get l (Z.of_nat k + i).
Proof.
  intros Hi. unfold buf_get.
  destruct (Z.ltb_spec i 0), (Z.ltb_spec (Z.of_nat k + i) 0); try lia.
  rewrite nth_skipn. f_equal. lia.
Qed.

(** ** Commands on the mock controller *)

Section MockCmd.

Local Abbreviation flashT := (@xrt_qspi Mock.device).
Local Abbreviation mset := (@set_regs Mock.device).
Implicit Types (f flash : flashT) (h : Mock.hw).

Lemma qspi_transaction_healthy buf len out s f :
  healthy s f -> 0 < len <= qspi_fifo_depth f ->
  qspi_transaction buf len out f
  = (0,
     (if out
      then buf_write buf 0 (Mock.reply s (qspi_regs f) (tx_frame buf len))
      else buf),
     mset (Mock.after_frame s (tx_frame buf len) (qspi_regs f)) f).
Proof.
  intros [Hi Hs Hso Hd Hb Hf] Hlen.
  rewrite <- (set_regs_eta f) at 1.
  apply qspi_transaction_mock; try assumption. lia.
Qed.

Lemma healthy_after_frame s frame f :
  healthy s f -> healthy s (mset (Mock.after_frame s frame (qspi_regs f)) f).
Proof.
  intros [Hi Hs Hso Hd Hb Hf]. constructor; try assumption.
  apply idle_after_frame, Hi.
Qed.

Lemma the_chip_after_frame s frame h :
  s = 0 \/ s = 1 ->
  Mock.the_chip s (Mock.after_frame s frame h)
  = Mock.chip_exec (Mock.the_chip s h) frame /\
  Mock.the_chip (1 - s) (Mock.after_frame s frame h) = Mock.the_chip (1 - s) h.
Proof. intros [-> | ->]; split; reflexivity. Qed.

Lemma qspi_is_ready_healthy s f :
  healthy s f ->
  qspi_is_ready f
  = (true, mset (Mock.after_frame s [QSPI_CMD_STATUSREG_READ; 0] (qspi_regs f)) f).
Proof.
  intros H. unfold qspi_is_ready.
  rewrite (qspi_transaction_healthy _ _ _ s) by (try exact H; destruct H; lia).
  cbn [Z.eqb negb orb].
  change (tx_frame [QSPI_CMD_STATUSREG_READ; 0] 2)
    with [QSPI_CMD_STATUSREG_READ; 0].
  unfold Mock.reply. cbn [List.length seq map buf_write Z.of_nat].
  unfold Mock.chip_resp. cbn [buf_get Z.ltb Z.compare nth Z.to_nat Z.eqb].
  destruct (Mock.wel _); reflexivity.
Qed.

Lemma qspi_wait_until_ready_healthy s f :
  healthy s f ->
  qspi_wait_until_ready f
  = (true, mset (Mock.after_frame s [QSPI_CMD_STATUSREG_READ; 0] (qspi_regs f)) f).
Proof.
  intros H. unfold qspi_wait_until_ready.
  rewrite (QSPI_BUSY_WAIT_now _ _ _ (qspi_is_ready_healthy s f H)).
  reflexivity.
Qed.

Lemma qspi_enable_write_healthy s f :
  healthy s f ->
  qspi_enable_write f
  = (0, mset (Mock.after_frame s [QSPI_CMD_WRITE_ENABLE] (qspi_regs f)) f).
Proof.
  intros H. unfold qspi_enable_write.
  rewrite (qspi_transaction_healthy _ _ _ s) by (try exact H; destruct H; lia).
  reflexivity.
Qed.

Lemma qspi_set_sector_healthy s sect f :
  healthy s f -> is_byte sect -> sector_known s sect f ->
  exists f',
    qspi_set_sector sect f = (0, f') /\
    post s f f' (Mock.mem (Mock.the_chip s (qspi_regs f))) /\
    io_buf f' = io_buf f /\
    qspi_curr_sector f' = sect.
Proof.
  intros H Hb Hk. pose proof (h_slave_ok _ _ H) as Hs.
  unfold qspi_set_sector.
  destruct (Z.eqb_spec sect (qspi_curr_sector f)) as [E | NE].
  - exists f. destruct Hk as [Hk | Hk]; [| congruence].
    split; [reflexivity |]. split; [| split; [reflexivity | auto]].
    constructor; try reflexivity; assumption.
  - rewrite (qspi_enable_write_healthy s f H). cbn [Z.eqb negb].
    rewrite (qspi_transaction_healthy _ _ _ s)
      by (try apply healthy_after_frame; try exact H; destruct H;
          cbn [qspi_fifo_depth set_regs]; lia).
    cbn [Z.eqb negb]. eexists. split; [reflexivity |].
    change (tx_frame [QSPI_CMD_EXTENDED_ADDRESS_REG_WRITE; sect] 2)
      with [QSPI_CMD_EXTENDED_ADDRESS_REG_WRITE; u8 sect].
    rewrite (u8_small sect) by exact Hb.
    destruct H as [Hi Hsl Hso Hd Hio Hf].
    split; [| split; reflexivity].
    constructor; try reflexivity.
    + constructor; try assumption.
      cbn [qspi_regs set_regs set_curr_sector].
      apply idle_after_frame, idle_after_frame, Hi.
    + cbn [qspi_regs set_regs set_curr_sector qspi_curr_sector].
      destruct Hs as [-> | ->]; reflexivity.
    + cbn [qspi_regs set_regs set_curr_sector].
      destruct Hs as [-> | ->]; reflexivity.
    + intros a. cbn [qspi_regs set_regs set_curr_sector].
      destruct Hs as [-> | ->]; reflexivity.
Qed.

End MockCmd.

(** ** Page I/O on the mock controller *)

Section MockPageIO.

Local Abbreviation flashT := (@xrt_qspi Mock.device).
Local Abbreviation mset := (@set_regs Mock.device).
Implicit Types (f flash : flashT) (h : Mock.hw).

Lemma chip_addr_faddr off :
  let fa := qspi_offset2faddr off in
  sector fa * 2 ^ 24 + addr_hi fa * 2 ^ 16 + addr_mid fa * 2 ^ 8 + addr_lo fa
  = chip_addr off.
Proof.
  cbn [qspi_offset2faddr sector addr_hi addr_mid addr_lo]. unfold chip_addr, u8.
  rewrite !Z.shiftr_div_pow2 by lia. Z.div_mod_to_equations. lia.
Qed.

Lemma buf_get_reply s h frame i :
  0 <= i < Z.of_nat (List.length frame) ->
  buf_get (Mock.reply s h frame) i
  = u8 (Mock.chip_resp (Mock.id_vendor h) (Mock.id_code h)
          (Mock.the_chip s h) frame i).
Proof.
  intros Hi. unfold Mock.reply. rewrite buf_get_map_seq by lia.
  rewrite Z2Nat.id by lia. reflexivity.
Qed.

Lemma post_frame s f f1 m frame m' :
  post s f f1 m ->
  Mock.ext_addr (Mock.chip_exec (Mock.the_chip s (qspi_regs f1)) frame)
  = Mock.ext_addr (Mock.the_chip s (qspi_regs f1)) ->
  (forall a,
     Mock.mem (Mock.chip_exec (Mock.the_chip s (qspi_regs f1)) frame) a
     = m' a) ->
  post s f (mset (Mock.after_frame s frame (qspi_regs f1)) f1) m'.
Proof.
  intros [[Hi Hsl Hso Hd Hio Hf] Hdep Hv Hsz Hk Ho Hm] He Hm'.
  destruct (the_chip_after_frame s frame (qspi_regs f1) Hso) as [Hc Hc'].
  constructor; cbn [qspi_regs set_regs qspi_fifo_depth vendor
                    flash_size qspi_curr_sector]; try assumption.
  - constructor; cbn [qspi_regs set_regs qspi_fifo_depth io_buf
                      qspi_curr_slave]; try assumption.
    apply idle_after_frame, Hi.
  - rewrite Hc, He. exact Hk.
  - rewrite Hc'. exact Ho.
  - intros a. rewrite Hc. apply Hm'.
Qed.

Lemma post_set_io_buf s f f1 m b :
  post s f f1 m ->
  Z.of_nat (List.length b) = qspi_fifo_depth f1 ->
  post s f (set_io_buf b f1) m.
Proof.
  intros [[Hi Hsl Hso Hd Hio Hf] Hdep Hv Hsz Hk Ho Hm] Hb.
  constructor; try assumption. constructor; assumption.
Qed.

Lemma post_start s f m :
  healthy s f ->
  qspi_curr_sector f = Mock.ext_addr (Mock.the_chip s (qspi_regs f)) ->
  (forall a, Mock.mem (Mock.the_chip s (qspi_regs f)) a = m a) ->
  post s f f m.
Proof. intros H Hk Hm. constructor; try reflexivity; assumption. Qed.

Lemma post_trans s f f1 f2 m1 m2 :
  post s f f1 m1 -> post s f1 f2 m2 -> post s f f2 m2.
Proof.
  intros [H1 Hd1 Hv1 Hs1 Hk1 Ho1 Hm1] [H2 Hd2 Hv2 Hs2 Hk2 Ho2 Hm2].
  constructor; try assumption; congruence.
Qed.

Lemma qspi_setup_io_cmd_header_healthy s op faddr f :
  healthy s f -> faddr_wf faddr -> sector_known s (sector faddr) f ->
  exists f',
    qspi_setup_io_cmd_header op faddr f = (0, 4, f') /\
    post s f f' (Mock.mem (Mock.the_chip s (qspi_regs f))) /\
    qspi_curr_sector f' = sector faddr /\
    buf_get (io_buf f') 0 = op /\
    buf_get (io_buf f') 1 = addr_hi faddr /\
    buf_get (io_buf f') 2 = addr_mid faddr /\
    buf_get (io_buf f') 3 = addr_lo faddr.
Proof.
  intros H (_ & Hsec & _) Hk. unfold qspi_setup_io_cmd_header.
  destruct (qspi_set_sector_healthy s (sector faddr) f H Hsec Hk)
    as (f1 & E & Hp & Hio & Hcs).
  rewrite E. cbn [Z.eqb]. eexists. split; [reflexivity |].
  pose proof (h_io_buf _ _ (p_healthy _ _ _ _ Hp)) as Hlen.
  pose proof (h_fifo _ _ (p_healthy _ _ _ _ Hp)) as Hfifo.
  split; [| split; [exact Hcs |]].
  - destruct Hp as [[Hi Hsl Hso Hd Hio' Hf] Hdep Hv Hsz Hk' Ho Hm].
    constructor; try assumption.
    constructor; cbn [qspi_regs set_io_buf io_buf qspi_fifo_depth
                      qspi_curr_slave]; try assumption.
    rewrite !length_buf_set. exact Hio'.
  - cbn [io_buf set_io_buf].
    rewrite !buf_get_buf_set by lia. rewrite !length_buf_set.
    cbn [Z.eqb andb].
    destruct (Z.ltb_spec 0 (Z.of_nat (List.length (io_buf f1)))); [| lia].
    destruct (Z.ltb_spec 1 (Z.of_nat (List.length (io_buf f1)))); [| lia].
    destruct (Z.ltb_spec 2 (Z.of_nat (List.length (io_buf f1)))); [| lia].
    destruct (Z.ltb_spec 3 (Z.of_nat (List.length (io_buf f1)))); [| lia].
    repeat split; reflexivity.
Qed.

Lemma post_ext s f f' m m' :
  post s f f' m -> (forall a, m a = m' a) -> post s f f' m'.
Proof.
  intros [H Hd Hv Hs Hk Ho Hm] He. constructor; try assumption.
  intros a. rewrite Hm. apply He.
Qed.

Lemma frame_addr_header c b total off :
  4 <= total ->
  Mock.ext_addr c = sector (qspi_offset2faddr off) ->
  buf_get b 1 = addr_hi (qspi_offset2faddr off) ->
  buf_get b 2 = addr_mid (qspi_offset2faddr off) ->
  buf_get b 3 = addr_lo (qspi_offset2faddr off) ->
  Mock.frame_addr c (tx_frame b total) = chip_addr off.
Proof.
  intros Ht He H1 H2 H3. unfold Mock.frame_addr.
  rewrite !buf_get_tx_frame by lia. rewrite He, H1, H2, H3.
  destruct (qspi_offset2faddr_wf off) as (_ & _ & Hl & Hm & Hh).
  rewrite !u8_small by assumption. apply chip_addr_faddr.
Qed.

Lemma chip_exec_read c frame :
  buf_get frame 0 = QSPI_CMD_QUAD_READ -> Mock.chip_exec c frame = c.
Proof. intros H. unfold Mock.chip_exec. rewrite H. reflexivity. Qed.

Lemma qspi_fifo_rd_healthy s off buf pos cnt f m :
  healthy s f -> sector_known s (sector (qspi_offset2faddr off)) f ->
  (forall a, Mock.mem (Mock.the_chip s (qspi_regs f)) a = m a) ->
  0 < cnt -> 0 <= pos -> pos + cnt <= Z.of_nat (List.length buf) ->
  exists f' buf',
    qspi_fifo_rd off buf pos cnt f
    = (0, buf', Z.min cnt (qspi_fifo_depth f - 8), f') /\
    post s f f' m /\
    List.length buf' = List.length buf /\
    forall j, 0 <= j ->
      buf_get buf' j
      = if (pos <=? j) && (j <? pos + Z.min cnt (qspi_fifo_depth f - 8))
        then u8 (m (chip_addr off + (j - pos))) else buf_get buf j.
Proof.
  intros H Hk Hm Hcnt Hpos Hfit. unfold qspi_fifo_rd.
  destruct (qspi_setup_io_cmd_header_healthy s QSPI_CMD_QUAD_READ
              (qspi_offset2faddr off) f H (qspi_offset2faddr_wf off) Hk)
    as (f1 & E & Hp & Hcs & Hb0 & Hb1 & Hb2 & Hb3).
  apply (fun p => post_ext _ _ _ _ m p Hm) in Hp.
  rewrite E. cbn [Z.eqb negb].
  pose proof (p_healthy _ _ _ _ Hp) as H1.
  pose proof (h_fifo _ _ H) as Hfifo.
  pose proof (h_io_buf _ _ H1) as Hio1.
  rewrite (p_depth _ _ _ _ Hp). rewrite (p_depth _ _ _ _ Hp) in Hio1.
  set (D := qspi_fifo_depth f) in *.
  unfold qspi_fifo_rd_len, read_dummy_len.
  rewrite (u64_small (D - 4 - 4)) by lia.
  replace (D - 4 - 4) with (D - 8) by lia.
  set (payload := Z.min cnt (D - 8)).
  assert (Hpl : 0 < payload <= D - 8) by (unfold payload; lia).
  rewrite (u64_small (payload + 4 + 4)) by lia.
  replace (payload + 4 + 4) with (payload + 8) by lia.
  unfold qspi_exec_io_cmd.
  rewrite (qspi_transaction_healthy _ _ _ s)
    by (try exact H1; rewrite (p_depth _ _ _ _ Hp); fold D; lia).
  cbn [Z.eqb negb io_buf set_io_buf].
  set (frame := tx_frame (io_buf f1) (payload + 8)).
  assert (Hop : buf_get frame 0 = QSPI_CMD_QUAD_READ).
  { unfold frame. rewrite buf_get_tx_frame by lia. rewrite Hb0. reflexivity. }
  assert (Hfl : Z.of_nat (List.length frame) = payload + 8).
  { unfold frame. apply tx_frame_length. lia. }
  eexists. eexists. split; [reflexivity |]. split; [| split].
  - apply post_set_io_buf;
      [| cbn [qspi_fifo_depth set_regs];
         rewrite length_buf_write, (p_depth _ _ _ _ Hp); exact Hio1].
    apply post_frame with (m := m); try exact Hp.
    + rewrite chip_exec_read by exact Hop. reflexivity.
    + intros a. rewrite chip_exec_read by exact Hop. apply (p_mem _ _ _ _ Hp).
  - apply length_memcpy.
  - intros j Hj. rewrite buf_get_memcpy by lia.
    destruct ((pos <=? j) && (j <? pos + payload)) eqn:Ein; [| reflexivity].
    apply andb_true_iff in Ein. destruct Ein as [E1 E2].
    apply Z.leb_le in E1. apply Z.ltb_lt in E2.
    rewrite buf_get_buf_write by (rewrite ?reply_length; lia).
    rewrite reply_length, Hfl.
    destruct (Z.leb_spec 0 (4 + 4 + (j - pos))); [| lia].
    destruct (Z.ltb_spec (4 + 4 + (j - pos)) (0 + (payload + 8))); [| lia].
    cbn [andb]. rewrite Z.sub_0_r, buf_get_reply by lia.
    unfold Mock.chip_resp. rewrite Hop.
    change (QSPI_CMD_QUAD_READ =? QSPI_CMD_STATUSREG_READ) with false.
    change (QSPI_CMD_QUAD_READ =? QSPI_CMD_IDCODE_READ) with false.
    change (QSPI_CMD_QUAD_READ =? QSPI_CMD_QUAD_READ) with true.
    cbv iota. destruct (Z.ltb_spec (4 + 4 + (j - pos)) 8); [lia |].
    unfold frame.
    rewrite (frame_addr_header _ _ _ off); try assumption; try lia.
    + rewrite (p_mem _ _ _ _ Hp). do 2 f_equal. lia.
    + rewrite <- (p_known _ _ _ _ Hp). exact Hcs.
Qed.

Lemma chip_addr_add off n :
  0 <= n -> chip_addr off + n < 2 ^ 32 -> chip_addr (off + n) = chip_addr off + n.
Proof.
  unfold chip_addr. intros Hn Hlt.
  pose proof (Z.mod_pos_bound off (2 ^ 32) ltac:(lia)).
  Z.div_mod_to_equations. lia.
Qed.

Lemma qspi_buf_rdwr_read_loop s pos off len m (fuel : nat) :
  0 <= off -> off + len < 2 ^ 63 -> 0 <= pos ->
  chip_addr off + len <= 2 ^ 32 ->
  forall n buf f,
    healthy s f ->
    qspi_curr_sector f = Mock.ext_addr (Mock.the_chip s (qspi_regs f)) ->
    (forall a, Mock.mem (Mock.the_chip s (qspi_regs f)) a = m a) ->
    0 <= n <= len -> len - n <= Z.of_nat fuel ->
    pos + len <= Z.of_nat (List.length buf) ->
    exists f' buf',
      qspi_buf_rdwr_loop fuel buf pos off len false n f = Some (0, buf', f') /\
      post s f f' m /\
      List.length buf' = List.length buf /\
      forall j, 0 <= j ->
        buf_get buf' j
        = if (pos + n <=? j) && (j <? pos + len)
          then u8 (m (chip_addr off + (j - pos))) else buf_get buf j.
Proof.
  intros Hoff Hend Hpos Hlim.
  induction fuel as [| fuel IH]; intros n buf f H Hk Hm Hn Hfuel Hfit.
  - assert (n = len) by lia. subst n. cbn [qspi_buf_rdwr_loop].
    rewrite Z.ltb_irrefl. exists f, buf. split; [reflexivity |].
    split; [apply post_start; assumption |]. split; [reflexivity |].
    intros j Hj.
    destruct (Z.leb_spec (pos + len) j), (Z.ltb_spec j (pos + len));
      try reflexivity; lia.
  - cbn [qspi_buf_rdwr_loop]. destruct (Z.ltb_spec n len) as [Hlt | Hge].
    2:{ assert (n = len) by lia. subst n. exists f, buf.
        split; [reflexivity |].
        split; [apply post_start; assumption |]. split; [reflexivity |].
        intros j Hj.
        destruct (Z.leb_spec (pos + len) j), (Z.ltb_spec j (pos + len));
          try reflexivity; lia. }
    rewrite (u64_small (len - n)), (s64_small (off + n)) by lia.
    destruct (qspi_fifo_rd_healthy s (off + n) buf (pos + n) (len - n) f m H
                (or_introl Hk) Hm ltac:(lia) ltac:(lia) ltac:(lia))
      as (f1 & buf1 & E & Hp1 & Hl1 & Hb1).
    rewrite E. cbn [Z.eqb].
    pose proof (h_fifo _ _ H) as Hfifo.
    set (payload := Z.min (len - n) (qspi_fifo_depth f - 8)) in *.
    assert (Hpl : 0 < payload <= len - n) by (unfold payload; lia).
    rewrite (u64_small (n + payload)) by lia.
    destruct (IH (n + payload) buf1 f1 (p_healthy _ _ _ _ Hp1)
                (p_known _ _ _ _ Hp1) (p_mem _ _ _ _ Hp1) ltac:(lia)
                ltac:(lia) ltac:(lia))
      as (f2 & buf2 & E2 & Hp2 & Hl2 & Hb2).
    rewrite E2. exists f2, buf2. split; [reflexivity |].
    split; [eapply post_trans; eassumption |].
    split; [congruence |].
    intros j Hj. rewrite Hb2, Hb1 by assumption.
    rewrite chip_addr_add by lia.
    destruct (Z.leb_spec (pos + (n + payload)) j), (Z.ltb_spec j (pos + len)),
      (Z.leb_spec (pos + n) j), (Z.ltb_spec j (pos + n + payload));
      cbn [andb]; try reflexivity; try lia.
    do 2 f_equal. lia.
Qed.

(** Reading [len] bytes at [off] into &buf[pos]. *)
Lemma qspi_buf_rdwr_read_healthy s buf pos off len f m :
  healthy s f -> sector_known s (sector (qspi_offset2faddr off)) f ->
  (forall a, Mock.mem (Mock.the_chip s (qspi_regs f)) a = m a) ->
  0 <= off -> off + len < 2 ^ 63 -> 0 < len -> 0 <= pos ->
  chip_addr off + len <= 2 ^ 32 ->
  pos + len <= Z.of_nat (List.length buf) ->
  exists f' buf',
    qspi_buf_rdwr buf pos off len false f = Some (0, buf', f') /\
    post s f f' m /\
    List.length buf' = List.length buf /\
    forall j, 0 <= j ->
      buf_get buf' j
      = if (pos <=? j) && (j <? pos + len)
        then u8 (m (chip_addr off + (j - pos))) else buf_get buf j.
Proof.
  intros H Hk Hm Hoff Hend Hlen Hpos Hlim Hfit. unfold qspi_buf_rdwr.
  destruct (Z.to_nat len) as [| fuel] eqn:Efuel; [lia |].
  cbn [qspi_buf_rdwr_loop]. destruct (Z.ltb_spec 0 len); [| lia].
  rewrite Z.sub_0_r, Z.add_0_r, (u64_small len), (s64_small off) by lia.
  destruct (qspi_fifo_rd_healthy s off buf (pos + 0) len f m H Hk Hm
              ltac:(lia) ltac:(lia) ltac:(lia))
    as (f1 & buf1 & E & Hp1 & Hl1 & Hb1).
  rewrite E. cbn [Z.eqb Z.add].
  pose proof (h_fifo _ _ H) as Hfifo.
  set (payload := Z.min len (qspi_fifo_depth f - 8)) in *.
  assert (Hpl : 0 < payload <= len) by (unfold payload; lia).
  rewrite (u64_small payload) by lia.
  destruct (qspi_buf_rdwr_read_loop s pos off len m fuel Hoff Hend Hpos Hlim
              payload buf1 f1 (p_healthy _ _ _ _ Hp1) (p_known _ _ _ _ Hp1)
              (p_mem _ _ _ _ Hp1) ltac:(lia) ltac:(lia) ltac:(lia))
    as (f2 & buf2 & E2 & Hp2 & Hl2 & Hb2).
  rewrite E2. exists f2, buf2. split; [reflexivity |].
  split; [eapply post_trans; eassumption |].
  split; [congruence |].
  intros j Hj. rewrite Hb2, Hb1 by assumption.
  destruct (Z.leb_spec (pos + payload) j), (Z.ltb_spec j (pos + len)),
    (Z.leb_spec (pos + 0) j), (Z.ltb_spec j (pos + 0 + payload)),
    (Z.leb_spec pos j);
    cbn [andb]; try reflexivity; try lia.
  do 2 f_equal. lia.
Qed.

Lemma chip_exec_program c frame :
  is_write_cmd (buf_get frame 0) -> Mock.wel c = true ->
  Mock.chip_exec c frame
  = Mock.with_mem
      (Mock.program (Mock.mem c) (Mock.frame_addr c frame) (skipn 4 frame)) c.
Proof.
  intros Hop Hw. unfold Mock.chip_exec. rewrite Hw.
  destruct Hop as [-> | ->]; reflexivity.
Qed.

Lemma qspi_fifo_wr_healthy s off buf pos cnt f m :
  healthy s f -> sector_known s (sector (qspi_offset2faddr off)) f ->
  (forall a, Mock.mem (Mock.the_chip s (qspi_regs f)) a = m a) ->
  is_write_cmd (write_cmd (vendor f)) ->
  0 < cnt -> 0 <= pos ->
  exists f',
    qspi_fifo_wr off buf pos cnt f
    = (0, Z.min (Z.min cnt (qspi_fifo_depth f - 4)) 128, f') /\
    post s f f'
      (programmed m (chip_addr off) buf pos
         (Z.min (Z.min cnt (qspi_fifo_depth f - 4)) 128)).
Proof.
  intros H Hk Hm Hv Hcnt Hpos. unfold qspi_fifo_wr.
  destruct (qspi_setup_io_cmd_header_healthy s (write_cmd (vendor f))
              (qspi_offset2faddr off) f H (qspi_offset2faddr_wf off) Hk)
    as (f1 & E & Hp & Hcs & Hb0 & Hb1 & Hb2 & Hb3).
  apply (fun p => post_ext _ _ _ _ m p Hm) in Hp.
  rewrite E. cbn [Z.eqb negb].
  pose proof (p_healthy _ _ _ _ Hp) as H1.
  pose proof (h_fifo _ _ H) as Hfifo.
  pose proof (h_io_buf _ _ H1) as Hio1.
  pose proof (p_depth _ _ _ _ Hp) as Hd1.
  rewrite Hd1. rewrite Hd1 in Hio1.
  set (D := qspi_fifo_depth f) in *.
  unfold qspi_fifo_wr_len, write_max_len.
  rewrite (u64_small (D - 4)) by lia.
  set (payload := Z.min (Z.min cnt (D - 4)) 128).
  assert (Hpl : 0 < payload <= D - 4) by (unfold payload; lia).
  rewrite (u64_small (payload + 4)) by lia.
  set (b1 := memcpy (io_buf f1) 4 buf pos payload).
  assert (Hlb1 : Z.of_nat (List.length b1) = D)
    by (unfold b1; rewrite length_memcpy; exact Hio1).
  pose proof (post_set_io_buf _ _ _ _ b1 Hp ltac:(rewrite Hd1; exact Hlb1))
    as Hp1.
  set (f1' := set_io_buf b1 f1) in *.
  rewrite (qspi_enable_write_healthy s f1' (p_healthy _ _ _ _ Hp1)).
  cbn [Z.eqb negb].
  assert (Hp2 : post s f
                  (mset (Mock.after_frame s [QSPI_CMD_WRITE_ENABLE]
                           (qspi_regs f1')) f1') m).
  { apply post_frame with (m := m); try exact Hp1; try reflexivity.
    intros a. apply (p_mem _ _ _ _ Hp1). }
  set (f2 := mset (Mock.after_frame s [QSPI_CMD_WRITE_ENABLE] (qspi_regs f1'))
               f1') in *.
  unfold qspi_exec_io_cmd.
  rewrite (qspi_transaction_healthy _ _ _ s)
    by (try exact (p_healthy _ _ _ _ Hp2);
        change (qspi_fifo_depth f2) with (qspi_fifo_depth f1); rewrite Hd1;
        fold D; lia).
  cbn [Z.eqb negb].
  change (io_buf f2) with b1.
  set (frame := tx_frame b1 (payload + 4)).
  assert (Hfl : Z.of_nat (List.length frame) = payload + 4)
    by (unfold frame; apply tx_frame_length; lia).
  assert (Hop : buf_get frame 0 = write_cmd (vendor f)).
  { unfold frame, b1. rewrite buf_get_tx_frame by lia.
    rewrite buf_get_memcpy by lia. cbn [Z.leb Z.compare andb].
    rewrite Hb0. destruct Hv as [-> | ->]; reflexivity. }
  assert (Hwel : Mock.wel (Mock.the_chip s (qspi_regs f2)) = true).
  { unfold f2. cbn [qspi_regs set_regs].
    destruct (the_chip_after_frame s [QSPI_CMD_WRITE_ENABLE] (qspi_regs f1')
                (h_slave_ok _ _ H)) as [-> _].
    reflexivity. }
  assert (Hex := chip_exec_program (Mock.the_chip s (qspi_regs f2)) frame
                   ltac:(rewrite Hop; exact Hv) Hwel).
  assert (Hp3 : post s f
                  (set_io_buf b1
                     (mset (Mock.after_frame s frame (qspi_regs f2)) f2))
                  (programmed m (chip_addr off) buf pos payload)).
  { apply post_set_io_buf;
      [| cbn [qspi_fifo_depth set_regs];
         change (qspi_fifo_depth f2) with (qspi_fifo_depth f1);
         rewrite Hd1; exact Hlb1].
    apply post_frame with (m := m); try exact Hp2.
    - rewrite Hex. reflexivity.
    - intros a. rewrite Hex. cbn [Mock.mem Mock.with_mem].
      unfold Mock.program, programmed.
      assert (HA : Mock.frame_addr (Mock.the_chip s (qspi_regs f2)) frame
                   = chip_addr off).
      { unfold frame. apply frame_addr_header; try lia.
        - rewrite <- (p_known _ _ _ _ Hp2). exact Hcs.
        - unfold b1. rewrite buf_get_memcpy by lia. exact Hb1.
        - unfold b1. rewrite buf_get_memcpy by lia. exact Hb2.
        - unfold b1. rewrite buf_get_memcpy by lia. exact Hb3. }
      rewrite HA, length_skipn.
      replace (Z.of_nat (List.length frame - 4)) with payload by lia.
      rewrite (p_mem _ _ _ _ Hp2).
      destruct ((chip_addr off <=? a) && (a <? chip_addr off + payload))
        eqn:Ein; [| reflexivity].
      apply andb_true_iff in Ein. destruct Ein as [E1 E2].
      apply Z.leb_le in E1. apply Z.ltb_lt in E2.
      rewrite buf_get_skipn by lia. unfold frame.
      rewrite buf_get_tx_frame by lia. unfold b1.
      rewrite buf_get_memcpy by lia.
      destruct (Z.leb_spec 4 (Z.of_nat 4 + (a - chip_addr off))); [| lia].
      destruct (Z.ltb_spec (Z.of_nat 4 + (a - chip_addr off)) (4 + payload));
        [| lia].
      cbn [andb]. do 4 f_equal. lia. }
  set (f3 := set_io_buf b1 (mset (Mock.after_frame s frame (qspi_regs f2)) f2))
    in *.
  rewrite (qspi_wait_until_ready_healthy s f3 (p_healthy _ _ _ _ Hp3)).
  cbn [negb]. eexists. split; [reflexivity |].
  apply post_frame with (m := programmed m (chip_addr off) buf pos payload);
    try exact Hp3; try reflexivity.
  intros a. apply (p_mem _ _ _ _ Hp3).
Qed.

Lemma programmed_app m A buf pos n k a :
  0 <= n -> 0 <= k ->
  programmed (programmed m A buf pos n) (A + n) buf (pos + n) k a
  = programmed m A buf pos (n + k) a.
Proof.
  intros Hn Hk. unfold programmed.
  destruct (Z.leb_spec (A + n) a), (Z.ltb_spec a (A + n + k)),
    (Z.leb_spec A a), (Z.ltb_spec a (A + n)), (Z.ltb_spec a (A + (n + k)));
    cbn [andb]; try reflexivity; try lia.
  do 3 f_equal. lia.
Qed.

Lemma programmed_0 m A buf pos a : programmed m A buf pos 0 a = m a.
Proof.
  unfold programmed.
  destruct (Z.leb_spec A a), (Z.ltb_spec a (A + 0)); cbn [andb];
    try reflexivity; lia.
Qed.

Lemma qspi_buf_rdwr_write_loop s buf pos off len m (fuel : nat) :
  0 <= off -> off + len < 2 ^ 63 -> 0 <= pos ->
  chip_addr off + len <= 2 ^ 32 ->
  forall n f,
    healthy s f ->
    qspi_curr_sector f = Mock.ext_addr (Mock.the_chip s (qspi_regs f)) ->
    is_write_cmd (write_cmd (vendor f)) ->
    (forall a, Mock.mem (Mock.the_chip s (qspi_regs f)) a
               = programmed m (chip_addr off) buf pos n a) ->
    0 <= n <= len -> len - n <= Z.of_nat fuel ->
    exists f',
      qspi_buf_rdwr_loop fuel buf pos off len true n f = Some (0, buf, f') /\
      post s f f' (programmed m (chip_addr off) buf pos len).
Proof.
  intros Hoff Hend Hpos Hlim.
  induction fuel as [| fuel IH]; intros n f H Hk Hv Hm Hn Hfuel.
  - assert (n = len) by lia. subst n. cbn [qspi_buf_rdwr_loop].
    rewrite Z.ltb_irrefl. exists f. split; [reflexivity |].
    apply post_start; assumption.
  - cbn [qspi_buf_rdwr_loop]. destruct (Z.ltb_spec n len) as [Hlt | Hge].
    2:{ assert (n = len) by lia. subst n. exists f.
        split; [reflexivity |]. apply post_start; assumption. }
    rewrite (u64_small (len - n)), (s64_small (off + n)) by lia.
    destruct (qspi_fifo_wr_healthy s (off + n) buf (pos + n) (len - n) f _ H
                (or_introl Hk) Hm Hv ltac:(lia) ltac:(lia))
      as (f1 & E & Hp1).
    rewrite E. cbn [Z.eqb].
    pose proof (h_fifo _ _ H) as Hfifo.
    set (payload := Z.min (Z.min (len - n) (qspi_fifo_depth f - 4)) 128) in *.
    assert (Hpl : 0 < payload <= len - n) by (unfold payload; lia).
    rewrite (u64_small (n + payload)) by lia.
    rewrite chip_addr_add in Hp1 by lia.
    apply (fun p => post_ext _ _ _ _
             (programmed m (chip_addr off) buf pos (n + payload)) p
             (fun a => programmed_app m (chip_addr off) buf pos n payload a
                         ltac:(lia) ltac:(lia))) in Hp1.
    destruct (IH (n + payload) f1 (p_healthy _ _ _ _ Hp1)
                (p_known _ _ _ _ Hp1)
                ltac:(rewrite (p_vendor _ _ _ _ Hp1); exact Hv)
                (p_mem _ _ _ _ Hp1) ltac:(lia) ltac:(lia))
      as (f2 & E2 & Hp2).
    rewrite E2. exists f2. split; [reflexivity |].
    eapply post_trans; eassumption.
Qed.

(** Programming the [len] bytes at &buf[pos] to [off]. *)
Lemma qspi_buf_rdwr_write_healthy s buf pos off len f m :
  healthy s f ->
  qspi_curr_sector f = Mock.ext_addr (Mock.the_chip s (qspi_regs f)) ->
  is_write_cmd (write_cmd (vendor f)) ->
  (forall a, Mock.mem (Mock.the_chip s (qspi_regs f)) a = m a) ->
  0 <= off -> off + len < 2 ^ 63 -> 0 <= len -> 0 <= pos ->
  chip_addr off + len <= 2 ^ 32 ->
  exists f',
    qspi_buf_rdwr buf pos off len true f = Some (0, buf, f') /\
    post s f f' (programmed m (chip_addr off) buf pos len).
Proof.
  intros H Hk Hv Hm Hoff Hend Hlen Hpos Hlim. unfold qspi_buf_rdwr.
  apply qspi_buf_rdwr_write_loop; try assumption; try lia.
  intros a. rewrite programmed_0. apply Hm.
Qed.

Lemma qspi_erase_cmd_cases pagesz :
  qspi_erase_cmd pagesz = QSPI_CMD_4KB_SUBSECTOR_ERASE \/
  qspi_erase_cmd pagesz = QSPI_CMD_32KB_SUBSECTOR_ERASE \/
  qspi_erase_cmd pagesz = QSPI_CMD_SECTOR_ERASE \/
  qspi_erase_cmd pagesz = 0.
Proof.
  unfold qspi_erase_cmd. cbv zeta.
  destruct (_ =? 4); [auto |].
  destruct (_ =? 32); [auto |].
  destruct (_ =? 64); auto.
Qed.

Lemma chip_exec_erase c cmd hi mid lo :
  Mock.wel c = true ->
  cmd = QSPI_CMD_4KB_SUBSECTOR_ERASE \/ cmd = QSPI_CMD_32KB_SUBSECTOR_ERASE \/
  cmd = QSPI_CMD_SECTOR_ERASE \/ cmd = 0 ->
  Mock.ext_addr (Mock.chip_exec c [cmd; hi; mid; lo]) = Mock.ext_addr c /\
  Mock.mem (Mock.chip_exec c [cmd; hi; mid; lo])
  = erased (Mock.mem c)
      (Mock.ext_addr c * 2 ^ 24 + hi * 2 ^ 16 + mid * 2 ^ 8 + lo) cmd.
Proof.
  intros Hw Hc. unfold Mock.chip_exec, erased.
  destruct Hc as [-> | [-> | [-> | ->]]];
    cbn [buf_get Z.ltb Z.compare nth Z.to_nat Pos.to_nat Pos.iter_op Nat.add
         Z.eqb Pos.eqb orb negb QSPI_CMD_WRITE_ENABLE
         QSPI_CMD_EXTENDED_ADDRESS_REG_WRITE QSPI_CMD_PAGE_PROGRAM
         QSPI_CMD_QUAD_WRITE QSPI_CMD_4KB_SUBSECTOR_ERASE
         QSPI_CMD_32KB_SUBSECTOR_ERASE QSPI_CMD_SECTOR_ERASE Mock.erase_size];
    rewrite ?Hw; split; reflexivity.
Qed.

Lemma tx_frame_4 b :
  tx_frame b 4
  = [u8 (buf_get b 0); u8 (buf_get b 1); u8 (buf_get b 2); u8 (buf_get b 3)].
Proof. reflexivity. Qed.

Lemma post_rebase_ready s f f1 m :
  s = 0 \/ s = 1 ->
  post s (mset (Mock.after_frame s [QSPI_CMD_STATUSREG_READ; 0] (qspi_regs f)) f)
    f1 m ->
  post s f f1 m.
Proof.
  intros Hs [H Hd Hv Hsz Hk Ho Hm]. constructor; try assumption.
  rewrite Ho. cbn [qspi_regs set_regs].
  destruct Hs as [-> | ->]; reflexivity.
Qed.

Lemma sector_known_after_ready s sect f :
  s = 0 \/ s = 1 ->
  sector_known s sect f ->
  sector_known s sect
    (mset (Mock.after_frame s [QSPI_CMD_STATUSREG_READ; 0] (qspi_regs f)) f).
Proof.
  intros Hs [Hk | Hk]; [left | right; exact Hk].
  cbn [qspi_curr_sector qspi_regs set_regs]. rewrite Hk.
  destruct Hs as [-> | ->]; reflexivity.
Qed.

Lemma mem_after_ready s f a :
  s = 0 \/ s = 1 ->
  Mock.mem
    (Mock.the_chip s
       (qspi_regs
          (mset (Mock.after_frame s [QSPI_CMD_STATUSREG_READ; 0] (qspi_regs f))
             f))) a
  = Mock.mem (Mock.the_chip s (qspi_regs f)) a.
Proof. intros [-> | ->]; reflexivity. Qed.

(** Erasing at [off]: whatever [pagesz] is, the erase sequence runs with
    the opcode qspi_erase_cmd picks; its last three frames are the write
    enable, the erase frame and the closing status poll. *)
Lemma qspi_page_erase_healthy s off pagesz f m :
  healthy s f -> sector_known s (sector (qspi_offset2faddr off)) f ->
  (forall a, Mock.mem (Mock.the_chip s (qspi_regs f)) a = m a) ->
  exists f' fr,
    qspi_page_erase off pagesz f = (0, f') /\
    post s f f' (erased m (chip_addr off) (qspi_erase_cmd pagesz)) /\
    Mock.frames (qspi_regs f')
    = [QSPI_CMD_STATUSREG_READ; 0]
      :: [qspi_erase_cmd pagesz; addr_hi (qspi_offset2faddr off);
          addr_mid (qspi_offset2faddr off); addr_lo (qspi_offset2faddr off)]
      :: [QSPI_CMD_WRITE_ENABLE] :: fr.
Proof.
  intros H Hk Hm. pose proof (h_slave_ok _ _ H) as Hs.
  unfold qspi_page_erase. cbv zeta.
  rewrite (qspi_wait_until_ready_healthy s f H). cbn [negb].
  set (f0 := mset (Mock.after_frame s [QSPI_CMD_STATUSREG_READ; 0]
                     (qspi_regs f)) f) in *.
  destruct (qspi_setup_io_cmd_header_healthy s (qspi_erase_cmd pagesz)
              (qspi_offset2faddr off) f0 (healthy_after_frame s _ f H)
              (qspi_offset2faddr_wf off)
              (sector_known_after_ready s _ f Hs Hk))
    as (f1 & E & Hp & Hcs & Hb0 & Hb1 & Hb2 & Hb3).
  apply (fun p => post_ext _ _ _ _ m p
           (fun a => eq_trans (mem_after_ready s f a Hs) (Hm a))) in Hp.
  apply (post_rebase_ready s f f1 m Hs) in Hp.
  rewrite E. cbn [Z.eqb negb].
  rewrite (qspi_enable_write_healthy s f1 (p_healthy _ _ _ _ Hp)).
  cbn [Z.eqb negb].
  assert (Hp2 : post s f
                  (mset (Mock.after_frame s [QSPI_CMD_WRITE_ENABLE]
                           (qspi_regs f1)) f1) m).
  { apply post_frame with (m := m); try exact Hp; try reflexivity.
    intros a. apply (p_mem _ _ _ _ Hp). }
  set (f2 := mset (Mock.after_frame s [QSPI_CMD_WRITE_ENABLE] (qspi_regs f1))
               f1) in *.
  pose proof (h_fifo _ _ (p_healthy _ _ _ _ Hp2)) as Hfifo.
  unfold qspi_exec_io_cmd.
  rewrite (qspi_transaction_healthy _ _ _ s)
    by (try exact (p_healthy _ _ _ _ Hp2); lia).
  cbn [Z.eqb negb].
  change (io_buf f2) with (io_buf f1).
  rewrite tx_frame_4, Hb0, Hb1, Hb2, Hb3.
  destruct (qspi_offset2faddr_wf off) as (_ & _ & Hl & Hmi & Hh).
  rewrite (u8_small (addr_hi _)), (u8_small (addr_mid _)),
    (u8_small (addr_lo _)) by assumption.
  pose proof (qspi_erase_cmd_cases pagesz) as Hcmd.
  rewrite (u8_small (qspi_erase_cmd pagesz))
    by (destruct Hcmd as [-> | [-> | [-> | ->]]]; cbv; intuition discriminate).
  set (frame := [qspi_erase_cmd pagesz; addr_hi (qspi_offset2faddr off);
                 addr_mid (qspi_offset2faddr off);
                 addr_lo (qspi_offset2faddr off)]).
  assert (Hwel : Mock.wel (Mock.the_chip s (qspi_regs f2)) = true).
  { unfold f2. cbn [qspi_regs set_regs].
    destruct (the_chip_after_frame s [QSPI_CMD_WRITE_ENABLE] (qspi_regs f1)
                Hs) as [-> _].
    reflexivity. }
  destruct (chip_exec_erase (Mock.the_chip s (qspi_regs f2))
              (qspi_erase_cmd pagesz) (addr_hi (qspi_offset2faddr off))
              (addr_mid (qspi_offset2faddr off))
              (addr_lo (qspi_offset2faddr off)) Hwel Hcmd) as [Hext Hmem].
  fold frame in Hext, Hmem.
  assert (Hp3 : post s f
                  (set_io_buf (io_buf f1)
                     (mset (Mock.after_frame s frame (qspi_regs f2)) f2))
                  (erased m (chip_addr off) (qspi_erase_cmd pagesz))).
  { apply post_set_io_buf;
      [| exact (h_io_buf _ _ (p_healthy _ _ _ _ Hp))].
    apply post_frame with (m := m); try exact Hp2; try exact Hext.
    intros a. rewrite Hmem.
    rewrite <- (p_known _ _ _ _ Hp2).
    change (qspi_curr_sector f2) with (qspi_curr_sector f1).
    rewrite Hcs, (chip_addr_faddr off).
    unfold erased. destruct (_ =? 0); [apply (p_mem _ _ _ _ Hp2) |].
    unfold Mock.erase. rewrite (p_mem _ _ _ _ Hp2). reflexivity. }
  set (f3 := set_io_buf (io_buf f1)
               (mset (Mock.after_frame s frame (qspi_regs f2)) f2)) in *.
  rewrite (qspi_wait_until_ready_healthy s f3 (p_healthy _ _ _ _ Hp3)).
  cbn [negb]. eexists. exists (Mock.frames (qspi_regs f1)).
  split; [reflexivity |]. split; [| reflexivity].
  apply post_frame
    with (m := erased m (chip_addr off) (qspi_erase_cmd pagesz));
    try exact Hp3; try reflexivity.
  intros a. apply (p_mem _ _ _ _ Hp3).
Qed.

End MockPageIO.

(** ** Page arithmetic *)

Lemma QSPI_PAGE_OFFSET_mod off :
  0 <= off < 2 ^ 63 -> QSPI_PAGE_OFFSET off = off mod 4096.
Proof.
  intros H. unfold QSPI_PAGE_OFFSET.
  rewrite u64_small by lia.
  change QSPI_PAGE_MASK with (Z.ones 12). apply Z.land_ones. lia.
Qed.

Lemma QSPI_PAGE_ALIGN_mod off :
  0 <= off < 2 ^ 63 -> QSPI_PAGE_ALIGN off = off - off mod 4096.
Proof.
  intros H. unfold QSPI_PAGE_ALIGN.
  rewrite (u64_small off) by lia.
  change (u64 (Z.lnot QSPI_PAGE_MASK))
    with (Z.land (Z.lnot (Z.ones 12)) (Z.ones 64)).
  rewrite (Z.land_comm (Z.lnot _)), Z.land_assoc, (Z.land_ones off 64) by lia.
  rewrite Z.mod_small by lia.
  rewrite <- Z.ldiff_land, Z.ldiff_ones_r by lia.
  rewrite Z.shiftl_mul_pow2, Z.shiftr_div_pow2 by lia.
  change (2 ^ 12) with 4096. Z.div_mod_to_equations. lia.
Qed.

Lemma sector_page off :
  0 <= off ->
  sector (qspi_offset2faddr (off - off mod 4096))
  = sector (qspi_offset2faddr off).
Proof.
  intros H. cbn [qspi_offset2faddr sector]. unfold u8.
  rewrite !Z.shiftr_div_pow2 by lia. f_equal.
  change (2 ^ 24) with (4096 * 4096).
  rewrite <- !Z.div_div by lia. f_equal.
  Z.div_mod_to_equations. lia.
Qed.

Lemma chip_addr_page off :
  0 <= off ->
  chip_addr (off - off mod 4096) = chip_addr off - off mod 4096 /\
  chip_addr (off - off mod 4096) mod 4096 = 0 /\
  0 <= chip_addr (off - off mod 4096) /\
  chip_addr (off - off mod 4096) + 4096 <= 2 ^ 32.
Proof.
  intros H. unfold chip_addr. Z.div_mod_to_equations. lia.
Qed.

Lemma land_255_byte x : 0 <= x < 256 -> Z.land 255 x = x.
Proof.
  intros H. rewrite Z.land_comm. change 255 with (Z.ones 8).
  rewrite Z.land_ones by lia. apply Z.mod_small. lia.
Qed.

(** ** Read-modify-write on the mock controller *)

Section MockRMW.

Local Abbreviation flashT := (@xrt_qspi Mock.device).
Implicit Types (f flash : flashT).

Lemma settled_step s sect f f1 f2 m m2 :
  settled s sect f f1 m -> post s f1 f2 m2 -> settled s sect f f2 m2.
Proof.
  intros [H Hv Hk Ho Hm] Hp. constructor.
  - apply (p_healthy _ _ _ _ Hp).
  - rewrite (p_vendor _ _ _ _ Hp). exact Hv.
  - left. apply (p_known _ _ _ _ Hp).
  - rewrite (p_other _ _ _ _ Hp). exact Ho.
  - apply (p_mem _ _ _ _ Hp).
Qed.

Lemma optional_read s sect buf pos off len f0 f m :
  settled s sect f0 f m ->
  (len <> 0 -> sect = sector (qspi_offset2faddr off)) ->
  0 <= off -> off + len < 2 ^ 63 -> 0 <= len -> 0 <= pos ->
  chip_addr off + len <= 2 ^ 32 ->
  pos + len <= Z.of_nat (List.length buf) ->
  exists f' buf',
    (if negb (len =? 0) then qspi_buf_rdwr buf pos off len false f
     else Some (0, buf, f)) = Some (0, buf', f') /\
    settled s sect f0 f' m /\
    List.length buf' = List.length buf /\
    forall j, 0 <= j ->
      buf_get buf' j
      = if (pos <=? j) && (j <? pos + len)
        then u8 (m (chip_addr off + (j - pos))) else buf_get buf j.
Proof.
  intros Hst Hsect Hoff Hend Hlen Hpos Hlim Hfit.
  destruct (Z.eqb_spec len 0) as [-> | Hne]; cbn [negb].
  - exists f, buf. split; [reflexivity |]. split; [exact Hst |].
    split; [reflexivity |]. intros j Hj.
    destruct (Z.leb_spec pos j), (Z.ltb_spec j (pos + 0)); cbn [andb];
      try reflexivity; lia.
  - specialize (Hsect Hne). subst sect.
    destruct (qspi_buf_rdwr_read_healthy s buf pos off len f m
                (st_healthy _ _ _ _ _ Hst) (st_known _ _ _ _ _ Hst)
                (st_mem _ _ _ _ _ Hst) Hoff Hend ltac:(lia) Hpos Hlim Hfit)
      as (f' & buf' & E & Hp & Hl & Hb).
    exists f', buf'. split; [exact E |].
    split; [eapply settled_step; eassumption |]. split; assumption.
Qed.

Lemma sector_within_page off x :
  0 <= off -> off - off mod 4096 <= x < off - off mod 4096 + 4096 ->
  sector (qspi_offset2faddr x) = sector (qspi_offset2faddr off).
Proof.
  intros H Hx. cbn [qspi_offset2faddr sector]. unfold u8.
  rewrite !Z.shiftr_div_pow2 by lia. f_equal.
  change (2 ^ 24) with (4096 * 4096).
  rewrite <- !Z.div_div by lia. f_equal.
  Z.div_mod_to_equations. lia.
Qed.

Lemma chip_addr_within_page off d :
  0 <= off -> 0 <= d -> off mod 4096 + d < 4096 ->
  chip_addr (off + d) = chip_addr off + d.
Proof.
  intros H Hd Hfit. unfold chip_addr. Z.div_mod_to_equations. lia.
Qed.

(** Read-modify-write of one 4KB page on a working controller. *)
Lemma qspi_page_rmw_settled s f ubuf upos kbuf off cnt m :
  healthy s f ->
  sector_known s (sector (qspi_offset2faddr off)) f ->
  is_write_cmd (write_cmd (vendor f)) ->
  (forall a, Mock.mem (Mock.the_chip s (qspi_regs f)) a = m a) ->
  (forall a, is_byte (m a)) ->
  0 <= off < 2 ^ 63 - 4096 ->
  0 < cnt < 2 ^ 64 ->
  0 <= upos ->
  upos + Z.min cnt (4096 - off mod 4096) <= Z.of_nat (List.length ubuf) ->
  4096 <= Z.of_nat (List.length kbuf) ->
  exists kbuf' f',
    qspi_page_rmw ubuf upos kbuf off cnt f
    = Some (0, kbuf', Z.min cnt (4096 - off mod 4096), f') /\
    healthy s f' /\
    qspi_curr_sector f' = Mock.ext_addr (Mock.the_chip s (qspi_regs f')) /\
    List.length kbuf' = List.length kbuf /\
    Mock.the_chip (1 - s) (qspi_regs f')
    = Mock.the_chip (1 - s) (qspi_regs f) /\
    forall a,
      Mock.mem (Mock.the_chip s (qspi_regs f')) a
      = if (chip_addr off <=? a)
           && (a <? chip_addr off + Z.min cnt (4096 - off mod 4096))
        then u8 (buf_get ubuf (upos + (a - chip_addr off)))
        else m a.
Proof.
  intros H Hk Hv Hm Hbyte Hoff Hcnt Hupos Hubuf Hkbuf.
  unfold qspi_page_rmw.
  rewrite QSPI_PAGE_OFFSET_mod, QSPI_PAGE_ALIGN_mod by lia.
  change QSPI_PAGE_SIZE with 4096.
  pose proof (Z.mod_pos_bound off 4096 ltac:(lia)) as Hfront.
  pose proof (Z.mod_le off 4096 ltac:(lia) ltac:(lia)) as Hfo.
  set (front := off mod 4096) in *.
  set (page := off - front).
  rewrite (u64_small (4096 - front)) by lia.
  set (mid := Z.min cnt (4096 - front)) in *.
  assert (Hmid : 0 < mid <= 4096 - front) by (unfold mid; lia).
  rewrite (u64_small (4096 - front - mid)) by lia.
  set (last := 4096 - front - mid).
  cbv zeta. rewrite (s64_small page) by (unfold page; lia).
  destruct (chip_addr_page off ltac:(lia)) as (HAp & HAal & HAp0 & HApe).
  fold front in HAp, HAal, HAp0, HApe. fold page in HAp, HAal, HAp0, HApe.
  set (Ap := chip_addr page) in *.
  assert (Hpal : page mod 4096 = 0)
    by (unfold page, front; Z.div_mod_to_equations; lia).
  assert (HAb : 0 < last ->
                chip_addr (page + front + mid) = Ap + front + mid).
  { intros Hl. rewrite <- Z.add_assoc.
    rewrite chip_addr_within_page by (unfold page, last in *; lia).
    fold Ap. lia. }
  assert (Hst0 : settled s (sector (qspi_offset2faddr off)) f f m)
    by (constructor; try reflexivity; assumption).
  (* the front bytes *)
  destruct (optional_read s _ kbuf 0 page front f f m Hst0
              ltac:(intros _; symmetry; apply sector_page; lia)
              ltac:(unfold page; lia) ltac:(unfold page; lia) ltac:(lia)
              ltac:(lia) ltac:(fold Ap; lia) ltac:(lia))
    as (f1 & kbuf1 & E1 & Hst1 & Hl1 & Hb1).
  rewrite E1. cbn [Z.eqb negb].
  rewrite (s64_small (page + front)) by (unfold page; lia).
  (* the caller's bytes *)
  unfold copy_from_user.
  destruct (Z.leb_spec (upos + mid) (Z.of_nat (List.length ubuf))); [| lia].
  cbn [Z.eqb negb].
  rewrite (s64_small (page + front + mid)) by (unfold page; lia).
  set (kbuf2 := memcpy kbuf1 (0 + front) ubuf upos mid).
  assert (Hl2 : List.length kbuf2 = List.length kbuf)
    by (unfold kbuf2; rewrite length_memcpy; exact Hl1).
  (* the back bytes *)
  destruct (optional_read s _ kbuf2 (0 + front + mid) (page + front + mid)
              last f f1 m Hst1
              ltac:(intros Hl; symmetry; apply sector_within_page;
                    fold front; fold page; unfold last in Hl; lia)
              ltac:(unfold page; lia) ltac:(unfold page, last; lia)
              ltac:(unfold last; lia) ltac:(lia)
              ltac:(destruct (Z.eq_dec last 0) as [Hl0 | Hl0];
                    [rewrite Hl0; unfold chip_addr;
                     pose proof (Z.mod_pos_bound (page + front + mid)
                                   (2 ^ 32) ltac:(lia)); lia
                    | rewrite HAb by (unfold last in *; lia);
                      unfold last; lia])
              ltac:(rewrite Hl2; unfold last; lia))
    as (f3 & kbuf3 & E3 & Hst3 & Hl3 & Hb3).
  rewrite E3. cbn [Z.eqb negb].
  (* erase, then program the whole page *)
  destruct (qspi_page_erase_healthy s page 4096 f3 m
              (st_healthy _ _ _ _ _ Hst3)
              ltac:(unfold page, front; rewrite (sector_page off) by lia;
                    exact (st_known _ _ _ _ _ Hst3))
              (st_mem _ _ _ _ _ Hst3))
    as (f4 & fr & E4 & Hp4 & _).
  rewrite E4. cbn [Z.eqb].
  fold Ap in Hp4.
  destruct (qspi_buf_rdwr_write_healthy s kbuf3 0 page 4096 f4 _
              (p_healthy _ _ _ _ Hp4) (p_known _ _ _ _ Hp4)
              ltac:(rewrite (p_vendor _ _ _ _ Hp4),
                      (st_vendor _ _ _ _ _ Hst3); exact Hv)
              (p_mem _ _ _ _ Hp4) ltac:(unfold page; lia)
              ltac:(unfold page; lia) ltac:(lia) ltac:(lia)
              ltac:(fold Ap; lia))
    as (f5 & E5 & Hp5).
  rewrite E5. exists kbuf3, f5. split; [reflexivity |].
  split; [apply (p_healthy _ _ _ _ Hp5) |].
  split; [apply (p_known _ _ _ _ Hp5) |].
  split; [congruence |]. split.
  - rewrite (p_other _ _ _ _ Hp5), (p_other _ _ _ _ Hp4).
    apply (st_other _ _ _ _ _ Hst3).
  - intros a. rewrite (p_mem _ _ _ _ Hp5). fold Ap.
    unfold programmed, erased.
    change (qspi_erase_cmd 4096) with QSPI_CMD_4KB_SUBSECTOR_ERASE.
    change (Mock.erase_size QSPI_CMD_4KB_SUBSECTOR_ERASE =? 0) with false.
    cbv iota. unfold Mock.erase.
    change (Mock.erase_size QSPI_CMD_4KB_SUBSECTOR_ERASE) with 4096.
    rewrite HAal, Z.sub_0_r.
    replace (chip_addr off) with (Ap + front) by lia.
    destruct (Z.leb_spec Ap a), (Z.ltb_spec a (Ap + 4096)); cbn [andb].
    2,3,4: destruct (Z.leb_spec (Ap + front) a),
             (Z.ltb_spec a (Ap + front + mid)); cbn [andb];
           try reflexivity; lia.
    rewrite land_255_byte by apply u8_range.
    rewrite Hb3 by lia.
    destruct (Z.leb_spec (0 + front + mid) (0 + (a - Ap))),
      (Z.ltb_spec (0 + (a - Ap)) (0 + front + mid + last)); cbn [andb].
    + (* back *)
      destruct (Z.leb_spec (Ap + front) a),
        (Z.ltb_spec a (Ap + front + mid)); cbn [andb]; try lia.
      rewrite u8_u8, HAb by (unfold last; lia).
      replace (Ap + front + mid + (0 + (a - Ap) - (0 + front + mid)))
        with a by lia.
      apply u8_small, Hbyte.
    + unfold last in *. lia.
    + unfold kbuf2. rewrite buf_get_memcpy by lia.
      destruct (Z.leb_spec (0 + front) (0 + (a - Ap))),
        (Z.ltb_spec (0 + (a - Ap)) (0 + front + mid)); cbn [andb]; try lia.
      * (* the caller's bytes *)
        destruct (Z.leb_spec (Ap + front) a),
          (Z.ltb_spec a (Ap + front + mid)); cbn [andb]; try lia.
        do 3 f_equal. lia.
      * (* front *)
        rewrite Hb1 by lia.
        destruct (Z.leb_spec 0 (0 + (a - Ap))),
          (Z.ltb_spec (0 + (a - Ap)) (0 + front)); cbn [andb]; try lia.
        destruct (Z.leb_spec (Ap + front) a),
          (Z.ltb_spec a (Ap + front + mid)); cbn [andb]; try lia.
        rewrite u8_u8. fold Ap.
        replace (Ap + (0 + (a - Ap) - 0)) with a by lia.
        apply u8_small, Hbyte.
    + unfold last in *. lia.
Qed.


Lemma qspi_page_rmw_healthy s f ubuf upos kbuf off cnt m :
  healthy s f ->
  sector_known s (sector (qspi_offset2faddr off)) f ->
  is_write_cmd (write_cmd (vendor f)) ->
  (forall a, Mock.mem (Mock.the_chip s (qspi_regs f)) a = m a) ->
  (forall a, is_byte (m a)) ->
  0 <= off < 2 ^ 63 - 4096 ->
  0 < cnt < 2 ^ 64 ->
  0 <= upos ->
  upos + Z.min cnt (4096 - off mod 4096) <= Z.of_nat (List.length ubuf) ->
  4096 <= Z.of_nat (List.length kbuf) ->
  exists kbuf' f',
    qspi_page_rmw ubuf upos kbuf off cnt f
    = Some (0, kbuf', Z.min cnt (4096 - off mod 4096), f') /\
    healthy s f' /\
    Mock.the_chip (1 - s) (qspi_regs f')
    = Mock.the_chip (1 - s) (qspi_regs f) /\
    forall a,
      Mock.mem (Mock.the_chip s (qspi_regs f')) a
      = if (chip_addr off <=? a)
           && (a <? chip_addr off + Z.min cnt (4096 - off mod 4096))
        then u8 (buf_get ubuf (upos + (a - chip_addr off)))
        else m a.
Proof.
  intros H Hk Hv Hm Hbyte Hoff Hcnt Hupos Hubuf Hkbuf.
  destruct (qspi_page_rmw_settled s f ubuf upos kbuf off cnt m H Hk Hv Hm
              Hbyte Hoff Hcnt Hupos Hubuf Hkbuf)
    as (kbuf' & f' & E & Hh & _ & _ & Ho & Hmem).
  exists kbuf', f'. auto.
Qed.

End MockRMW.

(** [healthy] of a concrete instance, field by field. *)
Ltac healthy_by_evaluation :=
  constructor;
  [ constructor; reflexivity
  | reflexivity
  | first [left; reflexivity | right; reflexivity]
  | reflexivity
  | reflexivity
  | split; reflexivity ].

(** Read-modify-write of one page over the flash backing store of a
    working mock controller whose cached sector is not stale for the chip
    ([sector_known]), for any request of at least one byte at any offset (in
    particular for len < 4KB at an offset that is not 4KB aligned): the call
    succeeds and reports min(len, 4KB - offset within the page) bytes
    consumed; for every flat offset [x] of the containing 4KB window the
    byte on the chip is afterwards the caller's byte when [x] lies in
    [off, off + len) and the byte it was before otherwise; the other chip is
    untouched. *)
Theorem page_rmw_preserves_window s (f : @xrt_qspi Mock.device) ubuf upos
  kbuf off cnt m :
  healthy s f ->
  sector_known s (sector (qspi_offset2faddr off)) f ->
  is_write_cmd (write_cmd (vendor f)) ->
  (forall a, Mock.mem (Mock.the_chip s (qspi_regs f)) a = m a) ->
  (forall a, is_byte (m a)) ->
  0 <= off < 2 ^ 63 - 4096 ->
  0 < cnt < 2 ^ 64 ->
  0 <= upos ->
  upos + Z.min cnt (4096 - off mod 4096) <= Z.of_nat (List.length ubuf) ->
  4096 <= Z.of_nat (List.length kbuf) ->
  exists kbuf' f',
    qspi_page_rmw ubuf upos kbuf off cnt f
    = Some (0, kbuf', Z.min cnt (4096 - off mod 4096), f') /\
    Mock.the_chip (1 - s) (qspi_regs f')
    = Mock.the_chip (1 - s) (qspi_regs f) /\
    forall x,
      QSPI_PAGE_ALIGN off <= x < QSPI_PAGE_ALIGN off + QSPI_PAGE_SIZE ->
      Mock.mem (Mock.the_chip s (qspi_regs f')) (chip_addr x)
      = if (off <=? x) && (x <? off + cnt)
        then u8 (buf_get ubuf (upos + (x - off)))
        else m (chip_addr x).
Proof.
  intros H Hk Hv Hm Hbyte Hoff Hcnt Hupos Hubuf Hkbuf.
  destruct (qspi_page_rmw_healthy s f ubuf upos kbuf off cnt m H Hk Hv Hm
              Hbyte Hoff Hcnt Hupos Hubuf Hkbuf)
    as (kbuf' & f' & E & _ & Ho & Hmem).
  exists kbuf', f'. split; [exact E |]. split; [exact Ho |].
  intros x. rewrite QSPI_PAGE_ALIGN_mod by lia.
  change QSPI_PAGE_SIZE with 4096. intros Hx.
  rewrite Hmem.
  pose proof (Z.mod_pos_bound off 4096 ltac:(lia)) as Hfront.
  assert (Hcx : chip_addr x = chip_addr off + (x - off)).
  { unfold chip_addr. Z.div_mod_to_equations. lia. }
  rewrite Hcx.
  destruct (Z.leb_spec (chip_addr off) (chip_addr off + (x - off))),
    (Z.ltb_spec (chip_addr off + (x - off))
       (chip_addr off + Z.min cnt (4096 - off mod 4096))),
    (Z.leb_spec off x), (Z.ltb_spec x (off + cnt)); cbn [andb];
    try reflexivity; try lia.
  do 3 f_equal. lia.
Qed.

Lemma page_rmw_preserves_window_witness :
  let m := fun a : Z => a mod 251 in
  let f := demo_flash in
  let ubuf := repeat 0x5A 200 in
  let kbuf := vmalloc QSPI_HUGE_PAGE_SIZE in
  exists kbuf' f',
    qspi_page_rmw ubuf 0 kbuf 4000 200 f = Some (0, kbuf', 96, f') /\
    Mock.the_chip 1 (qspi_regs f') = Mock.the_chip 1 (qspi_regs f) /\
    forall x,
      QSPI_PAGE_ALIGN 4000 <= x < QSPI_PAGE_ALIGN 4000 + QSPI_PAGE_SIZE ->
      Mock.mem (Mock.the_chip 0 (qspi_regs f')) (chip_addr x)
      = if (4000 <=? x) && (x <? 4000 + 200)
        then u8 (buf_get ubuf (0 + (x - 4000)))
        else m (chip_addr x).
Proof.
  intros m f ubuf kbuf.
  apply (page_rmw_preserves_window 0 f ubuf 0 kbuf 4000 200 m).
  - healthy_by_evaluation.
  - right. discriminate.
  - right. reflexivity.
  - intros a. reflexivity.
  - intros a. unfold is_byte, m.
    pose proof (Z.mod_pos_bound a 251). lia.
  - lia.
  - lia.
  - lia.
  - vm_compute. discriminate.
  - vm_compute. discriminate.
Defined.

(** The hypothesis [sector_known] is not idle.  The driver keeps one cached
    sector for both slaves while each chip has an extended address register
    of its own: after a write to sector 1 of slave 0, a write to sector 1 of
    slave 1 finds the cache equal to 1, skips the sector select and lands in
    sector 0 of chip 1 (address 100 instead of 16MB + 100). *)
Lemma sector_cache_shared_between_slaves :
  option_map
    (fun x : Z * Z * @xrt_qspi Mock.device =>
       let chip := Mock.chip1 (qspi_regs (snd x)) in
       (fst (fst x), qspi_curr_sector (snd x), Mock.ext_addr chip,
        Mock.mem chip (16777216 + 100), Mock.mem chip 100))
    (then_write
       (qspi_write always_ok (repeat 7 10) 10 (16777216 + 100) demo_flash32)
       (repeat 9 10) 10 (2 ^ 56 + 16777216 + 100))
  = Some (10, 1, 0, 0xFF, 9).
Proof. vm_compute. reflexivity. Qed.

(** C1, where the code departs from it.  The driver keeps one cached
    sector (qspi_curr_sector) for both slaves, each chip has an extended
    address register of its own, and nothing resets the cache when the
    current slave changes.  After a stream write to sector 1 of slave 1 the
    instance, switched to slave 0, is a working one in every other respect,
    but its cached sector (1) is not chip 0's register (0).  The
    read-modify-write of a ten-byte write at 16MB + 100 on slave 0 (less
    than 4KB, not 4KB aligned) then returns 0 and reports ten bytes
    consumed, yet the ten bytes at 16MB + 100 of chip 0 are what they were
    (225 to 234, not the caller's data), and the caller's bytes are at chip
    addresses 100 to 109, in sector 0, outside the containing window.  The
    two stream writes that lead there both report success. *)
Theorem page_rmw_lands_in_stale_sector :
  exists f : @xrt_qspi Mock.device,
    then_slave0 slave1_sector1_write = Some f /\
    healthy 0 f /\
    is_write_cmd (write_cmd (vendor f)) /\
    ~ sector_known 0 (sector (qspi_offset2faddr (16777216 + 100))) f /\
    bytes_at (Mock.chip0 (qspi_regs f)) (16777216 + 100) 10
    = [225; 226; 227; 228; 229; 230; 231; 232; 233; 234] /\
    bytes_at (Mock.chip0 (qspi_regs f)) 100 10
    = [100; 101; 102; 103; 104; 105; 106; 107; 108; 109] /\
    option_map
      (fun x : Z * list Z * Z * @xrt_qspi Mock.device =>
         let chip := Mock.chip0 (qspi_regs (snd x)) in
         (fst (fst (fst x)), snd (fst x),
          bytes_at chip (16777216 + 100) 10, bytes_at chip 100 10))
      (qspi_page_rmw (repeat 9 10) 0 (vmalloc QSPI_HUGE_PAGE_SIZE)
         (16777216 + 100) 10 f)
    = Some (0, 10, [225; 226; 227; 228; 229; 230; 231; 232; 233; 234],
            repeat 9 10) /\
    write_outcome slave1_sector1_write
    = Some (10, 2 ^ 56 + 16777216 + 110) /\
    write_outcome
      (then_write slave1_sector1_write (repeat 9 10) 10 (16777216 + 100))
    = Some (10, 16777216 + 110).
Proof.
  assert (E :
    option_map
      (fun f : @xrt_qspi Mock.device =>
         let h := qspi_regs f in
         (Mock.ctrl h, Mock.txq h, Mock.rxq h, Mock.flt h, Mock.depth h,
          qspi_fifo_depth f, List.length (io_buf f), qspi_curr_slave f,
          write_cmd (vendor f),
          qspi_curr_sector f, Mock.ext_addr (Mock.chip0 h),
          bytes_at (Mock.chip0 h) (16777216 + 100) 10,
          bytes_at (Mock.chip0 h) 100 10,
          option_map
            (fun x : Z * list Z * Z * @xrt_qspi Mock.device =>
               let chip := Mock.chip0 (qspi_regs (snd x)) in
               (fst (fst (fst x)), snd (fst x),
                bytes_at chip (16777216 + 100) 10, bytes_at chip 100 10))
            (qspi_page_rmw (repeat 9 10) 0 (vmalloc QSPI_HUGE_PAGE_SIZE)
               (16777216 + 100) 10 f)))
      (then_slave0 slave1_sector1_write)
    = Some (Mock.IDLE_CTRL, [], [], Mock.NoFault, 256, 256, 256%nat, 0,
            QSPI_CMD_QUAD_WRITE, 1, 0,
            [225; 226; 227; 228; 229; 230; 231; 232; 233; 234],
            [100; 101; 102; 103; 104; 105; 106; 107; 108; 109],
            Some (0, 10, [225; 226; 227; 228; 229; 230; 231; 232; 233; 234],
                  repeat 9 10)))
    by (vm_compute; reflexivity).
  revert E. generalize (then_slave0 slave1_sector1_write).
  intros [f |]; [| discriminate]. cbn [option_map]. cbv zeta.
  remember (bytes_at (Mock.chip0 (qspi_regs f)) (16777216 + 100) 10) as b1.
  remember (bytes_at (Mock.chip0 (qspi_regs f)) 100 10) as b2.
  remember (option_map _ (qspi_page_rmw _ _ _ _ _ f)) as rmw.
  intros [= Hc Ht Hr Hf Hd Hfd Hio Hsl Hw Hcs He Hb1 Hb2 Hrmw]. subst b1 b2 rmw.
  exists f. split; [reflexivity |].
  split.
  { constructor.
    - constructor; try assumption. lia.
    - exact Hsl.
    - left. reflexivity.
    - congruence.
    - rewrite Hio, Hfd. reflexivity.
    - rewrite Hfd. lia. }
  split; [right; exact Hw |].
  split.
  { intros [Hk | Hk].
    - change (Mock.the_chip 0 (qspi_regs f)) with (Mock.chip0 (qspi_regs f)) in Hk.
      rewrite Hcs, He in Hk. discriminate.
    - apply Hk. rewrite Hcs. reflexivity. }
  split; [exact Hb1 |]. split; [exact Hb2 |]. split; [exact Hrmw |].
  split; vm_compute; reflexivity.
Qed.

(** ** Erase sizes *)

Lemma qspi_erase_cmd_warns_invalid pagesz :
  0 <= pagesz ->
  pagesz <> QSPI_PAGE_SIZE -> pagesz <> QSPI_LARGE_PAGE_SIZE ->
  pagesz <> QSPI_HUGE_PAGE_SIZE ->
  qspi_erase_cmd_warns pagesz = true.
Proof.
  unfold QSPI_PAGE_SIZE, QSPI_LARGE_PAGE_SIZE, QSPI_HUGE_PAGE_SIZE.
  intros H0 H4 H32 H64. unfold qspi_erase_cmd_warns. cbv zeta.
  change 1024 with (2 ^ 10). rewrite IS_ALIGNED_mod by lia.
  change (2 ^ 10) with 1024.
  destruct (Z.eqb_spec (pagesz mod 1024) 0) as [Ha | Ha]; [| reflexivity].
  cbn [negb orb].
  destruct (Z.eqb_spec (pagesz / 1024) 4); [Z.div_mod_to_equations; lia |].
  destruct (Z.eqb_spec (pagesz / 1024) 32); [Z.div_mod_to_equations; lia |].
  destruct (Z.eqb_spec (pagesz / 1024) 64); [Z.div_mod_to_equations; lia |].
  reflexivity.
Qed.

(** C3, as the code has it.  An erase whose page size is not 4KB, 32KB or
    64KB is not rejected.  qspi_erase_cmd only warns (WARN_ON) and picks the
    opcode from pagesz / 1024 (the 4KB, 32KB or 64KB erase when the quotient
    is 4, 32 or 64, else opcode 0), and qspi_page_erase runs the whole erase
    sequence with it: on a working controller it returns 0, its last three
    frames are the write enable, the 4-byte frame with that opcode and the
    closing status poll, and the chip's memory is what that frame makes of
    it. *)
Theorem page_erase_size_unchecked s (f : @xrt_qspi Mock.device) off pagesz m :
  0 <= pagesz ->
  pagesz <> QSPI_PAGE_SIZE -> pagesz <> QSPI_LARGE_PAGE_SIZE ->
  pagesz <> QSPI_HUGE_PAGE_SIZE ->
  healthy s f -> sector_known s (sector (qspi_offset2faddr off)) f ->
  (forall a, Mock.mem (Mock.the_chip s (qspi_regs f)) a = m a) ->
  qspi_erase_cmd_warns pagesz = true /\
  exists f' fr,
    qspi_page_erase off pagesz f = (0, f') /\
    Mock.frames (qspi_regs f')
    = [QSPI_CMD_STATUSREG_READ; 0]
      :: [qspi_erase_cmd pagesz; addr_hi (qspi_offset2faddr off);
          addr_mid (qspi_offset2faddr off); addr_lo (qspi_offset2faddr off)]
      :: [QSPI_CMD_WRITE_ENABLE] :: fr /\
    forall a,
      Mock.mem (Mock.the_chip s (qspi_regs f')) a
      = erased m (chip_addr off) (qspi_erase_cmd pagesz) a.
Proof.
  intros H0 H4 H32 H64 H Hk Hm.
  split; [apply qspi_erase_cmd_warns_invalid; assumption |].
  destruct (qspi_page_erase_healthy s off pagesz f m H Hk Hm)
    as (f' & fr & E & Hp & Hfr).
  exists f', fr. split; [exact E |]. split; [exact Hfr |].
  apply (p_mem _ _ _ _ Hp).
Qed.

Lemma page_erase_size_unchecked_witness :
  let m := fun a : Z => a mod 251 in
  let f := demo_flash in
  qspi_erase_cmd_warns 5000 = true /\
  exists f' fr,
    qspi_page_erase 8192 5000 f = (0, f') /\
    Mock.frames (qspi_regs f')
    = [QSPI_CMD_STATUSREG_READ; 0]
      :: [qspi_erase_cmd 5000; addr_hi (qspi_offset2faddr 8192);
          addr_mid (qspi_offset2faddr 8192); addr_lo (qspi_offset2faddr 8192)]
      :: [QSPI_CMD_WRITE_ENABLE] :: fr /\
    forall a,
      Mock.mem (Mock.the_chip 0 (qspi_regs f')) a
      = erased m (chip_addr 8192) (qspi_erase_cmd 5000) a.
Proof.
  intros m f.
  apply (page_erase_size_unchecked 0 f 8192 5000 m).
  - lia.
  - discriminate.
  - discriminate.
  - discriminate.
  - healthy_by_evaluation.
  - right. discriminate.
  - intros a. reflexivity.
Defined.

(** C3 as stated fails: erase(8192, 5000) on a working controller is not
    rejected and does not leave the hardware alone.  It returns 0 after
    clocking out frames, among them a 4KB subsector erase (5000 / 1024 = 4)
    at 8192, and the page there reads 0xFF afterwards. *)
Lemma page_erase_5000_not_rejected :
  let m := fun a : Z => a mod 251 in
  let f := demo_flash in
  ~ (fst (qspi_page_erase 8192 5000 f) <> 0 /\
     Mock.frames (qspi_regs (snd (qspi_page_erase 8192 5000 f)))
     = Mock.frames (qspi_regs f)).
Proof.
  intros m f [H _]. apply H. vm_compute. reflexivity.
Qed.

Lemma page_erase_5000_erases_4KB :
  let m := fun a : Z => a mod 251 in
  let f := demo_flash in
  let f' := snd (qspi_page_erase 8192 5000 f) in
  qspi_erase_cmd 5000 = QSPI_CMD_4KB_SUBSECTOR_ERASE /\
  In [QSPI_CMD_4KB_SUBSECTOR_ERASE; 0; 32; 0] (Mock.frames (qspi_regs f')) /\
  m 8192 = 160 /\ Mock.mem (Mock.chip0 (qspi_regs f')) 8192 = 0xFF /\
  Mock.mem (Mock.chip0 (qspi_regs f')) 12287 = 0xFF /\
  Mock.mem (Mock.chip0 (qspi_regs f')) 12288 = m 12288.
Proof.
  intros m f f'. vm_compute. intuition.
Qed.

(** ** The stream facade *)

Section Stream.

Context {D : Device}.
Variable vmalloc_ok : Z -> bool.
Implicit Types flash : xrt_qspi.

Lemma qspi_read_out_of_bounds ubuf n off flash :
  n = 0 \/ is_valid_offset flash off = false ->
  qspi_read vmalloc_ok ubuf n off flash = Some (0, ubuf, off, flash).
Proof.
  intros H. unfold qspi_read.
  destruct H as [-> | ->]; [reflexivity |].
  rewrite orb_true_r. reflexivity.
Qed.

Lemma qspi_write_out_of_bounds buf n off flash :
  n = 0 \/ is_valid_offset flash off = false ->
  qspi_write vmalloc_ok buf n off flash = Some (- ENOSPC, off, flash).
Proof.
  intros H. unfold qspi_write.
  destruct H as [-> | ->]; [reflexivity |].
  rewrite orb_true_r. reflexivity.
Qed.

(** For an offset on slave 0 the boundary check is off < flash_size and the
    clamp is to the remaining capacity. *)
Lemma is_valid_offset_slave0 flash off :
  0 <= off < 2 ^ 32 ->
  is_valid_offset flash off = (off <? flash_size flash).
Proof.
  intros H. unfold is_valid_offset. cbv zeta.
  rewrite qspi_faddr2offset_sum
    by (apply set_slave_wf; [unfold is_byte; lia | apply qspi_offset2faddr_wf]).
  cbn [set_slave slave sector addr_hi addr_mid addr_lo].
  pose proof (chip_addr_faddr off) as Hc. cbv zeta in Hc.
  rewrite Z.mul_0_l, Z.add_0_l, Hc. unfold chip_addr.
  rewrite Z.mod_small by lia.
  rewrite s64_small, u64_small by lia. reflexivity.
Qed.

Lemma clamp_slave0 flash off n :
  0 <= off -> off < flash_size flash -> flash_size flash < 2 ^ 64 ->
  Z.min n (u64 (flash_size flash - u64 off))
  = Z.min n (flash_size flash - off).
Proof.
  intros H0 H1 H2. rewrite (u64_small off), u64_small by lia. reflexivity.
Qed.

(** C2, as the code has it.  When the write loop is left with an error,
    qspi_write returns that error code alone: the count of bytes committed
    by earlier chunks is dropped and *off is not advanced. *)
Theorem qspi_write_failure_drops_count buf n off flash l :
  n <> 0 -> is_valid_offset flash off = true ->
  vmalloc_ok QSPI_HUGE_PAGE_SIZE = true ->
  qspi_write_locked buf (Z.min n (u64 (flash_size flash - u64 off))) off flash
  = Some l ->
  fst (fst l) <> 0 ->
  qspi_write vmalloc_ok buf n off flash = Some (fst (fst l), off, snd l).
Proof.
  intros Hn Hv Ha El Hret. unfold qspi_write.
  destruct (Z.eqb_spec n 0) as [E | _]; [contradiction |].
  rewrite Hv, Ha. cbn [negb orb]. rewrite El.
  destruct l as [[ret cnt] fl]. cbn [fst snd] in *.
  destruct (Z.eqb_spec ret 0); [contradiction | reflexivity].
Qed.

End Stream.

(** A write of 8192 bytes at offset 0 whose user buffer faults after 4096
    bytes: the first 4KB chunk is committed, the second fails. *)
Lemma demo_write_fails_after_first_chunk :
  exists l,
    qspi_write_locked (repeat 7 4096) 8192 0 demo_flash = Some l /\
    fst l = (- EFAULT, 4096).
Proof.
  assert (E : option_map fst
                (qspi_write_locked (repeat 7 4096) 8192 0 demo_flash)
              = Some (- EFAULT, 4096)) by (vm_compute; reflexivity).
  revert E.
  generalize (qspi_write_locked (repeat 7 4096) 8192 0 demo_flash).
  intros [l |] E; [| discriminate E].
  exists l. split; [reflexivity |].
  injection E as E. exact E.
Defined.

Lemma qspi_write_failure_drops_count_witness :
  exists l,
    qspi_write_locked (repeat 7 4096) 8192 0 demo_flash = Some l /\
    snd (fst l) = 4096 /\
    qspi_write always_ok (repeat 7 4096) 8192 0 demo_flash
    = Some (- EFAULT, 0, snd l).
Proof.
  destruct demo_write_fails_after_first_chunk as (l & El & Hl).
  exists l. split; [exact El |].
  split; [rewrite Hl; reflexivity |].
  replace (- EFAULT) with (fst (fst l)) by (rewrite Hl; reflexivity).
  apply (qspi_write_failure_drops_count always_ok (repeat 7 4096) 8192 0
           demo_flash l).
  - discriminate.
  - vm_compute. reflexivity.
  - reflexivity.
  - exact El.
  - rewrite Hl. discriminate.
Defined.

(** C2 as stated fails: in that run 4096 bytes are committed before the
    failure, and neither the return value of qspi_write nor *off tells. *)
Lemma qspi_write_partial_count_lost :
  ~ (forall r l,
       qspi_write always_ok (repeat 7 4096) 8192 0 demo_flash = Some r ->
       qspi_write_locked (repeat 7 4096) 8192 0 demo_flash = Some l ->
       fst (fst l) <> 0 ->
       write_reports_commit r 0 (snd (fst l))).
Proof.
  intros H. destruct demo_write_fails_after_first_chunk as (l & El & Hl).
  assert (Ew : write_outcome
                 (qspi_write always_ok (repeat 7 4096) 8192 0 demo_flash)
               = Some (- EFAULT, 0)) by (vm_compute; reflexivity).
  revert Ew H.
  generalize (qspi_write always_ok (repeat 7 4096) 8192 0 demo_flash).
  intros [r |] Ew H; [| discriminate Ew].
  injection Ew as Ew1 Ew2.
  specialize (H r l eq_refl El ltac:(rewrite Hl; discriminate)).
  unfold write_reports_commit in H. rewrite Ew1, Ew2, Hl in H.
  cbn [fst snd] in H. destruct H as [H | H]; discriminate H.
Qed.

(** ** Boundary clamping on a second slave *)

(** C7 at the failing input.  flash_size - (size_t)*off is computed on the
    whole flat offset, slave byte included, so for an in-bounds offset on
    slave 1 it wraps around and clamps nothing: a read of 100 bytes, 10 bytes
    below the end of the chip, transfers 100 bytes (running on into sector 1)
    where the same read on slave 0 transfers 10. *)
Theorem qspi_read_slave1_not_clamped :
  is_valid_offset demo_flash slave1_tail = true /\
  Z.min 100 (u64 (flash_size demo_flash - u64 slave1_tail)) = 100 /\
  read_outcome (qspi_read always_ok (repeat 0 200) 100 slave1_tail demo_flash)
  = Some (100, slave1_tail + 100) /\
  read_outcome
    (qspi_read always_ok (repeat 0 200) 100 (16777216 - 10) demo_flash)
  = Some (10, 16777216).
Proof. vm_compute. repeat split; reflexivity. Qed.

(** C8 at the failing input.  The same unclamped length on the write side:
    a write of 100 bytes, 10 bytes below the end of the chip on slave 1, is
    accepted in full, selects sector 1 and programs 90 bytes beyond the
    capacity, where the same write on slave 0 is clamped to 10 bytes. *)
Theorem qspi_write_slave1_not_clamped :
  is_valid_offset demo_flash slave1_tail = true /\
  write_outcome (qspi_write always_ok (repeat 7 200) 100 slave1_tail demo_flash)
  = Some (100, slave1_tail + 100) /\
  option_map
    (fun x : Z * Z * @xrt_qspi Mock.device =>
       let chip := Mock.chip1 (qspi_regs (snd x)) in
       (Mock.ext_addr chip, Mock.mem chip 16777216,
        Mock.mem chip (16777216 + 89)))
    (qspi_write always_ok (repeat 7 200) 100 slave1_tail demo_flash)
  = Some (1, 7, 7) /\
  write_outcome
    (qspi_write always_ok (repeat 7 200) 100 (16777216 - 10) demo_flash)
  = Some (10, 16777216).
Proof. vm_compute. repeat split; reflexivity. Qed.

(** ** FIFO depth *)

Lemma qspi_fifo_rd_len_bound depth cnt :
  8 <= depth < 2 ^ 64 -> 0 <= cnt ->
  fst (qspi_fifo_rd_len depth 4 cnt) = Z.min cnt (depth - 4 - 4) /\
  snd (qspi_fifo_rd_len depth 4 cnt)
  = 4 + 4 + fst (qspi_fifo_rd_len depth 4 cnt) /\
  snd (qspi_fifo_rd_len depth 4 cnt) <= depth.
Proof.
  intros Hd Hc. unfold qspi_fifo_rd_len, read_dummy_len. cbn [fst snd].
  rewrite (u64_small (depth - 4 - 4)) by lia.
  rewrite u64_small by lia. lia.
Qed.

Lemma qspi_fifo_wr_len_bound depth cnt :
  4 <= depth < 2 ^ 64 -> 0 <= cnt ->
  fst (qspi_fifo_wr_len depth 4 cnt) = Z.min (Z.min cnt (depth - 4)) 128 /\
  snd (qspi_fifo_wr_len depth 4 cnt)
  = 4 + fst (qspi_fifo_wr_len depth 4 cnt) /\
  snd (qspi_fifo_wr_len depth 4 cnt) <= depth.
Proof.
  intros Hd Hc. unfold qspi_fifo_wr_len, write_max_len. cbn [fst snd].
  rewrite (u64_small (depth - 4)) by lia.
  rewrite u64_small by lia. lia.
Qed.

(** C6 at the failing input.  A controller whose TX FIFO is full after 6
    bytes attaches: the probe only refuses a depth of 0.  With it
    fifo_depth - header_len - 4 wraps around in size_t, so a read of 100
    bytes is not cut down: the transaction asks for 108 bytes from a FIFO and
    an io_buf of 6, and fails on the short RX FIFO. *)
Theorem fifo_rd_exceeds_shallow_fifo :
  probe_outcome (@qspi_probe Mock.device always_ok 16 (Mock.init 6)) = Some (0, 6, 6%nat) /\
  qspi_fifo_rd_len 6 4 100 = (100, 108) /\
  option_map
    (fun x : Z * @xrt_qspi Mock.device =>
       fst (fst (fst (qspi_fifo_rd 0 (repeat 0 200) 0 100 (snd x)))))
    (@qspi_probe Mock.device always_ok 16 (Mock.init 6))
  = Some (- EINVAL).
Proof. vm_compute. repeat split; reflexivity. Qed.

(** ** The write attempt *)

(** C4.  The full-page path picks the page size largest first: 64KB when
    the offset is a multiple of 64KB and at least 64KB remain, else 32KB
    likewise, else 4KB likewise.  When none qualifies, qspi_page_wr returns
    -EOPNOTSUPP and touches nothing, and the write attempt of qspi_write is
    then exactly the read-modify-write of the same request; when a size
    qualifies, qspi_page_wr consumes that size and never returns
    -EOPNOTSUPP, so the signal is distinct from every I/O error.  On a
    working controller the attempt of a request that does not qualify
    succeeds through the fallback: the lack of alignment alone never makes a
    write fail. *)
Theorem page_wr_selects_or_falls_back ubuf upos page off len :
  qspi_get_page_io_size off len = page_io_size_spec off len /\
  (forall (D : Device) (flash : @xrt_qspi D),
     qspi_get_page_io_size off len = 0 ->
     qspi_page_wr ubuf upos page off len flash
     = Some (- EOPNOTSUPP, page, len, flash) /\
     qspi_write_attempt ubuf upos page off len flash
     = qspi_page_rmw ubuf upos page off len flash) /\
  (forall (D : Device) (flash : @xrt_qspi D),
     qspi_get_page_io_size off len <> 0 ->
     forall r b c f,
       qspi_page_wr ubuf upos page off len flash = Some (r, b, c, f) ->
       r <> - EOPNOTSUPP /\ c = qspi_get_page_io_size off len) /\
  (forall s (f : @xrt_qspi Mock.device) m,
     qspi_get_page_io_size off len = 0 ->
     healthy s f ->
     sector_known s (sector (qspi_offset2faddr off)) f ->
     is_write_cmd (write_cmd (vendor f)) ->
     (forall a, Mock.mem (Mock.the_chip s (qspi_regs f)) a = m a) ->
     (forall a, is_byte (m a)) ->
     0 <= off < 2 ^ 63 - 4096 -> 0 < len < 2 ^ 64 -> 0 <= upos ->
     upos + Z.min len (4096 - off mod 4096) <= Z.of_nat (List.length ubuf) ->
     4096 <= Z.of_nat (List.length page) ->
     exists page' f',
       qspi_write_attempt ubuf upos page off len f
       = Some (0, page', Z.min len (4096 - off mod 4096), f')).
Proof.
  split; [apply qspi_get_page_io_size_spec |]. split; [| split].
  - intros D flash H. split.
    + apply qspi_page_wr_not_applicable, H.
    + apply qspi_write_attempt_fallback, H.
  - intros D flash H r b c f. apply qspi_page_wr_applicable, H.
  - intros s f m Hsz H Hk Hv Hm Hb Hoff Hlen Hup Hub Hpg.
    rewrite (qspi_write_attempt_fallback _ _ _ _ _ _ Hsz).
    destruct (qspi_page_rmw_healthy s f ubuf upos page off len m H Hk Hv Hm
                Hb Hoff Hlen Hup Hub Hpg) as (page' & f' & E & _).
    exists page', f'. exact E.
Qed.

Lemma page_wr_selects_or_falls_back_witness :
  let page := vmalloc QSPI_HUGE_PAGE_SIZE in
  let ubuf := repeat 0x5A 200 in
  qspi_get_page_io_size 4000 6000 = 0 /\
  qspi_write_attempt ubuf 0 page 4000 6000 demo_flash
  = qspi_page_rmw ubuf 0 page 4000 6000 demo_flash /\
  exists page' f',
    qspi_write_attempt ubuf 0 page 4000 6000 demo_flash
    = Some (0, page', 96, f').
Proof.
  intros page ubuf.
  assert (H : qspi_get_page_io_size 4000 6000 = 0) by reflexivity.
  pose proof (page_wr_selects_or_falls_back ubuf 0 page 4000 6000) as T.
  split; [exact H |]. split.
  - exact (proj2 (proj1 (proj2 T) Mock.device demo_flash H)).
  - apply (proj2 (proj2 (proj2 T)) 0 demo_flash (fun a => a mod 251) H).
    + healthy_by_evaluation.
    + right. discriminate.
    + right. reflexivity.
    + intros a. reflexivity.
    + intros a. unfold is_byte.
      pose proof (Z.mod_pos_bound a 251). lia.
    + lia.
    + lia.
    + lia.
    + vm_compute. discriminate.
    + vm_compute. discriminate.
Defined.

(** * The rest of the driver

    The page macros, the stream calls as a whole (what they return, what
    they never change), seeking, the attach sequence, and reading, erasing
    and writing over the flash backing store of the mock controller. *)

(** ** Page macros *)

Lemma lor_ones_low x k :
  0 <= k -> Z.lor x (Z.ones k) = x - x mod 2 ^ k + Z.ones k.
Proof.
  intros Hk. pose proof (Z.add_lor_land x (Z.ones k)) as H.
  rewrite Z.land_ones in H by lia. lia.
Qed.

Lemma QSPI_PAGE_ROUNDUP_mod off :
  0 <= off < 2 ^ 63 - 4096 ->
  QSPI_PAGE_ROUNDUP off = off - off mod 4096 + 4096.
Proof.
  intros H. unfold QSPI_PAGE_ROUNDUP. rewrite QSPI_PAGE_OFFSET_mod by lia.
  change QSPI_PAGE_SIZE with 4096.
  destruct (Z.eqb_spec (off mod 4096) 0) as [E | E]; cbn [negb].
  - rewrite u64_small by lia. lia.
  - unfold round_up. change (4096 - 1) with (Z.ones 12).
    rewrite lor_ones_low by lia. change (Z.ones 12) with 4095.
    change (2 ^ 12) with 4096.
    rewrite u64_small; Z.div_mod_to_equations; lia.
Qed.

(** X1.  For an offset from 0 to below 2^63 - 4KB, QSPI_PAGE_ROUNDUP gives
    the next 4KB boundary strictly above the offset: it is a multiple of
    4KB, lies above the offset by at most 4KB, and is the aligned offset
    plus one page.  An offset that is already aligned is rounded up to the
    next page, not to itself.  Negative offsets and the last 4KB below 2^63
    are not covered. *)
Theorem QSPI_PAGE_ROUNDUP_next_boundary off :
  0 <= off < 2 ^ 63 - QSPI_PAGE_SIZE ->
  QSPI_PAGE_ROUNDUP off mod QSPI_PAGE_SIZE = 0 /\
  off < QSPI_PAGE_ROUNDUP off <= off + QSPI_PAGE_SIZE /\
  QSPI_PAGE_ROUNDUP off = QSPI_PAGE_ALIGN off + QSPI_PAGE_SIZE.
Proof.
  change QSPI_PAGE_SIZE with 4096. intros H.
  rewrite QSPI_PAGE_ROUNDUP_mod, QSPI_PAGE_ALIGN_mod by lia.
  Z.div_mod_to_equations. lia.
Qed.

Lemma QSPI_PAGE_ROUNDUP_next_boundary_witness :
  QSPI_PAGE_ROUNDUP 4000 mod QSPI_PAGE_SIZE = 0 /\
  4000 < QSPI_PAGE_ROUNDUP 4000 <= 4000 + QSPI_PAGE_SIZE /\
  QSPI_PAGE_ROUNDUP 4000 = QSPI_PAGE_ALIGN 4000 + QSPI_PAGE_SIZE.
Proof.
  apply (QSPI_PAGE_ROUNDUP_next_boundary 4000). vm_compute. split; [discriminate | reflexivity].
Defined.

Lemma QSPI_PAGE_OFFSET_u64 off : QSPI_PAGE_OFFSET off = u64 off mod 4096.
Proof.
  unfold QSPI_PAGE_OFFSET. change QSPI_PAGE_MASK with (Z.ones 12).
  apply Z.land_ones. lia.
Qed.

Lemma QSPI_PAGE_ALIGN_u64 off :
  QSPI_PAGE_ALIGN off = u64 off - u64 off mod 4096.
Proof.
  unfold QSPI_PAGE_ALIGN.
  assert (Hx : 0 <= u64 off < 2 ^ 64) by (apply Z.mod_pos_bound; lia).
  generalize dependent (u64 off). intros x Hx.
  change (u64 (Z.lnot QSPI_PAGE_MASK))
    with (Z.land (Z.lnot (Z.ones 12)) (Z.ones 64)).
  rewrite (Z.land_comm (Z.lnot _)), Z.land_assoc, (Z.land_ones x 64) by lia.
  rewrite Z.mod_small by lia.
  rewrite <- Z.ldiff_land, Z.ldiff_ones_r by lia.
  rewrite Z.shiftl_mul_pow2, Z.shiftr_div_pow2 by lia.
  change (2 ^ 12) with 4096. Z.div_mod_to_equations. lia.
Qed.

(** X2.  QSPI_PAGE_ALIGN and QSPI_PAGE_OFFSET split the 64-bit pattern of
    any offset into a multiple of 4KB and a remainder below 4KB. *)
Theorem page_align_offset_split off :
  QSPI_PAGE_ALIGN off + QSPI_PAGE_OFFSET off = u64 off /\
  0 <= QSPI_PAGE_OFFSET off < QSPI_PAGE_SIZE /\
  QSPI_PAGE_ALIGN off mod QSPI_PAGE_SIZE = 0.
Proof.
  rewrite QSPI_PAGE_ALIGN_u64, QSPI_PAGE_OFFSET_u64.
  change QSPI_PAGE_SIZE with 4096.
  Z.div_mod_to_equations. lia.
Qed.

(** ** Offsets outside the address model *)

(** X3.  The decomposition drops bits 32 to 55 of a flat offset: an offset
    and the same offset with any value put into those bits decompose to the
    same slave, sector and address bytes, so both name the same flash
    byte. *)
Theorem flat_offset_bits_32_55_dropped addr k :
  flat_offset_representable addr -> 0 <= k < 2 ^ 24 ->
  qspi_offset2faddr (addr + k * 2 ^ 32) = qspi_offset2faddr addr.
Proof.
  intros [Hr Hz] Hk.
  rewrite Z.land_ones in Hz by lia.
  rewrite Z.shiftr_div_pow2 in Hz by lia.
  unfold qspi_offset2faddr, u8. rewrite !Z.shiftr_div_pow2 by lia.
  f_equal; Z.div_mod_to_equations; lia.
Qed.

Lemma flat_offset_bits_32_55_dropped_witness :
  qspi_offset2faddr (0x01000000020A0B0C + 5 * 2 ^ 32)
  = qspi_offset2faddr 0x01000000020A0B0C.
Proof.
  apply (flat_offset_bits_32_55_dropped 0x01000000020A0B0C 5).
  - split; [lia | reflexivity].
  - lia.
Defined.

(* is_valid_offset *)
Lemma is_valid_offset_low32 {D : Device} (flash : xrt_qspi) off :
  is_valid_offset flash off = (chip_addr off <? flash_size flash).
Proof.
  unfold is_valid_offset. cbv zeta.
  rewrite qspi_faddr2offset_sum
    by (apply set_slave_wf; [unfold is_byte; lia | apply qspi_offset2faddr_wf]).
  cbn [set_slave slave sector addr_lo addr_mid addr_hi].
  pose proof (chip_addr_faddr off) as H. cbv zeta in H.
  replace (0 * 2 ^ 56 + sector (qspi_offset2faddr off) * 2 ^ 24 +
     addr_hi (qspi_offset2faddr off) * 2 ^ 16 +
     addr_mid (qspi_offset2faddr off) * 2 ^ 8 +
     addr_lo (qspi_offset2faddr off)) with (chip_addr off) by lia.
  assert (0 <= chip_addr off < 2 ^ 32) by (apply Z.mod_pos_bound; lia).
  rewrite s64_small, u64_small by lia. reflexivity.
Qed.

(** X4.  The boundary check is_valid_offset looks at the low 32 bits of
    the offset only (sector byte and in-sector address): the offset passes
    exactly when those are below flash_size, whatever the slave byte and
    bits 32 to 55 hold. *)
Theorem is_valid_offset_low_32_bits {D : Device} (flash : xrt_qspi) off :
  is_valid_offset flash off = (off mod 2 ^ 32 <? flash_size flash).
Proof. exact (is_valid_offset_low32 flash off). Qed.

Lemma chip_addr_chunk x len :
  0 <= x -> 0 <= len -> x mod 4096 + len <= 4096 ->
  chip_addr x + len <= 2 ^ 32.
Proof. intros. unfold chip_addr. Z.div_mod_to_equations. lia. Qed.

Lemma slave_low32 off : 0 <= off < 2 ^ 32 -> slave (qspi_offset2faddr off) = 0.
Proof.
  intros H. cbn [qspi_offset2faddr slave]. unfold u8.
  rewrite Z.shiftr_div_pow2 by lia.
  rewrite (Z.div_small off) by lia. reflexivity.
Qed.

Lemma chip_addr_low32 x : 0 <= x < 2 ^ 32 -> chip_addr x = x.
Proof. intros H. unfold chip_addr. apply Z.mod_small. exact H. Qed.

(** ** Seeking *)

(** X5.  qspi_llseek keeps the file position non-negative.  It either
    returns the new position, which is then the position of the file, or
    fails with -EINVAL and leaves the position where it was; any whence but
    SEEK_SET (0) and SEEK_CUR (1) fails. *)
Theorem qspi_llseek_position f_pos off whence :
  0 <= f_pos ->
  let r := fst (qspi_llseek f_pos off whence) in
  let f_pos' := snd (qspi_llseek f_pos off whence) in
  0 <= f_pos' /\
  ((0 <= r /\ f_pos' = r) \/ (r = - EINVAL /\ f_pos' = f_pos)) /\
  (whence <> 0 -> whence <> 1 -> r = - EINVAL).
Proof.
  intros H. cbv zeta. unfold qspi_llseek.
  destruct (Z.eqb_spec whence 0) as [E0 | E0].
  - destruct (Z.ltb_spec off 0); cbn [fst snd].
    + split; [lia |]. split; [right; split; reflexivity | intros; lia].
    + split; [lia |]. split; [left; split; [lia | reflexivity] | intros; lia].
  - destruct (Z.eqb_spec whence 1) as [E1 | E1].
    + destruct (Z.ltb_spec (s64 (f_pos + off)) 0); cbn [fst snd].
      * split; [lia |]. split; [right; split; reflexivity | intros; lia].
      * split; [lia |]. split; [left; split; [lia | reflexivity] | intros; lia].
    + cbn [fst snd]. split; [lia |].
      split; [right; split; reflexivity | reflexivity].
Qed.

Lemma qspi_llseek_position_witness :
  let r := fst (qspi_llseek 100 (-40) 1) in
  let f_pos' := snd (qspi_llseek 100 (-40) 1) in
  0 <= f_pos' /\
  ((0 <= r /\ f_pos' = r) \/ (r = - EINVAL /\ f_pos' = 100)) /\
  (1 <> 0 -> 1 <> 1 -> r = - EINVAL).
Proof. apply (qspi_llseek_position 100 (-40) 1). lia. Defined.

(** ** The busy wait *)

Lemma busy_wait_timeout {T : Type} (cond : T -> bool * T) (n : nat) :
  forall s,
    fst (busy_wait n cond s) = true <->
    (forall k, (k < n)%nat -> fst (cond (after_polls k cond s)) = false).
Proof.
  induction n as [| n IH]; intros s; cbn [busy_wait].
  - split; [intros _ k Hk; lia | reflexivity].
  - destruct (cond s) as [c s1] eqn:E. destruct c.
    + cbn [fst]. split; [discriminate |].
      intros H. specialize (H 0%nat ltac:(lia)). cbn [after_polls] in H.
      rewrite E in H. discriminate H.
    + rewrite IH. split.
      * intros H [| k] Hk; cbn [after_polls]; [rewrite E; reflexivity |].
        rewrite E. cbn [snd]. apply H. lia.
      * intros H k Hk. specialize (H (S k) ltac:(lia)).
        cbn [after_polls] in H. rewrite E in H. exact H.
Qed.

Lemma busy_wait_timeout_state {T : Type} (cond : T -> bool * T) (n : nat) :
  forall s,
    fst (busy_wait n cond s) = true ->
    snd (busy_wait n cond s) = after_polls n cond s.
Proof.
  induction n as [| n IH]; intros s; cbn [busy_wait after_polls];
    [reflexivity |].
  destruct (cond s) as [c s1]. destruct c; [discriminate |]. apply IH.
Qed.

(** X6.  QSPI_BUSY_WAIT reports a timeout exactly when the condition came
    out false at each of its QSPI_BUSY_RETRY polls; the condition is then
    not polled again: the state is the one those polls left. *)
Theorem QSPI_BUSY_WAIT_timeout {T : Type} (cond : T -> bool * T) (s : T) :
  (fst (QSPI_BUSY_WAIT cond s) = true <->
   forall k, (k < QSPI_BUSY_RETRY)%nat ->
             fst (cond (after_polls k cond s)) = false) /\
  (fst (QSPI_BUSY_WAIT cond s) = true ->
   snd (QSPI_BUSY_WAIT cond s) = after_polls QSPI_BUSY_RETRY cond s).
Proof.
  split; [apply busy_wait_timeout | apply busy_wait_timeout_state].
Qed.

Lemma busy_wait_invariant {T : Type} (P : T -> Prop)
  (cond : T -> bool * T) :
  (forall s, P s -> P (snd (cond s))) ->
  forall n s, P s -> P (snd (busy_wait n cond s)).
Proof.
  intros Hc. induction n as [| n IH]; intros s Hs; cbn [busy_wait snd];
    [exact Hs |].
  specialize (Hc s Hs). destruct (cond s) as [c s1]. cbn [snd] in Hc.
  destruct c; cbn [snd]; [exact Hc | apply IH, Hc].
Qed.

Lemma busy_wait_never {T : Type} (P : T -> Prop) (cond : T -> bool * T) :
  (forall s, P s -> fst (cond s) = false /\ P (snd (cond s))) ->
  forall n s, P s -> fst (busy_wait n cond s) = true.
Proof.
  intros Hc. induction n as [| n IH]; intros s Hs; cbn [busy_wait];
    [reflexivity |].
  destruct (Hc s Hs) as [H1 H2]. destruct (cond s) as [c s1].
  cbn [fst snd] in *. subst c. apply IH, H2.
Qed.

(** ** Vendors and the ID read *)

Lemma code2sectors_cases v code :
  In v vendors ->
  code2sectors v code = 0 \/
  exists k, 0 <= k <= 4 /\ code2sectors v code = 2 ^ k.
Proof.
  intros [<- | [<- | []]]; cbn [code2sectors micron macronix].
  - unfold micron_code2sectors.
    repeat match goal with
    | |- context [if ?b then _ else _] => destruct b
    end; [right; exists 0 | right; exists 0 | right; exists 1 | right; exists 2
         | right; exists 3 | right; exists 4 | left]; try (split; [lia | reflexivity]).
    reflexivity.
  - unfold macronix_code2sectors.
    destruct (Z.ltb_spec code 56); cbn [orb]; [left; reflexivity |].
    destruct (code >? 60) eqn:E; [left; reflexivity |].
    right. exists (code - 56). split; [lia |].
    unfold BIT. rewrite Z.shiftl_mul_pow2 by lia. lia.
Qed.

Lemma vendor_sectors v code :
  In v vendors -> 0 <= code2sectors v code <= 16.
Proof.
  intros Hin. destruct (code2sectors_cases v code Hin) as [E | (k & Hk & E)];
    rewrite E; [lia |].
  split; [apply Z.pow_nonneg; lia | apply (Z.pow_le_mono_r 2 k 4); lia].
Qed.

Lemma find_vendor v x :
  In v vendors -> vendor_id v = x ->
  find (fun v => x =? vendor_id v) vendors = Some v.
Proof.
  intros [<- | [<- | []]] <-; reflexivity.
Qed.

Lemma find_vendor_none x :
  (forall v, In v vendors -> vendor_id v <> x) ->
  find (fun v => x =? vendor_id v) vendors = None.
Proof.
  intros H. destruct (find _ vendors) as [v |] eqn:E; [| reflexivity].
  apply find_some in E. destruct E as [Hin Hx].
  apply Z.eqb_eq in Hx. exfalso. apply (H v Hin). symmetry. exact Hx.
Qed.

(** X7.  qspi_get_ID returns 0 or -EINVAL, on any device.  When it returns
    0 the vendor is one of the vendor table and the flash size is 16MB,
    32MB, 64MB, 128MB or 256MB. *)
Theorem qspi_get_ID_result {D : Device} (flash : xrt_qspi) :
  let r := fst (qspi_get_ID flash) in
  let flash' := snd (qspi_get_ID flash) in
  (r = 0 \/ r = - EINVAL) /\
  (r = 0 ->
   In (vendor flash') vendors /\
   exists k, 0 <= k <= 4 /\ flash_size flash' = 2 ^ k * (16 * 1024 * 1024)).
Proof.
  cbv zeta. unfold qspi_get_ID. cbv zeta.
  destruct (qspi_transaction _ _ _ _) as [[ret cmd] f1].
  destruct (negb (ret =? 0)); cbn [fst snd].
  { split; [right; reflexivity | discriminate]. }
  destruct (find _ vendors) as [v |] eqn:Ef; cbn [fst snd].
  2:{ split; [right; reflexivity | discriminate]. }
  apply find_some in Ef. destruct Ef as [Hin _].
  cbn [flash_size set_flash_size].
  destruct (code2sectors_cases v (buf_get cmd 3) Hin) as [E | (k & Hk & E)];
    rewrite E.
  - cbn [fst snd]. split; [right; reflexivity | discriminate].
  - assert (Hp : 1 <= 2 ^ k <= 16).
    { split; [apply (Z.pow_le_mono_r 2 0 k); lia
             | apply (Z.pow_le_mono_r 2 k 4); lia]. }
    rewrite u64_small by lia.
    destruct (Z.eqb_spec (2 ^ k * (16 * 1024 * 1024)) 0) as [E0 | E0]; [lia |].
    cbn [fst snd vendor set_flash_size set_vendor flash_size].
    split; [left; reflexivity |]. intros _. split; [exact Hin |].
    exists k. split; [lia | reflexivity].
Qed.

(** ** Return values of the stream calls *)

Lemma clamp_range n x : 0 <= n -> 0 <= Z.min n (u64 x) <= n.
Proof.
  intros H. pose proof (Z.mod_pos_bound x (2 ^ 64) ltac:(lia)).
  unfold u64. lia.
Qed.

Section StreamCodes.
Context {D : Device}.
Implicit Types flash : xrt_qspi.

Lemma qspi_buf_rdwr_code buf pos off len write flash r b f :
  qspi_buf_rdwr buf pos off len write flash = Some (r, b, f) -> io_code r.
Proof. unfold qspi_buf_rdwr. apply qspi_buf_rdwr_loop_code. Qed.

Lemma qspi_page_rmw_code ubuf upos kbuf off cnt flash r b c f :
  qspi_page_rmw ubuf upos kbuf off cnt flash = Some (r, b, c, f) ->
  io_code r \/ r = - EFAULT.
Proof.
  unfold qspi_page_rmw. cbv zeta.
  match goal with
  | |- context [if ?c then qspi_buf_rdwr ?pa ?pb ?pd ?pe ?pw ?pf else ?z] =>
    assert (H1 : forall r' b' f',
               (if c then qspi_buf_rdwr pa pb pd pe pw pf else z)
               = Some (r', b', f') -> io_code r')
  end.
  { intros r1 b1 f1. destruct (negb _).
    - apply qspi_buf_rdwr_code.
    - intros [= <- _ _]. apply io_code_0. }
  destruct (if negb _ then _ else _) as [[[r1 b1] f1] |]; [| discriminate].
  specialize (H1 _ _ _ eq_refl).
  destruct (negb (r1 =? 0)).
  { intros [= <- _ _ _]. left. exact H1. }
  destruct (copy_from_user _ _ _ _ _) as [unc kb].
  destruct (negb (unc =? 0)).
  { intros [= <- _ _ _]. right. reflexivity. }
  match goal with
  | |- context [if ?c then qspi_buf_rdwr ?pa ?pb ?pd ?pe ?pw ?pf else ?z] =>
    assert (H2 : forall r' b' f',
               (if c then qspi_buf_rdwr pa pb pd pe pw pf else z)
               = Some (r', b', f') -> io_code r')
  end.
  { intros r2 b2 f2. destruct (negb _).
    - apply qspi_buf_rdwr_code.
    - intros [= <- _ _]. apply io_code_0. }
  destruct (if negb _ then _ else _) as [[[r2 b2] f2] |]; [| discriminate].
  specialize (H2 _ _ _ eq_refl).
  destruct (negb (r2 =? 0)).
  { intros [= <- _ _ _]. left. exact H2. }
  match goal with |- context [qspi_page_erase ?a ?b ?c] =>
    pose proof (qspi_page_erase_code a b c) as H3;
    destruct (qspi_page_erase a b c) as [r3 f3] end.
  cbn [fst] in H3. destruct (r3 =? 0).
  - destruct (qspi_buf_rdwr _ _ _ _ _ _) as [[[r4 b4] f4] |] eqn:E4;
      [| discriminate].
    intros [= <- _ _ _]. left. eapply qspi_buf_rdwr_code, E4.
  - intros [= <- _ _ _]. left. exact H3.
Qed.

Lemma qspi_page_wr_code ubuf upos kbuf off cnt flash r b c f :
  qspi_page_wr ubuf upos kbuf off cnt flash = Some (r, b, c, f) ->
  io_code r \/ r = - EFAULT \/ r = - EOPNOTSUPP.
Proof.
  unfold qspi_page_wr. cbv zeta.
  destruct (_ =? 0).
  { intros [= <- _ _ _]. right; right; reflexivity. }
  destruct (copy_from_user _ _ _ _ _) as [unc kb].
  destruct (negb (unc =? 0)).
  { intros [= <- _ _ _]. right; left; reflexivity. }
  match goal with |- context [qspi_page_erase ?a ?b ?c] =>
    pose proof (qspi_page_erase_code a b c) as H3;
    destruct (qspi_page_erase a b c) as [r3 f3] end.
  cbn [fst] in H3. destruct (r3 =? 0).
  - destruct (qspi_buf_rdwr _ _ _ _ _ _) as [[[r4 b4] f4] |] eqn:E4;
      [| discriminate].
    intros [= <- _ _ _]. left. eapply qspi_buf_rdwr_code, E4.
  - intros [= <- _ _ _]. left. exact H3.
Qed.

Lemma qspi_write_attempt_code ubuf upos page off len flash r b c f :
  qspi_write_attempt ubuf upos page off len flash = Some (r, b, c, f) ->
  io_code r \/ r = - EFAULT.
Proof.
  unfold qspi_write_attempt.
  destruct (qspi_page_wr _ _ _ _ _ _) as [[[[r1 b1] c1] f1] |] eqn:E1;
    [| discriminate].
  apply qspi_page_wr_code in E1.
  destruct (Z.eqb_spec r1 0) as [-> | N]; cbn [negb].
  { intros [= <- _ _ _]. left. apply io_code_0. }
  destruct (Z.eqb_spec r1 (- EOPNOTSUPP)) as [-> | N'].
  - apply qspi_page_rmw_code.
  - intros [= <- _ _ _]. destruct E1 as [H | [H | H]]; auto. contradiction.
Qed.

Lemma qspi_write_loop_code fuel : forall buf page n off cnt flash r c f,
  qspi_write_loop fuel buf page n off cnt flash = Some (r, c, f) ->
  io_code r \/ r = - EFAULT.
Proof.
  induction fuel as [| fuel IH]; intros buf page n off cnt flash r c f;
    cbn [qspi_write_loop]; destruct (cnt <? n).
  - discriminate.
  - intros [= <- _ _]. left. apply io_code_0.
  - destruct (qspi_write_attempt _ _ _ _ _ _) as [[[[r1 b1] c1] f1] |] eqn:E1;
      [| discriminate].
    apply qspi_write_attempt_code in E1.
    destruct (negb (r1 =? 0)).
    + intros [= <- _ _]. exact E1.
    + apply IH.
  - intros [= <- _ _]. left. apply io_code_0.
Qed.

Lemma qspi_write_locked_code buf n off flash r c f :
  qspi_write_locked buf n off flash = Some (r, c, f) ->
  io_code r \/ r = - EFAULT.
Proof.
  unfold qspi_write_locked. cbv zeta.
  destruct (qspi_wait_until_ready _) as [rdy f1].
  destruct (negb rdy).
  - intros [= <- _ _]. left. apply io_code_EINVAL.
  - apply qspi_write_loop_code.
Qed.

Lemma qspi_do_read_loop_code fuel : forall page kbuf n off cnt flash r b f,
  qspi_do_read_loop fuel page kbuf n off cnt flash = Some (r, b, f) ->
  io_code r.
Proof.
  induction fuel as [| fuel IH]; intros page kbuf n off cnt flash r b f;
    cbn [qspi_do_read_loop]; destruct (cnt <? n).
  - discriminate.
  - intros [= <- _ _]. apply io_code_0.
  - cbv zeta.
    destruct (qspi_buf_rdwr _ _ _ _ _ _) as [[[r1 b1] f1] |] eqn:E1;
      [| discriminate].
    apply qspi_buf_rdwr_code in E1.
    destruct (negb (r1 =? 0)).
    + intros [= <- _ _]. exact E1.
    + apply IH.
  - intros [= <- _ _]. apply io_code_0.
Qed.

Variable vmalloc_ok : Z -> bool.

Lemma qspi_do_read_code kbuf n off flash r b f :
  qspi_do_read vmalloc_ok kbuf n off flash = Some (r, b, f) ->
  io_code r \/ r = - ENOMEM.
Proof.
  unfold qspi_do_read. cbv zeta.
  destruct (negb (vmalloc_ok QSPI_PAGE_SIZE)).
  { intros [= <- _ _]. right. reflexivity. }
  destruct (qspi_wait_until_ready _) as [rdy f1].
  destruct (negb rdy).
  - intros [= <- _ _]. left. apply io_code_EINVAL.
  - intros H. left. eapply qspi_do_read_loop_code, H.
Qed.

(** What qspi_read returns when it returns: either a count between 0 and
    the count asked for, with *off advanced by exactly that count, or one of
    -ENOMEM, -EINVAL, -ETIMEDOUT and -EFAULT with *off unchanged. *)
Lemma qspi_read_codes ubuf n off flash r off' :
  0 <= n < 2 ^ 63 -> - 2 ^ 63 <= off < 2 ^ 63 ->
  read_outcome (qspi_read vmalloc_ok ubuf n off flash) = Some (r, off') ->
  (0 <= r <= n /\ off' = s64 (off + r)) \/
  (In r [- ENOMEM; - EINVAL; - ETIMEDOUT; - EFAULT] /\ off' = off).
Proof.
  intros Hn Hoff. unfold qspi_read.
  destruct ((n =? 0) || negb (is_valid_offset flash off)).
  { cbn [read_outcome option_map fst snd]. intros [= <- <-].
    left. rewrite Z.add_0_r, s64_small by lia. split; [lia | reflexivity]. }
  pose proof (clamp_range n (flash_size flash - u64 off) ltac:(lia)) as Hc.
  destruct (negb (vmalloc_ok _)).
  { cbn [read_outcome option_map fst snd]. intros [= <- <-].
    right. split; [left; reflexivity | reflexivity]. }
  destruct (qspi_do_read _ _ _ _ _) as [[[r1 b1] f1] |] eqn:E1;
    [| discriminate].
  apply qspi_do_read_code in E1.
  destruct (Z.eqb_spec r1 0) as [-> | N].
  - destruct (copy_to_user _ _ _) as [unc ub].
    destruct (negb (unc =? 0)); cbn [negb Z.eqb read_outcome option_map fst snd].
    + change (negb (- EFAULT =? 0)) with true. cbv iota.
      cbn [read_outcome option_map fst snd]. 
      intros E. inversion E. subst r off'.
      right. split; [cbn [In]; auto 6 | reflexivity].
    + intros [= <- <-]. left. rewrite s64_small by lia.
      split; [lia | reflexivity].
  - cbn [negb]. destruct (Z.eqb_spec r1 0) as [? | _]; [contradiction |].
    cbn [negb read_outcome option_map fst snd]. intros [= <- <-].
    right. split; [| reflexivity].
    destruct E1 as [[H | [H | H]] | H]; subst r1; cbn [In]; auto 6.
Qed.

(** The same for qspi_write, with -ENOSPC for a request out of bounds;
    -EOPNOTSUPP, the signal of qspi_page_wr, never reaches the caller. *)
Lemma qspi_write_codes buf n off flash r off' :
  0 <= n < 2 ^ 63 ->
  write_outcome (qspi_write vmalloc_ok buf n off flash) = Some (r, off') ->
  (0 <= r <= n /\ off' = s64 (off + r)) \/
  (In r [- ENOSPC; - ENOMEM; - EINVAL; - ETIMEDOUT; - EFAULT] /\ off' = off).
Proof.
  intros Hn. unfold qspi_write.
  destruct ((n =? 0) || negb (is_valid_offset flash off)).
  { cbn [write_outcome option_map fst snd]. intros [= <- <-].
    right. split; [left; reflexivity | reflexivity]. }
  destruct (negb (vmalloc_ok QSPI_HUGE_PAGE_SIZE)).
  { cbn [write_outcome option_map fst snd]. intros [= <- <-].
    right. split; [right; left; reflexivity | reflexivity]. }
  pose proof (clamp_range n (flash_size flash - u64 off) ltac:(lia)) as Hc.
  destruct (qspi_write_locked _ _ _ _) as [[[r1 c1] f1] |] eqn:E1;
    [| discriminate].
  apply qspi_write_locked_code in E1.
  destruct (Z.eqb_spec r1 0) as [-> | N]; cbn [negb write_outcome option_map fst snd].
  - intros [= <- <-]. left. rewrite s64_small by lia. split; [lia | reflexivity].
  - intros [= <- <-]. right. split; [| reflexivity].
    destruct E1 as [[H | [H | H]] | H]; subst r1; cbn [In]; auto 6.
    contradiction.
Qed.

End StreamCodes.

(** ** What I/O leaves alone *)

Create HintDb qspi_setup.

Section Setup.
Context {D : Device}.

Implicit Types flash : xrt_qspi.

(** One call: record what it does to the setup, then name its results. *)
Ltac call :=
  match goal with
  | |- context [match ?c with pair _ _ => _ end] =>
      lazymatch c with
      | ?g ?f =>
          lazymatch type of f with
          | xrt_qspi =>
              let S := fresh "S" in
              assert (S : setup_of (snd c) = setup_of f)
                by (auto with qspi_setup);
              destruct c; cbn [snd] in S
          | _ => destruct c
          end
      | _ => destruct c
      end
  | |- context [if ?b then _ else _] => destruct b
  end.

Ltac setup := repeat call; cbn [snd]; try congruence.

Lemma qspi_reg_rd_setup reg flash :
  setup_of (snd (qspi_reg_rd reg flash)) = setup_of flash.
Proof. unfold qspi_reg_rd. destruct (ioread32 _ _). reflexivity. Qed.

Lemma qspi_reg_wr_setup reg val flash :
  setup_of (qspi_reg_wr reg val flash) = setup_of flash.
Proof. reflexivity. Qed.

Lemma qspi_get_status_setup flash :
  setup_of (snd (qspi_get_status flash)) = setup_of flash.
Proof. apply qspi_reg_rd_setup. Qed.

Lemma qspi_get_ctrl_setup flash :
  setup_of (snd (qspi_get_ctrl flash)) = setup_of flash.
Proof. apply qspi_reg_rd_setup. Qed.

Lemma qspi_read8_setup flash :
  setup_of (snd (qspi_read8 flash)) = setup_of flash.
Proof.
  unfold qspi_read8. pose proof (qspi_reg_rd_setup reg_rx flash) as H.
  destruct (qspi_reg_rd reg_rx flash). exact H.
Qed.

Lemma qspi_has_err_setup flash :
  setup_of (snd (qspi_has_err flash)) = setup_of flash.
Proof.
  unfold qspi_has_err. pose proof (qspi_get_status_setup flash) as H.
  destruct (qspi_get_status flash). exact H.
Qed.

#[local] Hint Resolve qspi_reg_rd_setup qspi_get_status_setup qspi_get_ctrl_setup
  qspi_read8_setup qspi_has_err_setup : qspi_setup.

Lemma qspi_rx_loop_setup n : forall cnt buf flash,
  setup_of (snd (qspi_rx_loop n cnt buf flash)) = setup_of flash.
Proof.
  induction n as [| n IH]; intros cnt buf flash; cbn [qspi_rx_loop];
    [reflexivity |].
  pose proof (qspi_get_status_setup flash) as H1.
  destruct (qspi_get_status flash) as [st f1]. cbn [snd] in H1.
  destruct (negb _); [exact H1 |].
  pose proof (qspi_read8_setup f1) as H2.
  destruct (qspi_read8 f1) as [c f2]. cbn [snd] in H2.
  rewrite IH. congruence.
Qed.
#[local] Hint Resolve qspi_rx_loop_setup : qspi_setup.

Lemma qspi_rx_setup buf len flash :
  setup_of (snd (qspi_rx buf len flash)) = setup_of flash.
Proof. unfold qspi_rx. setup. Qed.

Lemma qspi_tx_loop_setup n : forall i buf flash,
  setup_of (qspi_tx_loop n i buf flash) = setup_of flash.
Proof.
  induction n as [| n IH]; intros i buf flash; cbn [qspi_tx_loop];
    [reflexivity |]. rewrite IH. reflexivity.
Qed.

Lemma qspi_tx_done_setup flash :
  setup_of (snd (qspi_tx_done flash)) = setup_of flash.
Proof. unfold qspi_tx_done. setup. Qed.

Lemma qspi_fifo_is_reset_setup flash :
  setup_of (snd (qspi_fifo_is_reset flash)) = setup_of flash.
Proof. unfold qspi_fifo_is_reset. setup. Qed.

Lemma QSPI_BUSY_WAIT_setup cond flash :
  (forall fl, setup_of (snd (cond fl)) = setup_of fl) ->
  setup_of (snd (QSPI_BUSY_WAIT cond flash)) = setup_of flash.
Proof.
  intros Hc. unfold QSPI_BUSY_WAIT.
  apply (busy_wait_invariant (fun s => setup_of s = setup_of flash));
    [| reflexivity].
  intros s Hs. rewrite Hc. exact Hs.
Qed.

#[local] Hint Resolve qspi_rx_setup qspi_tx_done_setup qspi_fifo_is_reset_setup
  : qspi_setup.

Lemma qspi_tx_setup buf len flash :
  setup_of (snd (qspi_tx buf len flash)) = setup_of flash.
Proof.
  unfold qspi_tx.
  pose proof (qspi_get_ctrl_setup flash) as H1.
  destruct (qspi_get_ctrl flash) as [ctrl f1]. cbn [snd] in H1.
  match goal with |- context [QSPI_BUSY_WAIT qspi_tx_done ?f] =>
    pose proof (QSPI_BUSY_WAIT_setup qspi_tx_done f qspi_tx_done_setup) as H2;
    assert (H3 : setup_of f = setup_of f1)
      by (unfold qspi_set_ctrl; rewrite qspi_reg_wr_setup, qspi_tx_loop_setup;
          apply qspi_reg_wr_setup);
    destruct (QSPI_BUSY_WAIT qspi_tx_done f) as [t f2] end.
  cbn [snd] in H2. destruct t.
  - setup.
  - unfold qspi_set_ctrl.
    match goal with |- context [qspi_has_err ?f] =>
      pose proof (qspi_has_err_setup f) as H4;
      rewrite qspi_reg_wr_setup in H4;
      destruct (qspi_has_err f) as [e f3] end.
    cbn [snd] in H4. destruct e; cbn [snd]; congruence.
Qed.

Lemma qspi_reset_fifo_setup flash :
  setup_of (snd (qspi_reset_fifo flash)) = setup_of flash.
Proof.
  unfold qspi_reset_fifo.
  pose proof (qspi_fifo_is_reset_setup flash) as H1.
  destruct (qspi_fifo_is_reset flash) as [e f1]. cbn [snd] in H1.
  destruct e; [exact H1 |].
  pose proof (qspi_get_ctrl_setup f1) as H2.
  destruct (qspi_get_ctrl f1) as [ctrl f2]. cbn [snd] in H2.
  match goal with |- context [QSPI_BUSY_WAIT qspi_fifo_is_reset ?f] =>
    pose proof (QSPI_BUSY_WAIT_setup qspi_fifo_is_reset f
                  qspi_fifo_is_reset_setup) as H3;
    assert (H4 : setup_of f = setup_of f2) by apply qspi_reg_wr_setup;
    destruct (QSPI_BUSY_WAIT qspi_fifo_is_reset f) as [t f3] end.
  cbn [snd] in H3. destruct t; setup.
Qed.

#[local] Hint Resolve qspi_tx_setup qspi_reset_fifo_setup : qspi_setup.

Lemma qspi_activate_slave_setup index flash :
  setup_of (qspi_activate_slave index flash) = setup_of flash.
Proof. reflexivity. Qed.

Lemma qspi_transaction_setup buf len out flash :
  setup_of (snd (qspi_transaction buf len out flash)) = setup_of flash.
Proof.
  unfold qspi_transaction.
  pose proof (qspi_reset_fifo_setup flash) as H1.
  destruct (qspi_reset_fifo flash) as [r1 f1]. cbn [snd] in H1.
  destruct (negb (r1 =? 0)); [exact H1 |].
  destruct (_ >=? _); [exact H1 |].
  pose proof (qspi_tx_setup buf len
                (qspi_activate_slave (qspi_curr_slave f1) f1)) as H2.
  rewrite qspi_activate_slave_setup in H2.
  destruct (qspi_tx _ _ _) as [r2 f2]. cbn [snd] in H2.
  destruct (negb (r2 =? 0)); [cbn [snd]; congruence |].
  destruct out.
  - pose proof (qspi_rx_setup (Some buf) len f2) as H3.
    destruct (qspi_rx _ _ _) as [[r3 b3] f3]. cbn [snd] in *.
    rewrite qspi_activate_slave_setup. congruence.
  - pose proof (qspi_rx_setup None len f2) as H3.
    destruct (qspi_rx _ _ _) as [[r3 b3] f3]. cbn [snd] in *.
    rewrite qspi_activate_slave_setup. congruence.
Qed.
#[local] Hint Resolve qspi_transaction_setup : qspi_setup.

Lemma qspi_rx_loop_buf n : forall cnt buf flash,
  exists b,
    snd (fst (qspi_rx_loop n cnt (Some buf) flash)) = Some b /\
    List.length b = List.length buf.
Proof.
  induction n as [| n IH]; intros cnt buf flash; cbn [qspi_rx_loop].
  - exists buf. split; reflexivity.
  - destruct (qspi_get_status flash) as [st f1].
    destruct (negb _); [exists buf; split; reflexivity |].
    destruct (qspi_read8 f1) as [c f2].
    destruct (IH (cnt + 1) (buf_set buf cnt c) f2) as (b & E & Hl).
    exists b. split; [exact E |]. rewrite Hl. apply length_buf_set.
Qed.

Lemma qspi_rx_buf buf len flash :
  exists b,
    snd (fst (qspi_rx (Some buf) len flash)) = Some b /\
    List.length b = List.length buf.
Proof.
  unfold qspi_rx.
  destruct (qspi_rx_loop_buf (Z.to_nat len) 0 buf flash) as (b & E & Hl).
  destruct (qspi_rx_loop _ _ _ _) as [[r b1] f1]. cbn [fst snd] in E.
  subst b1. exists b. split; [| exact Hl].
  repeat match goal with
  | |- context [match ?c with pair _ _ => _ end] => destruct c
  | |- context [if ?c then _ else _] => destruct c
  end; reflexivity.
Qed.

Lemma qspi_transaction_length buf len out flash :
  List.length (snd (fst (qspi_transaction buf len out flash)))
  = List.length buf.
Proof.
  unfold qspi_transaction.
  destruct (qspi_reset_fifo flash) as [r1 f1].
  destruct (negb (r1 =? 0)); [reflexivity |].
  destruct (_ >=? _); [reflexivity |].
  destruct (qspi_tx _ _ _) as [r2 f2].
  destruct (negb (r2 =? 0)); [reflexivity |].
  destruct out.
  - destruct (qspi_rx_buf buf len f2) as (b & E & Hl).
    destruct (qspi_rx _ _ _) as [[r3 b3] f3]. cbn [fst snd] in *.
    subst b3. exact Hl.
  - destruct (qspi_rx _ _ _) as [[r3 b3] f3]. reflexivity.
Qed.

Lemma setup_of_set_io_buf b flash flash' :
  setup_of flash' = setup_of flash ->
  List.length b = List.length (io_buf flash) ->
  setup_of (set_io_buf b flash') = setup_of flash.
Proof.
  unfold setup_of, config_of. cbn [set_io_buf flash_size qspi_fifo_depth vendor
    io_buf qspi_curr_slave]. intros [= H1 H2 H3 H4 H5] Hl. congruence.
Qed.

Lemma setup_of_length flash flash' :
  setup_of flash' = setup_of flash ->
  List.length (io_buf flash') = List.length (io_buf flash).
Proof. unfold setup_of, config_of. intros [= _ _ _ H _]. exact H. Qed.

Lemma qspi_exec_io_cmd_setup len out flash :
  setup_of (snd (qspi_exec_io_cmd len out flash)) = setup_of flash.
Proof.
  unfold qspi_exec_io_cmd.
  pose proof (qspi_transaction_setup (io_buf flash) len out flash) as H1.
  pose proof (qspi_transaction_length (io_buf flash) len out flash) as H2.
  destruct (qspi_transaction _ _ _ _) as [[r b] f1]. cbn [fst snd] in *.
  apply setup_of_set_io_buf; assumption.
Qed.

Lemma qspi_is_ready_setup flash :
  setup_of (snd (qspi_is_ready flash)) = setup_of flash.
Proof. unfold qspi_is_ready. setup. Qed.

Lemma qspi_enable_write_setup flash :
  setup_of (snd (qspi_enable_write flash)) = setup_of flash.
Proof. unfold qspi_enable_write. setup. Qed.

#[local] Hint Resolve qspi_exec_io_cmd_setup qspi_is_ready_setup
  qspi_enable_write_setup : qspi_setup.

Lemma qspi_set_sector_setup sect flash :
  setup_of (snd (qspi_set_sector sect flash)) = setup_of flash.
Proof.
  unfold qspi_set_sector. destruct (sect =? _); [reflexivity |].
  pose proof (qspi_enable_write_setup flash) as H1.
  destruct (qspi_enable_write flash) as [r1 f1]. cbn [snd] in H1.
  destruct (negb (r1 =? 0)); [exact H1 |].
  pose proof (qspi_transaction_setup
                [QSPI_CMD_EXTENDED_ADDRESS_REG_WRITE; sect] 2 false f1) as H2.
  destruct (qspi_transaction _ _ _ _) as [[r2 b2] f2]. cbn [snd] in H2.
  destruct (negb (r2 =? 0)); cbn [snd]; [congruence |].
  change (setup_of (set_curr_sector sect f2)) with (setup_of f2).
  congruence.
Qed.
#[local] Hint Resolve qspi_set_sector_setup : qspi_setup.

Lemma qspi_setup_io_cmd_header_setup op faddr flash :
  setup_of (snd (qspi_setup_io_cmd_header op faddr flash)) = setup_of flash.
Proof.
  unfold qspi_setup_io_cmd_header.
  pose proof (qspi_set_sector_setup (sector faddr) flash) as H.
  destruct (qspi_set_sector _ _) as [r f1]. cbn [snd] in H.
  destruct (r =? 0); cbn [snd]; [| exact H].
  apply setup_of_set_io_buf; [exact H |].
  rewrite !length_buf_set. apply setup_of_length, H.
Qed.

Lemma qspi_wait_until_ready_setup flash :
  setup_of (snd (qspi_wait_until_ready flash)) = setup_of flash.
Proof.
  unfold qspi_wait_until_ready.
  pose proof (QSPI_BUSY_WAIT_setup qspi_is_ready flash qspi_is_ready_setup)
    as H.
  destruct (QSPI_BUSY_WAIT qspi_is_ready flash). exact H.
Qed.

#[local] Hint Resolve qspi_setup_io_cmd_header_setup qspi_wait_until_ready_setup
  : qspi_setup.

Lemma qspi_fifo_rd_setup off buf pos cnt flash :
  setup_of (snd (qspi_fifo_rd off buf pos cnt flash)) = setup_of flash.
Proof. unfold qspi_fifo_rd. cbv zeta. setup. Qed.

Lemma qspi_fifo_wr_setup off buf pos cnt flash :
  setup_of (snd (qspi_fifo_wr off buf pos cnt flash)) = setup_of flash.
Proof.
  unfold qspi_fifo_wr. cbv zeta.
  pose proof (qspi_setup_io_cmd_header_setup (write_cmd (vendor flash))
                (qspi_offset2faddr off) flash) as H1.
  destruct (qspi_setup_io_cmd_header _ _ _) as [[r1 hl] f1]. cbn [snd] in H1.
  destruct (negb (r1 =? 0)); [exact H1 |].
  destruct (qspi_fifo_wr_len _ _ _) as [pl tl].
  match goal with |- context [qspi_enable_write ?f] =>
    assert (H2 : setup_of f = setup_of flash)
      by (apply setup_of_set_io_buf; [exact H1 |];
          rewrite length_memcpy; apply setup_of_length, H1);
    generalize dependent f end.
  intros f2 H2. setup.
Qed.

#[local] Hint Resolve qspi_fifo_rd_setup qspi_fifo_wr_setup : qspi_setup.

Lemma qspi_buf_rdwr_loop_setup fuel :
  forall buf pos off len write n flash r,
  qspi_buf_rdwr_loop fuel buf pos off len write n flash = Some r ->
  setup_of (snd r) = setup_of flash.
Proof.
  induction fuel as [| fuel IH]; intros buf pos off len write n flash r;
    cbn [qspi_buf_rdwr_loop]; destruct (n <? len).
  - discriminate.
  - intros [= <-]. reflexivity.
  - destruct write.
    + pose proof (qspi_fifo_wr_setup (s64 (off + n)) buf (pos + n)
                    (u64 (len - n)) flash) as H1.
      destruct (qspi_fifo_wr _ _ _ _ _) as [[r1 c1] f1]. cbn [snd] in H1.
      destruct (r1 =? 0).
      * intros E. rewrite (IH _ _ _ _ _ _ _ _ E). exact H1.
      * intros [= <-]. exact H1.
    + pose proof (qspi_fifo_rd_setup (s64 (off + n)) buf (pos + n)
                    (u64 (len - n)) flash) as H1.
      destruct (qspi_fifo_rd _ _ _ _ _) as [[[r1 b1] c1] f1]. cbn [snd] in H1.
      destruct (r1 =? 0).
      * intros E. rewrite (IH _ _ _ _ _ _ _ _ E). exact H1.
      * intros [= <-]. exact H1.
  - intros [= <-]. reflexivity.
Qed.

Lemma qspi_buf_rdwr_setup buf pos off len write flash r :
  qspi_buf_rdwr buf pos off len write flash = Some r ->
  setup_of (snd r) = setup_of flash.
Proof. apply qspi_buf_rdwr_loop_setup. Qed.

Lemma qspi_page_erase_setup off pagesz flash :
  setup_of (snd (qspi_page_erase off pagesz flash)) = setup_of flash.
Proof. unfold qspi_page_erase. cbv zeta. setup. Qed.
#[local] Hint Resolve qspi_page_erase_setup : qspi_setup.

Lemma optional_buf_rdwr_setup (c : bool) buf pos off len flash r :
  (if c then qspi_buf_rdwr buf pos off len false flash
   else Some (0, buf, flash)) = Some r ->
  setup_of (snd r) = setup_of flash.
Proof.
  destruct c; [apply qspi_buf_rdwr_setup |]. intros [= <-]. reflexivity.
Qed.

Lemma qspi_page_rmw_setup ubuf upos kbuf off cnt flash r :
  qspi_page_rmw ubuf upos kbuf off cnt flash = Some r ->
  setup_of (snd r) = setup_of flash.
Proof.
  unfold qspi_page_rmw. cbv zeta.
  destruct (if negb _ then _ else _) as [[[r1 b1] f1] |] eqn:E1;
    [| discriminate].
  apply optional_buf_rdwr_setup in E1. cbn [snd] in E1.
  destruct (negb (r1 =? 0)); [intros [= <-]; exact E1 |].
  destruct (copy_from_user _ _ _ _ _) as [unc kb].
  destruct (negb (unc =? 0)); [intros [= <-]; exact E1 |].
  destruct (if negb _ then _ else _) as [[[r2 b2] f2] |] eqn:E2;
    [| discriminate].
  apply optional_buf_rdwr_setup in E2. cbn [snd] in E2.
  destruct (negb (r2 =? 0)); [intros [= <-]; cbn [snd]; congruence |].
  match goal with |- context [qspi_page_erase ?a ?b ?c] =>
    pose proof (qspi_page_erase_setup a b c) as H3;
    destruct (qspi_page_erase a b c) as [r3 f3] end.
  cbn [snd] in H3. destruct (r3 =? 0).
  - destruct (qspi_buf_rdwr _ _ _ _ _ _) as [[[r4 b4] f4] |] eqn:E4;
      [| discriminate].
    apply qspi_buf_rdwr_setup in E4. cbn [snd] in E4.
    intros [= <-]. cbn [snd]. congruence.
  - intros [= <-]. cbn [snd]. congruence.
Qed.

Lemma qspi_page_wr_setup ubuf upos kbuf off cnt flash r :
  qspi_page_wr ubuf upos kbuf off cnt flash = Some r ->
  setup_of (snd r) = setup_of flash.
Proof.
  unfold qspi_page_wr. cbv zeta.
  destruct (_ =? 0); [intros [= <-]; reflexivity |].
  destruct (copy_from_user _ _ _ _ _) as [unc kb].
  destruct (negb (unc =? 0)); [intros [= <-]; reflexivity |].
  match goal with |- context [qspi_page_erase ?a ?b ?c] =>
    pose proof (qspi_page_erase_setup a b c) as H3;
    destruct (qspi_page_erase a b c) as [r3 f3] end.
  cbn [snd] in H3. destruct (r3 =? 0).
  - destruct (qspi_buf_rdwr _ _ _ _ _ _) as [[[r4 b4] f4] |] eqn:E4;
      [| discriminate].
    apply qspi_buf_rdwr_setup in E4. cbn [snd] in E4.
    intros [= <-]. cbn [snd]. congruence.
  - intros [= <-]. exact H3.
Qed.

Lemma qspi_write_attempt_setup ubuf upos page off len flash r :
  qspi_write_attempt ubuf upos page off len flash = Some r ->
  setup_of (snd r) = setup_of flash.
Proof.
  unfold qspi_write_attempt.
  destruct (qspi_page_wr _ _ _ _ _ _) as [[[[r1 b1] c1] f1] |] eqn:E1;
    [| discriminate].
  apply qspi_page_wr_setup in E1. cbn [snd] in E1.
  destruct (negb (r1 =? 0)); [| intros [= <-]; exact E1].
  destruct (r1 =? - EOPNOTSUPP); [| intros [= <-]; exact E1].
  intros E2. apply qspi_page_rmw_setup in E2. congruence.
Qed.

Lemma qspi_write_loop_setup fuel : forall buf page n off cnt flash r,
  qspi_write_loop fuel buf page n off cnt flash = Some r ->
  setup_of (snd r) = setup_of flash.
Proof.
  induction fuel as [| fuel IH]; intros buf page n off cnt flash r;
    cbn [qspi_write_loop]; destruct (cnt <? n).
  - discriminate.
  - intros [= <-]. reflexivity.
  - destruct (qspi_write_attempt _ _ _ _ _ _) as [[[[r1 b1] c1] f1] |] eqn:E1;
      [| discriminate].
    apply qspi_write_attempt_setup in E1. cbn [snd] in E1.
    destruct (negb (r1 =? 0)); [intros [= <-]; exact E1 |].
    intros E2. apply IH in E2. congruence.
  - intros [= <-]. reflexivity.
Qed.

Lemma qspi_do_read_loop_setup fuel : forall page kbuf n off cnt flash r,
  qspi_do_read_loop fuel page kbuf n off cnt flash = Some r ->
  setup_of (snd r) = setup_of flash.
Proof.
  induction fuel as [| fuel IH]; intros page kbuf n off cnt flash r;
    cbn [qspi_do_read_loop]; destruct (cnt <? n).
  - discriminate.
  - intros [= <-]. reflexivity.
  - cbv zeta.
    destruct (qspi_buf_rdwr _ _ _ _ _ _) as [[[r1 b1] f1] |] eqn:E1;
      [| discriminate].
    apply qspi_buf_rdwr_setup in E1. cbn [snd] in E1.
    destruct (negb (r1 =? 0)); [intros [= <-]; exact E1 |].
    intros E2. apply IH in E2. congruence.
  - intros [= <-]. reflexivity.
Qed.

Lemma config_of_setup flash flash' :
  setup_of flash' = setup_of flash -> config_of flash' = config_of flash.
Proof. unfold setup_of. intros E. exact (f_equal fst E). Qed.

Variable vmalloc_ok : Z -> bool.

Lemma qspi_do_read_config kbuf n off flash r :
  qspi_do_read vmalloc_ok kbuf n off flash = Some r ->
  config_of (snd r) = config_of flash.
Proof.
  unfold qspi_do_read. cbv zeta.
  destruct (negb (vmalloc_ok _)); [intros [= <-]; reflexivity |].
  match goal with |- context [qspi_wait_until_ready ?f] =>
    pose proof (qspi_wait_until_ready_setup f) as H1;
    destruct (qspi_wait_until_ready f) as [rdy f1] end.
  cbn [snd] in H1. apply config_of_setup in H1.
  destruct (negb rdy); [intros [= <-]; exact H1 |].
  intros E. apply qspi_do_read_loop_setup, config_of_setup in E.
  rewrite E. exact H1.
Qed.

Lemma qspi_write_locked_config buf n off flash r :
  qspi_write_locked buf n off flash = Some r ->
  config_of (snd r) = config_of flash.
Proof.
  unfold qspi_write_locked. cbv zeta.
  match goal with |- context [qspi_wait_until_ready ?f] =>
    pose proof (qspi_wait_until_ready_setup f) as H1;
    destruct (qspi_wait_until_ready f) as [rdy f1] end.
  cbn [snd] in H1. apply config_of_setup in H1.
  destruct (negb rdy); [intros [= <-]; exact H1 |].
  intros E. apply qspi_write_loop_setup, config_of_setup in E.
  rewrite E. exact H1.
Qed.

Lemma qspi_read_config ubuf n off flash r :
  qspi_read vmalloc_ok ubuf n off flash = Some r ->
  config_of (snd r) = config_of flash.
Proof.
  unfold qspi_read.
  destruct (_ || _); [intros [= <-]; reflexivity |]. cbv zeta.
  destruct (negb (vmalloc_ok _)); [intros [= <-]; reflexivity |].
  destruct (qspi_do_read _ _ _ _ _) as [[[r1 b1] f1] |] eqn:E1;
    [| discriminate].
  apply qspi_do_read_config in E1. cbn [snd] in E1.
  destruct (if r1 =? 0 then _ else _) as [r2 ub].
  destruct (negb (r2 =? 0)); intros [= <-]; exact E1.
Qed.

Lemma qspi_write_config buf n off flash r :
  qspi_write vmalloc_ok buf n off flash = Some r ->
  config_of (snd r) = config_of flash.
Proof.
  unfold qspi_write.
  destruct (_ || _); [intros [= <-]; reflexivity |]. cbv zeta.
  destruct (negb (vmalloc_ok _)); [intros [= <-]; reflexivity |].
  destruct (qspi_write_locked _ _ _ _) as [[[r1 c1] f1] |] eqn:E1;
    [| discriminate].
  apply qspi_write_locked_config in E1. cbn [snd] in E1.
  destruct (negb (r1 =? 0)); intros [= <-]; exact E1.
Qed.

(** X10.  The stream calls never change what attach has set up: after
    qspi_read, qspi_write or a kernel read, on any device and whatever the
    outcome, flash_size, the FIFO depth, the vendor and the size of io_buf
    are what they were. *)
Theorem stream_io_keeps_config ubuf n off flash :
  (forall r, qspi_read vmalloc_ok ubuf n off flash = Some r ->
             config_of (snd r) = config_of flash) /\
  (forall r, qspi_write vmalloc_ok ubuf n off flash = Some r ->
             config_of (snd r) = config_of flash) /\
  (forall r, qspi_kernel_read vmalloc_ok ubuf n off flash = Some r ->
             config_of (snd r) = config_of flash).
Proof.
  split; [apply qspi_read_config |].
  split; [apply qspi_write_config | apply qspi_do_read_config].
Qed.

End Setup.

(** ** A slave that does not exist *)

Section MissingSlave.
Context {D : Device}.
Implicit Types flash : xrt_qspi.

Lemma qspi_is_ready_missing_slave flash :
  2 <= qspi_curr_slave flash ->
  fst (qspi_is_ready flash) = false /\
  2 <= qspi_curr_slave (snd (qspi_is_ready flash)).
Proof.
  intros Hs.
  pose proof (qspi_is_ready_setup flash) as Hsetup.
  split.
  - unfold qspi_is_ready, qspi_transaction.
    pose proof (qspi_reset_fifo_setup flash) as H1.
    destruct (qspi_reset_fifo flash) as [r1 f1]. cbn [snd] in H1.
    destruct (Z.eqb_spec r1 0) as [-> | N]; cbn [negb].
    + assert (Hc : qspi_curr_slave f1 = qspi_curr_slave flash)
        by (exact (f_equal snd H1)).
      rewrite Hc. unfold MAX_NUM_OF_SLAVES.
      destruct (Z.geb_spec (qspi_curr_slave flash) 2); [| lia].
      reflexivity.
    + destruct (Z.eqb_spec r1 0); [contradiction | reflexivity].
  - replace (qspi_curr_slave (snd (qspi_is_ready flash)))
      with (qspi_curr_slave flash) by (symmetry; exact (f_equal snd Hsetup)).
    exact Hs.
Qed.

Lemma qspi_wait_until_ready_missing_slave flash :
  2 <= qspi_curr_slave flash -> fst (qspi_wait_until_ready flash) = false.
Proof.
  intros Hs. unfold qspi_wait_until_ready.
  pose proof (busy_wait_never (fun fl => 2 <= qspi_curr_slave fl)
                qspi_is_ready qspi_is_ready_missing_slave QSPI_BUSY_RETRY
                flash Hs) as H.
  unfold QSPI_BUSY_WAIT.
  destruct (busy_wait QSPI_BUSY_RETRY qspi_is_ready flash) as [t fl].
  cbn [fst] in *. subst t. reflexivity.
Qed.

Variable vmalloc_ok : Z -> bool.

(** X11.  A stream read or write of at least one byte whose offset names a
    slave other than 0 and 1 (slave byte of 2 or more) and passes the
    boundary check never succeeds, on any device, and leaves *off unchanged.
    It fails with -ENOMEM when one of its allocations fails (for a read the
    kernel buffer of the clamped count, then the 4KB page; for a write the
    64KB page), and otherwise with -EINVAL, the ready wait having timed
    out. *)
Theorem stream_io_rejects_missing_slave buf n off flash :
  2 <= slave (qspi_offset2faddr off) ->
  n <> 0 -> is_valid_offset flash off = true ->
  read_outcome (qspi_read vmalloc_ok buf n off flash)
  = Some (if vmalloc_ok (Z.min n (u64 (flash_size flash - u64 off)))
             && vmalloc_ok QSPI_PAGE_SIZE
          then - EINVAL else - ENOMEM, off) /\
  write_outcome (qspi_write vmalloc_ok buf n off flash)
  = Some (if vmalloc_ok QSPI_HUGE_PAGE_SIZE then - EINVAL else - ENOMEM, off).
Proof.
  intros Hs Hn Hv.
  assert (Hw : fst (qspi_wait_until_ready
                      (set_curr_slave (slave (qspi_offset2faddr off)) flash))
               = false)
    by (apply qspi_wait_until_ready_missing_slave; exact Hs).
  split.
  - unfold qspi_read.
    destruct (Z.eqb_spec n 0) as [E | _]; [contradiction |].
    rewrite Hv. cbn [negb orb]. cbv zeta.
    destruct (vmalloc_ok (Z.min _ _)); cbn [negb andb]; [| reflexivity].
    unfold qspi_do_read.
    destruct (vmalloc_ok QSPI_PAGE_SIZE); cbn [negb]; [| reflexivity].
    cbv zeta.
    destruct (qspi_wait_until_ready _) as [rdy f1]. cbn [fst] in Hw.
    subst rdy. reflexivity.
  - unfold qspi_write.
    destruct (Z.eqb_spec n 0) as [E | _]; [contradiction |].
    rewrite Hv. cbn [negb orb]. cbv zeta.
    destruct (vmalloc_ok QSPI_HUGE_PAGE_SIZE); cbn [negb]; [| reflexivity].
    unfold qspi_write_locked. cbv zeta.
    destruct (qspi_wait_until_ready _) as [rdy f1]. cbn [fst] in Hw.
    subst rdy. reflexivity.
Qed.

End MissingSlave.

Lemma stream_io_rejects_missing_slave_witness :
  read_outcome (qspi_read always_ok (repeat 0 16) 10 (2 ^ 57 + 100) demo_flash)
  = Some (if always_ok
               (Z.min 10 (u64 (flash_size demo_flash - u64 (2 ^ 57 + 100))))
             && always_ok QSPI_PAGE_SIZE
          then - EINVAL else - ENOMEM, 2 ^ 57 + 100) /\
  write_outcome
    (qspi_write always_ok (repeat 0 16) 10 (2 ^ 57 + 100) demo_flash)
  = Some (if always_ok QSPI_HUGE_PAGE_SIZE then - EINVAL else - ENOMEM,
          2 ^ 57 + 100).
Proof.
  apply (stream_io_rejects_missing_slave always_ok (repeat 0 16) 10
           (2 ^ 57 + 100) demo_flash).
  - vm_compute. discriminate.
  - discriminate.
  - vm_compute. reflexivity.
Defined.

(** ** The FIFOs of the mock controller *)

Section MockFifo.

Local Abbreviation flashT := (@xrt_qspi Mock.device).
Local Abbreviation mset := (@set_regs Mock.device).
Implicit Types (f flash : flashT) (h : Mock.hw).

Lemma status_tx_room h :
  Mock.flt h = Mock.NoFault ->
  (Z.land (u32 (Mock.status h)) (Z.lor QSPI_SR_TX_FULL QSPI_SR_ERRS) =? 0)
  = negb (Mock.depth h <=? Z.of_nat (List.length (Mock.txq h))).
Proof.
  intros Hf. unfold Mock.status. rewrite Hf.
  destruct (Mock.depth h <=? Z.of_nat (List.length (Mock.txq h))),
    (Mock.depth h <=? Z.of_nat (List.length (Mock.rxq h))),
    (Mock.txq h), (Mock.rxq h); reflexivity.
Qed.

Lemma idle_settled h : Mock.idle h -> Mock.with_fifos Mock.IDLE_CTRL [] [] h = h.
Proof.
  intros [Hc Ht Hr Hf Hd]. destruct h; cbn in *. subst. reflexivity.
Qed.

Lemma testbit_reset_bits x :
  Z.testbit (u32 (Z.lor (Z.lor x QSPI_CR_TXFIFO_RESET) QSPI_CR_RXFIFO_RESET)) 5
  = true /\
  Z.testbit (u32 (Z.lor (Z.lor x QSPI_CR_TXFIFO_RESET) QSPI_CR_RXFIFO_RESET)) 6
  = true.
Proof.
  unfold u32. rewrite !Z.mod_pow2_bits_low by lia.
  rewrite !Z.lor_spec. split.
  - change (Z.testbit QSPI_CR_TXFIFO_RESET 5) with true.
    rewrite orb_true_r. reflexivity.
  - change (Z.testbit QSPI_CR_RXFIFO_RESET 6) with true.
    apply orb_true_r.
Qed.

(** X12.  qspi_reset_fifo on a controller without fault empties both
    FIFOs whatever they held and returns 0; no frame is clocked out, the
    chips and the slave select are untouched. *)
Theorem qspi_reset_fifo_empties_fifos f :
  Mock.flt (qspi_regs f) = Mock.NoFault -> 0 < Mock.depth (qspi_regs f) ->
  let r := qspi_reset_fifo f in
  let h' := qspi_regs (snd r) in
  fst r = 0 /\ Mock.txq h' = [] /\ Mock.rxq h' = [] /\
  Mock.chip0 h' = Mock.chip0 (qspi_regs f) /\
  Mock.chip1 h' = Mock.chip1 (qspi_regs f) /\
  Mock.frames h' = Mock.frames (qspi_regs f) /\
  Mock.slave_sel h' = Mock.slave_sel (qspi_regs f).
Proof.
  intros Hf Hd. cbv zeta.
  assert (E1 : qspi_fifo_is_reset f
               = (Z.land (u32 (Mock.status (qspi_regs f))) status_fifo_mask
                  =? Z.lor QSPI_SR_TX_EMPTY QSPI_SR_RX_EMPTY, f)).
  { unfold qspi_fifo_is_reset, qspi_get_status, qspi_reg_rd.
    cbn [ioread32 Mock.device Mock.read]. rewrite set_regs_eta.
    reflexivity. }
  unfold qspi_reset_fifo. rewrite E1.
  destruct (Z.land (u32 (Mock.status (qspi_regs f))) status_fifo_mask
            =? Z.lor QSPI_SR_TX_EMPTY QSPI_SR_RX_EMPTY) eqn:Es.
  - cbn [fst snd].
    assert (Het : Mock.txq (qspi_regs f) = [] /\ Mock.rxq (qspi_regs f) = []).
    { revert Es. unfold Mock.status. rewrite Hf.
      destruct (Mock.depth (qspi_regs f)
                <=? Z.of_nat (List.length (Mock.txq (qspi_regs f)))),
        (Mock.depth (qspi_regs f)
         <=? Z.of_nat (List.length (Mock.rxq (qspi_regs f)))),
        (Mock.txq (qspi_regs f)), (Mock.rxq (qspi_regs f));
        cbv; intros E; try discriminate E; split; reflexivity. }
    destruct Het as [Ht Hr].
    split; [reflexivity |]. split; [exact Ht |]. split; [exact Hr |].
    repeat split; reflexivity.
  - unfold qspi_get_ctrl, qspi_set_ctrl, qspi_reg_rd, qspi_reg_wr.
    cbn [qspi_regs set_regs ioread32 iowrite32 Mock.device Mock.read
         Mock.write].
    unfold Mock.write_ctrl.
    destruct (testbit_reset_bits (u32 (Mock.ctrl (qspi_regs f))))
      as [H5 H6].
    rewrite H5, H6. cbv zeta iota.
    erewrite QSPI_BUSY_WAIT_now.
    2:{ unfold qspi_fifo_is_reset, qspi_get_status, qspi_reg_rd.
        cbn [qspi_regs set_regs ioread32 Mock.device Mock.read].
        rewrite status_fifo_empty by (try reflexivity; assumption).
        reflexivity. }
    cbn [fst snd qspi_regs set_regs]. repeat split; reflexivity.
Qed.

Lemma qspi_rx_loop_short (resp : list Z) : forall (n : nat) cnt ob c t h f,
  Mock.flt h = Mock.NoFault ->
  (List.length resp < n)%nat ->
  fst (fst (qspi_rx_loop n cnt ob (mset (Mock.with_fifos c t resp h) f)))
  = - EINVAL.
Proof.
  induction resp as [| x resp IH]; intros n cnt ob c t h f Hf Hn;
    (destruct n as [| n]; [cbn [List.length] in Hn; lia |]);
    cbn [qspi_rx_loop]; unfold qspi_get_status, qspi_reg_rd;
    cbn [qspi_regs set_regs ioread32 Mock.device Mock.read].
  - rewrite status_rx_drained by (try reflexivity; exact Hf). reflexivity.
  - rewrite (status_rx_pending _ x resp) by (try reflexivity; exact Hf).
    cbn [Z.eqb negb]. unfold qspi_read8, qspi_reg_rd.
    cbn [qspi_regs set_regs ioread32 Mock.device Mock.read Mock.rxq
         Mock.with_fifos Mock.ctrl Mock.txq].
    rewrite !set_regs_twice, with_fifos_twice.
    apply IH; [exact Hf |]. cbn [List.length] in Hn. lia.
Qed.

(** X13.  qspi_rx succeeds exactly when the RX FIFO holds as many bytes as
    asked for: with fewer it runs into the empty FIFO, with more the FIFO is
    not drained, and both give -EINVAL. *)
Theorem qspi_rx_wants_exactly_len ob len (resp : list Z) c t h f :
  Mock.flt h = Mock.NoFault -> 0 <= len ->
  let r := fst (fst (qspi_rx ob len (mset (Mock.with_fifos c t resp h) f))) in
  (r = 0 <-> len = Z.of_nat (List.length resp)) /\
  (r = 0 \/ r = - EINVAL).
Proof.
  intros Hf Hlen. cbv zeta.
  destruct (Z.lt_trichotomy len (Z.of_nat (List.length resp)))
    as [Hlt | [Heq | Hgt]].
  - (* more bytes pending than asked for *)
    assert (E : fst (fst (qspi_rx ob len
                            (mset (Mock.with_fifos c t resp h) f)))
                = - EINVAL).
    { unfold qspi_rx.
      rewrite <- (firstn_skipn (Z.to_nat len) resp) at 1.
      assert (Hl : List.length (firstn (Z.to_nat len) resp) = Z.to_nat len)
        by (rewrite length_firstn; lia).
      rewrite <- Hl at 1.
      rewrite qspi_rx_loop_drain by exact Hf.
      cbn [Z.eqb negb]. unfold qspi_get_status, qspi_reg_rd.
      cbn [qspi_regs set_regs ioread32 Mock.device Mock.read].
      destruct (skipn (Z.to_nat len) resp) as [| x rest] eqn:Es.
      { apply (f_equal (@List.length Z)) in Es. rewrite length_skipn in Es.
        cbn [List.length] in Es. lia. }
      rewrite (status_rx_pending _ x rest) by (try reflexivity; exact Hf).
      reflexivity. }
    rewrite E. split; [| right; reflexivity].
    split; [discriminate | lia].
  - (* exactly the bytes asked for *)
    rewrite qspi_rx_drain by (try exact Hf; lia).
    split; [| left; reflexivity]. split; [intros _; exact Heq | reflexivity].
  - (* fewer *)
    assert (E : fst (fst (qspi_rx ob len
                            (mset (Mock.with_fifos c t resp h) f)))
                = - EINVAL).
    { unfold qspi_rx.
      pose proof (qspi_rx_loop_short resp (Z.to_nat len) 0 ob c t h f Hf
                    ltac:(lia)) as Hs.
      destruct (qspi_rx_loop _ _ _ _) as [[r b] f1]. cbn [fst] in Hs.
      subst r. reflexivity. }
    rewrite E. split; [| right; reflexivity].
    split; [discriminate | lia].
Qed.

(** X14.  One transaction of [len] bytes (at most the FIFO depth) on a
    working controller returns 0 and clocks exactly one frame out, the first
    [len] bytes of the buffer, to the current slave: that chip executes it,
    the other is untouched, the reply overwrites the buffer when output is
    wanted, and afterwards no slave is selected and the controller is ready
    for the next transaction. *)
Theorem qspi_transaction_clocks_one_frame s f buf len need_output :
  healthy s f -> 0 < len <= qspi_fifo_depth f ->
  let r := qspi_transaction buf len need_output f in
  let h' := qspi_regs (snd r) in
  fst (fst r) = 0 /\
  Mock.frames h' = tx_frame buf len :: Mock.frames (qspi_regs f) /\
  snd (fst r)
  = (if need_output
     then buf_write buf 0 (Mock.reply s (qspi_regs f) (tx_frame buf len))
     else buf) /\
  Mock.the_chip s h'
  = Mock.chip_exec (Mock.the_chip s (qspi_regs f)) (tx_frame buf len) /\
  Mock.the_chip (1 - s) h' = Mock.the_chip (1 - s) (qspi_regs f) /\
  Mock.slave_sel h' = SLAVE_SELECT_NONE /\
  healthy s (snd r).
Proof.
  intros H Hlen. cbv zeta.
  rewrite (qspi_transaction_healthy buf len need_output s f H Hlen).
  cbn [fst snd qspi_regs set_regs].
  destruct (the_chip_after_frame s (tx_frame buf len) (qspi_regs f)
              (h_slave_ok _ _ H)) as [Hc Ho].
  split; [reflexivity |]. split; [reflexivity |]. split; [reflexivity |].
  split; [exact Hc |]. split; [exact Ho |]. split; [reflexivity |].
  apply healthy_after_frame, H.
Qed.

(** X15.  qspi_set_sector on a working controller, in whatever state the
    cached sector is: it returns 0 and the cached sector is the sector asked
    for.  When the cache held another value the sector is written to the
    chip, whose extended address register then holds it; when the cache
    already held that value nothing is sent and the instance is returned as
    it was, so that the chip's register keeps what it held, equal to the
    sector or not.  The memory of both chips is as before, and asking for
    the same sector again changes nothing. *)
Theorem qspi_set_sector_selects s sect f :
  healthy s f -> is_byte sect ->
  exists f',
    qspi_set_sector sect f = (0, f') /\
    qspi_curr_sector f' = sect /\
    (qspi_curr_sector f <> sect ->
     Mock.ext_addr (Mock.the_chip s (qspi_regs f')) = sect) /\
    (qspi_curr_sector f = sect -> f' = f) /\
    (forall a, Mock.mem (Mock.the_chip s (qspi_regs f')) a
               = Mock.mem (Mock.the_chip s (qspi_regs f)) a) /\
    Mock.the_chip (1 - s) (qspi_regs f')
    = Mock.the_chip (1 - s) (qspi_regs f) /\
    healthy s f' /\
    qspi_set_sector sect f' = (0, f').
Proof.
  intros H Hb.
  destruct (Z.eq_dec (qspi_curr_sector f) sect) as [Hc | Hc].
  - exists f.
    assert (E : qspi_set_sector sect f = (0, f))
      by (unfold qspi_set_sector; rewrite Hc, Z.eqb_refl; reflexivity).
    split; [exact E |]. split; [exact Hc |].
    split; [intros N; contradiction |].
    split; [reflexivity |]. split; [reflexivity |].
    split; [reflexivity |]. split; [exact H | exact E].
  - destruct (qspi_set_sector_healthy s sect f H Hb (or_intror Hc))
      as (f' & E & Hp & _ & Hc').
    exists f'. split; [exact E |]. split; [exact Hc' |].
    split; [intros _; rewrite <- (p_known _ _ _ _ Hp); exact Hc' |].
    split; [intros N; contradiction |].
    split; [apply (p_mem _ _ _ _ Hp) |].
    split; [apply (p_other _ _ _ _ Hp) |].
    split; [apply (p_healthy _ _ _ _ Hp) |].
    unfold qspi_set_sector. rewrite Hc', Z.eqb_refl. reflexivity.
Qed.

End MockFifo.

Lemma qspi_reset_fifo_empties_fifos_witness :
  let f :=
    @set_regs Mock.device
      (Mock.with_fifos Mock.IDLE_CTRL [9] [1; 2; 3] (qspi_regs demo_flash))
      demo_flash in
  let r := qspi_reset_fifo f in
  let h' := qspi_regs (snd r) in
  fst r = 0 /\ Mock.txq h' = [] /\ Mock.rxq h' = [] /\
  Mock.chip0 h' = Mock.chip0 (qspi_regs f) /\
  Mock.chip1 h' = Mock.chip1 (qspi_regs f) /\
  Mock.frames h' = Mock.frames (qspi_regs f) /\
  Mock.slave_sel h' = Mock.slave_sel (qspi_regs f).
Proof.
  intros f. apply (qspi_reset_fifo_empties_fifos f).
  - reflexivity.
  - reflexivity.
Defined.

Lemma qspi_rx_wants_exactly_len_witness :
  let f := demo_flash in
  let r :=
    fst (fst (qspi_rx None 2
                (@set_regs Mock.device
                   (Mock.with_fifos Mock.IDLE_CTRL [] [1; 2; 3] (qspi_regs f))
                   f))) in
  (r = 0 <-> 2 = Z.of_nat (List.length [1; 2; 3])) /\
  (r = 0 \/ r = - EINVAL).
Proof.
  intros f.
  apply (qspi_rx_wants_exactly_len None 2 [1; 2; 3] Mock.IDLE_CTRL []
           (qspi_regs f) f).
  - reflexivity.
  - lia.
Defined.

Lemma qspi_transaction_clocks_one_frame_witness :
  let f := demo_flash in
  let buf := [QSPI_CMD_IDCODE_READ; 0; 0; 0; 0] in
  let r := qspi_transaction buf 5 true f in
  let h' := qspi_regs (snd r) in
  fst (fst r) = 0 /\
  Mock.frames h' = tx_frame buf 5 :: Mock.frames (qspi_regs f) /\
  snd (fst r)
  = buf_write buf 0 (Mock.reply 0 (qspi_regs f) (tx_frame buf 5)) /\
  Mock.the_chip 0 h'
  = Mock.chip_exec (Mock.the_chip 0 (qspi_regs f)) (tx_frame buf 5) /\
  Mock.the_chip (1 - 0) h' = Mock.the_chip (1 - 0) (qspi_regs f) /\
  Mock.slave_sel h' = SLAVE_SELECT_NONE /\
  healthy 0 (snd r).
Proof.
  intros f buf.
  apply (qspi_transaction_clocks_one_frame 0 f buf 5 true).
  - healthy_by_evaluation.
  - vm_compute. split; [reflexivity | discriminate].
Defined.

Lemma qspi_set_sector_selects_witness :
  let f := demo_flash in
  exists f',
    qspi_set_sector 1 f = (0, f') /\
    qspi_curr_sector f' = 1 /\
    (qspi_curr_sector f <> 1 ->
     Mock.ext_addr (Mock.the_chip 0 (qspi_regs f')) = 1) /\
    (qspi_curr_sector f = 1 -> f' = f) /\
    (forall a, Mock.mem (Mock.the_chip 0 (qspi_regs f')) a
               = Mock.mem (Mock.the_chip 0 (qspi_regs f)) a) /\
    Mock.the_chip (1 - 0) (qspi_regs f')
    = Mock.the_chip (1 - 0) (qspi_regs f) /\
    healthy 0 f' /\
    qspi_set_sector 1 f' = (0, f').
Proof.
  intros f. apply (qspi_set_sector_selects 0 1 f).
  - healthy_by_evaluation.
  - unfold is_byte. lia.
Defined.

(** ** Attach on the mock controller *)

Section MockProbe.

Local Abbreviation flashT := (@xrt_qspi Mock.device).
Local Abbreviation mset := (@set_regs Mock.device).
Implicit Types (f flash : flashT) (h : Mock.hw).

Lemma qspi_get_fifo_depth_loop_fill (n : nat) : forall (fuel : nat) k c q r h f,
  Mock.flt h = Mock.NoFault ->
  Z.of_nat (List.length q) + Z.of_nat n = Mock.depth h ->
  0 <= k -> k + Z.of_nat n < 2 ^ 64 ->
  (n <= fuel)%nat ->
  qspi_get_fifo_depth_loop fuel k (mset (Mock.with_fifos c q r h) f)
  = Some (k + Z.of_nat n,
          mset (Mock.with_fifos c (q ++ repeat 1 n) r h) f).
Proof.
  induction n as [| n IH]; intros fuel k c q r h f Hf Hq Hk Hlim Hfuel.
  - assert (E : qspi_get_status (mset (Mock.with_fifos c q r h) f)
                = (u32 (Mock.status (Mock.with_fifos c q r h)),
                   mset (Mock.with_fifos c q r h) f)) by reflexivity.
    destruct fuel; cbn [qspi_get_fifo_depth_loop]; rewrite E;
      rewrite status_tx_room by exact Hf;
      cbn [Mock.depth Mock.txq Mock.with_fifos];
      (destruct (Z.leb_spec (Mock.depth h) (Z.of_nat (List.length q))); [| lia]);
      cbn [negb repeat]; rewrite app_nil_r, Z.add_0_r; reflexivity.
  - destruct fuel as [| fuel]; [lia |].
    cbn [qspi_get_fifo_depth_loop].
    assert (E : qspi_get_status (mset (Mock.with_fifos c q r h) f)
                = (u32 (Mock.status (Mock.with_fifos c q r h)),
                   mset (Mock.with_fifos c q r h) f)) by reflexivity.
    rewrite E. rewrite status_tx_room by exact Hf.
    cbn [Mock.depth Mock.txq Mock.with_fifos].
    destruct (Z.leb_spec (Mock.depth h) (Z.of_nat (List.length q))); [lia |].
    cbn [negb]. unfold qspi_send8, qspi_reg_wr.
    cbn [qspi_regs set_regs iowrite32 Mock.device Mock.write Mock.with_fifos
         Mock.depth Mock.txq Mock.rxq Mock.ctrl].
    destruct (Z.leb_spec (Mock.depth h) (Z.of_nat (List.length q))); [lia |].
    rewrite set_regs_twice, with_fifos_twice.
    rewrite (u64_small (k + 1)) by lia.
    rewrite (IH fuel (k + 1) c (q ++ [u8 (u32 1)]) r h f)
      by (try rewrite length_app; cbn [List.length]; try exact Hf; lia).
    rewrite <- app_assoc. cbn [repeat app].
    do 2 f_equal. lia.
Qed.

Lemma qspi_get_fifo_depth_mock (fuel : nat) h f :
  Mock.idle h -> Mock.depth h < 2 ^ 64 -> Mock.depth h <= Z.of_nat fuel ->
  qspi_get_fifo_depth fuel (mset h f) = Some (Mock.depth h, mset h f).
Proof.
  intros Hi Hd Hfuel. pose proof Hi as [Hc Ht Hr Hf Hd0].
  unfold qspi_get_fifo_depth.
  rewrite qspi_reset_fifo_idle by exact Hi. cbn [Z.eqb negb].
  unfold qspi_get_ctrl, qspi_set_ctrl, qspi_reg_rd, qspi_reg_wr.
  cbn [qspi_regs set_regs ioread32 iowrite32 Mock.device Mock.read Mock.write].
  rewrite Hc.
  change (u32 (Z.lor (u32 Mock.IDLE_CTRL) QSPI_CR_TRANS_INHIBIT))
    with Mock.IDLE_CTRL.
  rewrite write_ctrl_inhibit, Ht, Hr, !set_regs_twice.
  rewrite (qspi_get_fifo_depth_loop_fill (Z.to_nat (Mock.depth h)) fuel 0
             Mock.IDLE_CTRL [] [] h f)
    by (cbn [List.length]; try exact Hf; lia).
  unfold qspi_has_err, qspi_get_status, qspi_reg_rd.
  cbn [qspi_regs set_regs ioread32 Mock.device Mock.read].
  rewrite status_no_errs by exact Hf. cbn [Z.eqb negb app].
  change (u32 (u32 Mock.IDLE_CTRL)) with Mock.IDLE_CTRL.
  rewrite set_regs_twice.
  cbn [iowrite32 Mock.device Mock.write].
  rewrite write_ctrl_inhibit, with_fifos_twice.
  cbn [Mock.txq Mock.rxq Mock.with_fifos].
  rewrite Z2Nat.id by lia. cbn [Z.add].
  set (q := repeat 1 (Z.to_nat (Mock.depth h))).
  assert (Hq : exists x q', q = x :: q').
  { unfold q. destruct (Z.to_nat (Mock.depth h)) eqn:E; [lia |].
    cbn [repeat]. eauto. }
  destruct Hq as (x & q' & Hq). rewrite Hq.
  unfold qspi_reset_fifo at 1. unfold qspi_fifo_is_reset at 1.
  unfold qspi_get_status, qspi_get_ctrl, qspi_set_ctrl, qspi_reg_rd, qspi_reg_wr.
  cbn [qspi_regs set_regs ioread32 iowrite32 Mock.device Mock.read Mock.write
       Mock.ctrl Mock.with_fifos].
  assert (Es : (Z.land
                  (u32 (Mock.status (Mock.with_fifos Mock.IDLE_CTRL (x :: q') [] h)))
                  status_fifo_mask =? Z.lor QSPI_SR_TX_EMPTY QSPI_SR_RX_EMPTY)
               = false).
  { unfold Mock.status. cbn [Mock.txq Mock.rxq Mock.with_fifos Mock.flt Mock.depth].
    rewrite Hf.
    destruct (Mock.depth h <=? Z.of_nat (List.length (x :: q'))),
      (Mock.depth h <=? Z.of_nat (List.length (@nil Z))); reflexivity. }
  rewrite Es.
  change (u32 (Z.lor (Z.lor (u32 Mock.IDLE_CTRL) QSPI_CR_TXFIFO_RESET)
                 QSPI_CR_RXFIFO_RESET)) with 0x1E6.
  assert (Ew : Mock.write_ctrl 0x1E6
                 (Mock.with_fifos Mock.IDLE_CTRL (x :: q') [] h)
               = Mock.with_fifos Mock.IDLE_CTRL [] [] h) by reflexivity.
  rewrite Ew, set_regs_twice.
  erewrite QSPI_BUSY_WAIT_now.
  2:{ unfold qspi_fifo_is_reset, qspi_get_status, qspi_reg_rd.
      cbn [qspi_regs set_regs ioread32 Mock.device Mock.read].
      rewrite status_fifo_empty by (try reflexivity; assumption).
      reflexivity. }
  cbv iota beta. rewrite idle_settled by exact Hi. reflexivity.
Qed.

(** X16.  qspi_get_fifo_depth on an idle controller finds the depth of the
    TX FIFO by filling it, and leaves the controller as it found it, with
    both FIFOs empty again. *)
Theorem qspi_get_fifo_depth_finds_depth (fuel : nat) f :
  Mock.idle (qspi_regs f) -> Mock.depth (qspi_regs f) < 2 ^ 64 ->
  Mock.depth (qspi_regs f) <= Z.of_nat fuel ->
  qspi_get_fifo_depth fuel f = Some (Mock.depth (qspi_regs f), f).
Proof.
  intros Hi Hd Hfuel. rewrite <- (set_regs_eta f) at 1 3.
  apply qspi_get_fifo_depth_mock; assumption.
Qed.

Lemma qspi_is_ready_mock s h f :
  Mock.idle h -> qspi_curr_slave f = s -> s = 0 \/ s = 1 ->
  2 <= Mock.depth h ->
  qspi_is_ready (mset h f)
  = (true, mset (Mock.after_frame s [QSPI_CMD_STATUSREG_READ; 0] h) f).
Proof.
  intros Hi Hc Hs Hd. unfold qspi_is_ready.
  rewrite (qspi_transaction_mock _ _ _ s) by (try assumption; lia).
  cbn [Z.eqb negb orb].
  change (tx_frame [QSPI_CMD_STATUSREG_READ; 0] 2)
    with [QSPI_CMD_STATUSREG_READ; 0].
  unfold Mock.reply. cbn [List.length seq map buf_write Z.of_nat].
  unfold Mock.chip_resp. cbn [buf_get Z.ltb Z.compare nth Z.to_nat Z.eqb].
  destruct (Mock.wel _); reflexivity.
Qed.

Lemma qspi_wait_until_ready_mock s h f :
  Mock.idle h -> qspi_curr_slave f = s -> s = 0 \/ s = 1 ->
  2 <= Mock.depth h ->
  qspi_wait_until_ready (mset h f)
  = (true, mset (Mock.after_frame s [QSPI_CMD_STATUSREG_READ; 0] h) f).
Proof.
  intros Hi Hc Hs Hd. unfold qspi_wait_until_ready.
  rewrite (QSPI_BUSY_WAIT_now _ _ _ (qspi_is_ready_mock s h f Hi Hc Hs Hd)).
  reflexivity.
Qed.

Lemma qspi_get_ID_mock h f :
  Mock.idle h -> qspi_curr_slave f = 0 -> 5 <= Mock.depth h ->
  qspi_get_ID (mset h f)
  = let f1 := mset (Mock.after_frame 0 [QSPI_CMD_IDCODE_READ; 0; 0; 0; 0] h) f in
    match find (fun v => u8 (Mock.id_vendor h) =? vendor_id v) vendors with
    | None => (- EINVAL, f1)
    | Some v =>
        let f2 :=
          set_flash_size
            (u64 (code2sectors v (u8 (Mock.id_code h)) * (16 * 1024 * 1024)))
            (set_vendor v f1) in
        if flash_size f2 =? 0 then (- EINVAL, f2) else (0, f2)
    end.
Proof.
  intros Hi Hc Hd. unfold qspi_get_ID.
  rewrite (qspi_transaction_mock _ _ _ 0) by (try assumption; auto; lia).
  cbn [Z.eqb negb].
  change (tx_frame [QSPI_CMD_IDCODE_READ; 0; 0; 0; 0] 5)
    with [QSPI_CMD_IDCODE_READ; 0; 0; 0; 0].
  rewrite !buf_get_buf_write
    by (try rewrite reply_length; cbn [List.length Z.of_nat]; lia).
  rewrite reply_length. cbn [List.length].
  change ((0 <=? 1) && (1 <? 0 + Z.of_nat 5)) with true.
  change ((0 <=? 3) && (3 <? 0 + Z.of_nat 5)) with true.
  cbv iota.
  rewrite !buf_get_reply by (cbn [List.length]; lia).
  unfold Mock.chip_resp. cbn [buf_get Z.ltb Z.compare nth Z.to_nat Z.eqb Z.sub Z.add Z.opp Z.pos_sub Pos.eqb].
  reflexivity.
Qed.

Lemma idle_settle h :
  Mock.flt h = Mock.NoFault -> 0 < Mock.depth h -> Mock.idle (Mock.settle h).
Proof. intros Hf Hd. constructor; try reflexivity; assumption. Qed.

(** The controller probe up to the ID read. *)
Lemma qspi_controller_probe_mock (fuel : nat) h f :
  Mock.flt h = Mock.NoFault ->
  5 <= Mock.depth h < 2 ^ 64 -> Mock.depth h <= Z.of_nat fuel ->
  qspi_controller_probe fuel (mset h f)
  = let '(ret, f2) :=
      qspi_get_ID
        (mset (Mock.after_frame 0 [QSPI_CMD_STATUSREG_READ; 0] (Mock.settle h))
           (set_fifo_depth (Mock.depth h) (set_curr_slave 0 f))) in
    if negb (ret =? 0) then Some (ret, f2)
    else Some (0, set_curr_sector 255 f2).
Proof.
  intros Hf Hd Hfuel. unfold qspi_controller_probe.
  unfold qspi_set_ctrl, qspi_reg_wr.
  cbn [qspi_regs set_regs set_curr_slave iowrite32 Mock.device Mock.write].
  change (Mock.write_ctrl (u32 QSPI_CR_INIT_STATE) h) with (Mock.settle h).
  change (@Build_xrt_qspi Mock.device (flash_size f) (io_buf f) (Mock.settle h)
            (qspi_fifo_depth f) (qspi_curr_sector f) (vendor f) 0)
    with (mset (Mock.settle h) (set_curr_slave 0 f)).
  rewrite qspi_get_fifo_depth_mock
    by (try apply idle_settle; cbn [Mock.depth Mock.settle Mock.with_fifos];
        try assumption; lia).
  cbn [Mock.depth Mock.settle Mock.with_fifos].
  cbn [qspi_fifo_depth set_fifo_depth].
  destruct (Z.eqb_spec (Mock.depth h) 0) as [E | _]; [lia |].
  change (set_fifo_depth (Mock.depth h)
            (mset (Mock.settle h) (set_curr_slave 0 (mset h f))))
    with (mset (Mock.settle h)
            (set_fifo_depth (Mock.depth h) (set_curr_slave 0 f))).
  rewrite (qspi_wait_until_ready_mock 0)
    by (try apply idle_settle; cbn [Mock.depth Mock.settle Mock.with_fifos];
        try assumption; try reflexivity; auto; lia).
  cbn [negb]. reflexivity.
Qed.

Variable vmalloc_ok : Z -> bool.

(** X17.  Attach on a working controller whose chips answer the ID read
    with a vendor of the table and a size code that vendor knows: qspi_probe
    returns 0 with the FIFO depth discovered, io_buf allocated with that
    size, the vendor and the flash size set, the cached sector 0xff and
    slave 0 current; the chips are untouched.  With a FIFO deeper than 8 the
    instance is a working one in the sense of the page I/O theorems. *)
Theorem qspi_probe_attaches (fuel : nat) h v :
  Mock.flt h = Mock.NoFault ->
  5 <= Mock.depth h < 2 ^ 64 -> Mock.depth h <= Z.of_nat fuel ->
  vmalloc_ok (Mock.depth h) = true ->
  In v vendors -> vendor_id v = u8 (Mock.id_vendor h) ->
  code2sectors v (u8 (Mock.id_code h)) <> 0 ->
  exists f,
    @qspi_probe Mock.device vmalloc_ok fuel h = Some (0, f) /\
    qspi_fifo_depth f = Mock.depth h /\
    io_buf f = vmalloc (Mock.depth h) /\
    vendor f = v /\
    flash_size f
    = code2sectors v (u8 (Mock.id_code h)) * (16 * 1024 * 1024) /\
    qspi_curr_sector f = 0xff /\ qspi_curr_slave f = 0 /\
    Mock.idle (qspi_regs f) /\
    Mock.chip0 (qspi_regs f) = Mock.chip0 h /\
    Mock.chip1 (qspi_regs f) = Mock.chip1 h /\
    (8 < Mock.depth h -> healthy 0 f).
Proof.
  intros Hf Hd Hfuel Hv Hin Hid Hcode. unfold qspi_probe.
  match goal with |- context [qspi_controller_probe fuel ?fl] =>
    change fl with (mset h fl) end.
  rewrite qspi_controller_probe_mock by assumption.
  rewrite qspi_get_ID_mock
    by (try apply idle_after_frame, idle_settle; try reflexivity;
        cbn [Mock.depth Mock.after_frame Mock.settle Mock.with_fifos];
        try assumption; lia).
  cbv zeta.
  cbn [Mock.id_vendor Mock.id_code Mock.after_frame Mock.settle Mock.with_fifos].
  rewrite (find_vendor v _ Hin Hid).
  pose proof (vendor_sectors v (u8 (Mock.id_code h)) Hin) as Hsec.
  cbn [flash_size set_flash_size].
  rewrite u64_small by lia.
  destruct (Z.eqb_spec (code2sectors v (u8 (Mock.id_code h)) * (16 * 1024 * 1024)) 0)
    as [E | _]; [lia |].
  cbn [Z.eqb negb qspi_fifo_depth set_curr_sector set_flash_size set_vendor
       set_regs set_fifo_depth set_curr_slave].
  rewrite Hv. cbn [negb].
  eexists. split; [reflexivity |].
  cbn [qspi_fifo_depth io_buf vendor flash_size qspi_curr_sector
       qspi_curr_slave qspi_regs set_io_buf].
  assert (Hidle : Mock.idle
            (Mock.after_frame 0 [QSPI_CMD_IDCODE_READ; 0; 0; 0; 0]
               (Mock.after_frame 0 [QSPI_CMD_STATUSREG_READ; 0]
                  (Mock.settle h))))
    by (apply idle_after_frame, idle_after_frame, idle_settle; [assumption | lia]).
  repeat (split; [reflexivity |]).
  split; [exact Hidle |].
  split; [reflexivity |]. split; [reflexivity |].
  intros H8.
  constructor;
    cbn [qspi_regs qspi_curr_slave qspi_fifo_depth io_buf set_io_buf
         set_curr_sector set_flash_size set_vendor set_regs set_fifo_depth
         set_curr_slave].
  - exact Hidle.
  - reflexivity.
  - left; reflexivity.
  - reflexivity.
  - unfold vmalloc. rewrite repeat_length. lia.
  - lia.
Qed.

(** X18.  Attach fails with -EINVAL, the chips untouched, when the ID read
    gives a vendor that is not in the table or a size code the vendor does
    not know. *)
Theorem qspi_probe_rejects_unknown_flash (fuel : nat) h :
  Mock.flt h = Mock.NoFault ->
  5 <= Mock.depth h < 2 ^ 64 -> Mock.depth h <= Z.of_nat fuel ->
  (forall v, In v vendors -> vendor_id v = u8 (Mock.id_vendor h) ->
             code2sectors v (u8 (Mock.id_code h)) = 0) ->
  exists f,
    @qspi_probe Mock.device vmalloc_ok fuel h = Some (- EINVAL, f) /\
    Mock.chip0 (qspi_regs f) = Mock.chip0 h /\
    Mock.chip1 (qspi_regs f) = Mock.chip1 h.
Proof.
  intros Hf Hd Hfuel Hun. unfold qspi_probe.
  match goal with |- context [qspi_controller_probe fuel ?fl] =>
    change fl with (mset h fl) end.
  rewrite qspi_controller_probe_mock by assumption.
  rewrite qspi_get_ID_mock
    by (try apply idle_after_frame, idle_settle; try reflexivity;
        cbn [Mock.depth Mock.after_frame Mock.settle Mock.with_fifos];
        try assumption; lia).
  cbv zeta.
  cbn [Mock.id_vendor Mock.id_code Mock.after_frame Mock.settle Mock.with_fifos].
  destruct (find _ vendors) as [v |] eqn:Ef.
  - apply find_some in Ef. destruct Ef as [Hin Hx]. apply Z.eqb_eq in Hx.
    rewrite (Hun v Hin (eq_sym Hx)).
    cbn [flash_size set_flash_size Z.mul]. change (u64 0 =? 0) with true.
    cbv iota. change (negb (- EINVAL =? 0)) with true. cbv iota.
    eexists. split; [reflexivity |]. split; reflexivity.
  - change (negb (- EINVAL =? 0)) with true. cbv iota.
    eexists. split; [reflexivity |]. split; reflexivity.
Qed.

(** Attach on a controller with a FIFO deeper than 8 bytes leaves a working
    instance on slave 0 whose cached sector is the sentinel 0xff. *)
Lemma qspi_probe_working (fuel : nat) h v :
  Mock.flt h = Mock.NoFault ->
  8 < Mock.depth h < 2 ^ 64 -> Mock.depth h <= Z.of_nat fuel ->
  vmalloc_ok (Mock.depth h) = true ->
  In v vendors -> vendor_id v = u8 (Mock.id_vendor h) ->
  code2sectors v (u8 (Mock.id_code h)) <> 0 ->
  exists f,
    @qspi_probe Mock.device vmalloc_ok fuel h = Some (0, f) /\
    healthy 0 f /\
    vendor f = v /\
    flash_size f
    = code2sectors v (u8 (Mock.id_code h)) * (16 * 1024 * 1024) /\
    qspi_curr_sector f = 0xff /\
    Mock.chip0 (qspi_regs f) = Mock.chip0 h /\
    Mock.chip1 (qspi_regs f) = Mock.chip1 h.
Proof.
  intros Hf Hd Hfuel Hv Hin Hid Hcode. unfold qspi_probe.
  match goal with |- context [qspi_controller_probe fuel ?fl] =>
    change fl with (mset h fl) end.
  rewrite qspi_controller_probe_mock by (try assumption; lia).
  rewrite qspi_get_ID_mock
    by (try apply idle_after_frame, idle_settle; try reflexivity;
        cbn [Mock.depth Mock.after_frame Mock.settle Mock.with_fifos];
        try assumption; lia).
  cbv zeta.
  cbn [Mock.id_vendor Mock.id_code Mock.after_frame Mock.settle Mock.with_fifos].
  rewrite (find_vendor v _ Hin Hid).
  pose proof (vendor_sectors v (u8 (Mock.id_code h)) Hin) as Hsec.
  cbn [flash_size set_flash_size].
  rewrite u64_small by lia.
  destruct (Z.eqb_spec (code2sectors v (u8 (Mock.id_code h)) * (16 * 1024 * 1024)) 0)
    as [E | _]; [lia |].
  cbn [Z.eqb negb qspi_fifo_depth set_curr_sector set_flash_size set_vendor
       set_regs set_fifo_depth set_curr_slave].
  rewrite Hv. cbn [negb].
  eexists. split; [reflexivity |].
  cbn [qspi_fifo_depth io_buf vendor flash_size qspi_curr_sector
       qspi_curr_slave qspi_regs set_io_buf].
  split; [| repeat split; reflexivity].
  constructor;
    cbn [qspi_regs qspi_curr_slave qspi_fifo_depth io_buf set_io_buf
         set_curr_sector set_flash_size set_vendor set_regs set_fifo_depth
         set_curr_slave].
  - apply idle_after_frame, idle_after_frame, idle_settle; [assumption | lia].
  - reflexivity.
  - left; reflexivity.
  - reflexivity.
  - unfold vmalloc. rewrite repeat_length. lia.
  - lia.
Qed.

End MockProbe.

Lemma qspi_get_fifo_depth_finds_depth_witness :
  qspi_get_fifo_depth 256 demo_flash = Some (256, demo_flash).
Proof.
  apply (qspi_get_fifo_depth_finds_depth 256 demo_flash).
  - constructor; reflexivity.
  - reflexivity.
  - vm_compute. discriminate.
Defined.

Lemma qspi_probe_attaches_witness :
  exists f,
    @qspi_probe Mock.device always_ok 256 (Mock.init 256) = Some (0, f) /\
    qspi_fifo_depth f = 256 /\
    io_buf f = vmalloc 256 /\
    vendor f = micron /\
    flash_size f = code2sectors micron (u8 0x18) * (16 * 1024 * 1024) /\
    qspi_curr_sector f = 0xff /\ qspi_curr_slave f = 0 /\
    Mock.idle (qspi_regs f) /\
    Mock.chip0 (qspi_regs f) = Mock.blank /\
    Mock.chip1 (qspi_regs f) = Mock.blank /\
    (8 < 256 -> healthy 0 f).
Proof.
  apply (qspi_probe_attaches always_ok 256 (Mock.init 256) micron).
  - reflexivity.
  - vm_compute. split; [discriminate | reflexivity].
  - vm_compute. discriminate.
  - reflexivity.
  - left. reflexivity.
  - reflexivity.
  - vm_compute. discriminate.
Defined.

Lemma qspi_probe_rejects_unknown_flash_witness :
  let h := mock_with_id 0x01 0x18 (Mock.init 256) in
  exists f,
    @qspi_probe Mock.device always_ok 256 h = Some (- EINVAL, f) /\
    Mock.chip0 (qspi_regs f) = Mock.chip0 h /\
    Mock.chip1 (qspi_regs f) = Mock.chip1 h.
Proof.
  intros h. apply (qspi_probe_rejects_unknown_flash always_ok 256 h).
  - reflexivity.
  - vm_compute. split; [discriminate | reflexivity].
  - vm_compute. discriminate.
  - intros v [<- | [<- | []]] E; vm_compute in E; discriminate E.
Defined.

(** ** Reading on the mock controller *)

Section MockRead.

Local Abbreviation flashT := (@xrt_qspi Mock.device).
Local Abbreviation mset := (@set_regs Mock.device).
Implicit Types (f flash : flashT) (h : Mock.hw).

Lemma healthy_set_curr_slave s0 s f :
  healthy s0 f -> s = 0 \/ s = 1 -> healthy s (set_curr_slave s f).
Proof.
  intros [Hi Hs Hso Hd Hb Hf] Hs'. constructor; try assumption. reflexivity.
Qed.

Lemma qspi_do_read_loop_healthy s off n m (fuel : nat) :
  0 <= off -> off + n < 2 ^ 63 - 4096 ->
  forall cnt page kbuf f,
    healthy s f ->
    sector_known s (sector (qspi_offset2faddr (off + cnt))) f ->
    (forall a, Mock.mem (Mock.the_chip s (qspi_regs f)) a = m a) ->
    0 <= cnt < n -> n - cnt <= Z.of_nat fuel ->
    4096 <= Z.of_nat (List.length page) ->
    n <= Z.of_nat (List.length kbuf) ->
    exists f' kbuf',
      qspi_do_read_loop fuel page kbuf n off cnt f = Some (0, kbuf', f') /\
      post s f f' m /\
      List.length kbuf' = List.length kbuf /\
      forall j, 0 <= j ->
        buf_get kbuf' j
        = if (cnt <=? j) && (j <? n)
          then u8 (m (chip_addr (off + j))) else buf_get kbuf j.
Proof.
  intros Hoff Hend.
  induction fuel as [| fuel IH];
    intros cnt page kbuf f H Hk Hm Hcnt Hfuel Hpage Hkbuf; [lia |].
  cbn [qspi_do_read_loop].
  destruct (Z.ltb_spec cnt n); [| lia]. cbv zeta.
  rewrite (s64_small (off + cnt)) by lia.
  set (x := off + cnt) in *.
  pose proof (Z.mod_pos_bound x 4096 ltac:(lia)) as Hx.
  rewrite QSPI_PAGE_ROUNDUP_mod, QSPI_PAGE_OFFSET_mod by lia.
  rewrite (u64_small x), (u64_small (n - cnt)) by lia.
  replace (x - x mod 4096 + 4096 - x) with (4096 - x mod 4096) by lia.
  rewrite (u64_small (4096 - x mod 4096)) by lia.
  set (len := Z.min (n - cnt) (4096 - x mod 4096)).
  assert (Hlen : 0 < len <= n - cnt /\ x mod 4096 + len <= 4096)
    by (unfold len; lia).
  destruct (qspi_buf_rdwr_read_healthy s page (x mod 4096) x len f m H Hk Hm
              ltac:(lia) ltac:(lia) ltac:(lia) ltac:(lia)
              ltac:(apply chip_addr_chunk; lia) ltac:(lia))
    as (f1 & page1 & E1 & Hp1 & Hl1 & Hb1).
  rewrite E1. cbn [Z.eqb negb].
  rewrite (u64_small (cnt + len)) by lia.
  set (kbuf1 := memcpy kbuf cnt page1 (x mod 4096) len).
  assert (Hk1 : List.length kbuf1 = List.length kbuf)
    by (unfold kbuf1; apply length_memcpy).
  assert (Hb : forall j, 0 <= j ->
            buf_get kbuf1 j
            = if (cnt <=? j) && (j <? cnt + len)
              then u8 (m (chip_addr (off + j))) else buf_get kbuf j).
  { intros j Hj. unfold kbuf1. rewrite buf_get_memcpy by lia.
    destruct (Z.leb_spec cnt j), (Z.ltb_spec j (cnt + len)); cbn [andb];
      try reflexivity.
    rewrite Hb1 by lia.
    destruct (Z.leb_spec (x mod 4096) (x mod 4096 + (j - cnt))),
      (Z.ltb_spec (x mod 4096 + (j - cnt)) (x mod 4096 + len)); cbn [andb];
      try lia.
    do 2 f_equal.
    replace (off + j) with (x + (j - cnt)) by (unfold x; lia).
    rewrite chip_addr_within_page by lia. lia. }
  destruct (Z.ltb_spec (cnt + len) n) as [Hmore | Hdone].
  - destruct (IH (cnt + len) page1 kbuf1 f1 (p_healthy _ _ _ _ Hp1)
                (or_introl (p_known _ _ _ _ Hp1)) (p_mem _ _ _ _ Hp1)
                ltac:(lia) ltac:(lia) ltac:(lia) ltac:(lia))
      as (f2 & kbuf2 & E2 & Hp2 & Hl2 & Hb2).
    exists f2, kbuf2. split; [exact E2 |].
    split; [eapply post_trans; eassumption |].
    split; [congruence |]. intros j Hj. rewrite Hb2, Hb by lia.
    destruct (Z.leb_spec (cnt + len) j), (Z.ltb_spec j n),
      (Z.leb_spec cnt j), (Z.ltb_spec j (cnt + len)); cbn [andb];
      try reflexivity; lia.
  - exists f1, kbuf1.
    split.
    { destruct fuel; cbn [qspi_do_read_loop];
        (destruct (Z.ltb_spec (cnt + len) n); [lia | reflexivity]). }
    split; [exact Hp1 |]. split; [exact Hk1 |].
    intros j Hj. rewrite Hb by lia.
    destruct (Z.leb_spec cnt j), (Z.ltb_spec j n),
      (Z.ltb_spec j (cnt + len)); cbn [andb]; try reflexivity; lia.
Qed.

Variable vmalloc_ok : Z -> bool.

Lemma qspi_do_read_healthy s0 s kbuf n off f m :
  healthy s0 f -> vmalloc_ok QSPI_PAGE_SIZE = true ->
  slave (qspi_offset2faddr off) = s -> s = 0 \/ s = 1 ->
  sector_known s (sector (qspi_offset2faddr off)) f ->
  (forall a, Mock.mem (Mock.the_chip s (qspi_regs f)) a = m a) ->
  0 <= off -> off + n < 2 ^ 63 - 4096 -> 0 < n ->
  n <= Z.of_nat (List.length kbuf) ->
  exists f' kbuf',
    qspi_do_read vmalloc_ok kbuf n off f = Some (0, kbuf', f') /\
    post s (set_curr_slave s f) f' m /\
    List.length kbuf' = List.length kbuf /\
    forall j, 0 <= j ->
      buf_get kbuf' j
      = if j <? n then u8 (m (chip_addr (off + j))) else buf_get kbuf j.
Proof.
  intros H Hv Hsl Hs Hk Hm Hoff Hend Hn Hkbuf.
  unfold qspi_do_read. rewrite Hv. cbn [negb]. cbv zeta. rewrite Hsl.
  pose proof (healthy_set_curr_slave s0 s f H Hs) as H1.
  rewrite (qspi_wait_until_ready_healthy s _ H1). cbn [negb].
  destruct (qspi_do_read_loop_healthy s off n m (Z.to_nat n) Hoff Hend 0
              (vmalloc QSPI_PAGE_SIZE) kbuf
              (mset (Mock.after_frame s [QSPI_CMD_STATUSREG_READ; 0]
                       (qspi_regs (set_curr_slave s f)))
                 (set_curr_slave s f)))
    as (f' & kbuf' & E & Hp & Hl & Hb).
  - apply healthy_after_frame, H1.
  - rewrite Z.add_0_r. apply sector_known_after_ready; [exact Hs |].
    exact Hk.
  - intros a. rewrite mem_after_ready by exact Hs. apply Hm.
  - lia.
  - lia.
  - unfold vmalloc. rewrite repeat_length. vm_compute. discriminate.
  - exact Hkbuf.
  - exists f', kbuf'. split; [exact E |].
    split; [apply post_rebase_ready; [exact Hs | exact Hp] |].
    split; [exact Hl |]. intros j Hj. rewrite Hb by lia.
    destruct (Z.leb_spec 0 j); [reflexivity | lia].
Qed.

Lemma qspi_read_healthy s0 ubuf n off f m :
  healthy s0 f ->
  sector_known 0 (sector (qspi_offset2faddr off)) f ->
  (forall a, Mock.mem (Mock.the_chip 0 (qspi_regs f)) a = m a) ->
  0 <= off < flash_size f -> flash_size f <= 2 ^ 32 -> 0 < n ->
  vmalloc_ok (Z.min n (flash_size f - off)) = true ->
  vmalloc_ok QSPI_PAGE_SIZE = true ->
  Z.min n (flash_size f - off) <= Z.of_nat (List.length ubuf) ->
  exists f' ubuf',
    qspi_read vmalloc_ok ubuf n off f
    = Some (Z.min n (flash_size f - off), ubuf',
            off + Z.min n (flash_size f - off), f') /\
    post 0 (set_curr_slave 0 f) f' m /\
    List.length ubuf' = List.length ubuf /\
    forall j, 0 <= j ->
      buf_get ubuf' j
      = if j <? Z.min n (flash_size f - off) then u8 (m (off + j))
        else buf_get ubuf j.
Proof.
  intros H Hk Hm Hoff Hsz Hn Hv1 Hv2 Hubuf.
  unfold qspi_read.
  destruct (Z.eqb_spec n 0) as [E | _]; [lia |].
  rewrite is_valid_offset_slave0 by lia.
  destruct (Z.ltb_spec off (flash_size f)); [| lia].
  cbn [negb orb]. cbv zeta.
  rewrite clamp_slave0 by lia.
  set (n' := Z.min n (flash_size f - off)) in *.
  rewrite Hv1. cbn [negb].
  destruct (qspi_do_read_healthy s0 0 (vmalloc n') n' off f m H Hv2
              (slave_low32 off ltac:(lia)) ltac:(auto) Hk Hm
              ltac:(lia) ltac:(lia) ltac:(lia)
              ltac:(unfold vmalloc; rewrite repeat_length; lia))
    as (f' & kbuf' & E & Hp & Hl & Hb).
  rewrite E. cbn [Z.eqb]. unfold copy_to_user.
  destruct (Z.leb_spec n' (Z.of_nat (List.length ubuf))); [| lia].
  cbn [Z.eqb negb].
  rewrite (s64_small n'), (s64_small (off + n')) by lia.
  eexists _, _. split; [reflexivity |]. split; [exact Hp |].
  split; [apply length_memcpy |].
  intros j Hj. rewrite buf_get_memcpy by lia.
  destruct (Z.leb_spec 0 j); [| lia]. cbn [andb]. rewrite Z.add_0_l.
  destruct (Z.ltb_spec j n'); [| reflexivity].
  rewrite Hb by lia. rewrite Z.add_0_l, Z.sub_0_r.
  destruct (Z.ltb_spec j n'); [| lia].
  rewrite chip_addr_low32 by lia. reflexivity.
Qed.

(** X20.  A kernel read of [n] bytes at a non-negative offset whose slave
    byte is 0 or 1, on a working controller (idle, without fault, FIFO deeper
    than 8 bytes) whose cached sector is not stale for the chip addressed
    (it equals that chip's extended address register or differs from the
    sector of the offset), when the 4KB page buffer can be allocated and the
    destination holds [n] bytes: the call returns 0 and fills the buffer with
    the bytes of the chip the slave byte names, byte j from chip address
    (off + j) mod 2^32, across page and sector boundaries; the rest of the
    buffer and the memory of both chips are untouched, and the cached sector
    is then that chip's register.  The request is not checked against
    flash_size. *)
Theorem qspi_kernel_read_returns_flash_content s0 s buf n off f m :
  healthy s0 f -> vmalloc_ok QSPI_PAGE_SIZE = true ->
  slave (qspi_offset2faddr off) = s -> s = 0 \/ s = 1 ->
  sector_known s (sector (qspi_offset2faddr off)) f ->
  (forall a, Mock.mem (Mock.the_chip s (qspi_regs f)) a = m a) ->
  0 <= off -> off + n < 2 ^ 63 - 4096 -> 0 < n ->
  n <= Z.of_nat (List.length buf) ->
  exists f' buf',
    qspi_kernel_read vmalloc_ok buf n off f = Some (0, buf', f') /\
    List.length buf' = List.length buf /\
    (forall j, 0 <= j ->
       buf_get buf' j
       = if j <? n then u8 (m (chip_addr (off + j))) else buf_get buf j) /\
    (forall a, Mock.mem (Mock.the_chip s (qspi_regs f')) a = m a) /\
    Mock.the_chip (1 - s) (qspi_regs f')
    = Mock.the_chip (1 - s) (qspi_regs f) /\
    healthy s f' /\
    qspi_curr_sector f' = Mock.ext_addr (Mock.the_chip s (qspi_regs f')).
Proof.
  intros H Hv Hsl Hs Hk Hm Hoff Hend Hn Hbuf.
  destruct (qspi_do_read_healthy s0 s buf n off f m H Hv Hsl Hs Hk
              Hm Hoff Hend Hn Hbuf) as (f' & buf' & E & Hp & Hl & Hb).
  exists f', buf'. split; [exact E |]. split; [exact Hl |].
  split; [exact Hb |]. split; [apply (p_mem _ _ _ _ Hp) |].
  split; [apply (p_other _ _ _ _ Hp) |].
  split; [apply (p_healthy _ _ _ _ Hp) | apply (p_known _ _ _ _ Hp)].
Qed.

(** X21.  A stream read of at least one byte on slave 0, at an offset
    below flash_size (itself at most 4GB), on a working controller (idle,
    without fault, FIFO deeper than 8 bytes) whose cached sector is not
    stale for chip 0 (it equals chip 0's extended address register or
    differs from the sector of the offset), when the two buffers can be
    allocated and the user buffer takes the clamped count: the count is
    clamped to the bytes left in the chip, the call returns that count and
    advances *off by it, the user buffer holds the bytes of the flash from
    the offset on, the memory of both chips is untouched, and the instance
    is a working one on slave 0 whose cached sector is chip 0's register. *)
Theorem qspi_read_returns_flash_content s0 ubuf n off f m :
  healthy s0 f ->
  sector_known 0 (sector (qspi_offset2faddr off)) f ->
  (forall a, Mock.mem (Mock.chip0 (qspi_regs f)) a = m a) ->
  0 <= off < flash_size f -> flash_size f <= 2 ^ 32 -> 0 < n ->
  vmalloc_ok (Z.min n (flash_size f - off)) = true ->
  vmalloc_ok QSPI_PAGE_SIZE = true ->
  Z.min n (flash_size f - off) <= Z.of_nat (List.length ubuf) ->
  exists f' ubuf',
    qspi_read vmalloc_ok ubuf n off f
    = Some (Z.min n (flash_size f - off), ubuf',
            off + Z.min n (flash_size f - off), f') /\
    (forall j, 0 <= j ->
       buf_get ubuf' j
       = if j <? Z.min n (flash_size f - off) then u8 (m (off + j))
         else buf_get ubuf j) /\
    (forall a, Mock.mem (Mock.chip0 (qspi_regs f')) a = m a) /\
    Mock.chip1 (qspi_regs f') = Mock.chip1 (qspi_regs f) /\
    healthy 0 f' /\
    qspi_curr_sector f' = Mock.ext_addr (Mock.chip0 (qspi_regs f')).
Proof.
  intros H Hk Hm Hoff Hsz Hn Hv1 Hv2 Hubuf.
  destruct (qspi_read_healthy s0 ubuf n off f m H Hk Hm Hoff Hsz
              Hn Hv1 Hv2 Hubuf) as (f' & ubuf' & E & Hp & Hl & Hb).
  exists f', ubuf'. split; [exact E |]. split; [exact Hb |].
  split; [apply (p_mem _ _ _ _ Hp) |].
  split; [apply (p_other _ _ _ _ Hp) |].
  split; [apply (p_healthy _ _ _ _ Hp) | apply (p_known _ _ _ _ Hp)].
Qed.

End MockRead.

Lemma demo_pattern_bytes : forall a, is_byte ((fun a : Z => a mod 251) a).
Proof.
  intros a. unfold is_byte. pose proof (Z.mod_pos_bound a 251). lia.
Qed.

Lemma qspi_kernel_read_returns_flash_content_witness :
  let m := fun a : Z => a mod 251 in
  let f := demo_flash in
  let buf := repeat 0 16 in
  exists f' buf',
    qspi_kernel_read always_ok buf 10 4090 f = Some (0, buf', f') /\
    List.length buf' = List.length buf /\
    (forall j, 0 <= j ->
       buf_get buf' j
       = if j <? 10 then u8 (m (chip_addr (4090 + j))) else buf_get buf j) /\
    (forall a, Mock.mem (Mock.the_chip 0 (qspi_regs f')) a = m a) /\
    Mock.the_chip (1 - 0) (qspi_regs f')
    = Mock.the_chip (1 - 0) (qspi_regs f) /\
    healthy 0 f' /\
    qspi_curr_sector f' = Mock.ext_addr (Mock.the_chip 0 (qspi_regs f')).
Proof.
  intros m f buf.
  apply (qspi_kernel_read_returns_flash_content always_ok 0 0 buf 10 4090 f m).
  - healthy_by_evaluation.
  - reflexivity.
  - reflexivity.
  - left. reflexivity.
  - right. discriminate.
  - intros a. reflexivity.
  - lia.
  - lia.
  - lia.
  - vm_compute. discriminate.
Defined.

Lemma qspi_read_returns_flash_content_witness :
  let m := fun a : Z => a mod 251 in
  let f := demo_flash in
  let ubuf := repeat 0 16 in
  exists f' ubuf',
    qspi_read always_ok ubuf 10 4090 f
    = Some (Z.min 10 (flash_size f - 4090), ubuf',
            4090 + Z.min 10 (flash_size f - 4090), f') /\
    (forall j, 0 <= j ->
       buf_get ubuf' j
       = if j <? Z.min 10 (flash_size f - 4090) then u8 (m (4090 + j))
         else buf_get ubuf j) /\
    (forall a, Mock.mem (Mock.chip0 (qspi_regs f')) a = m a) /\
    Mock.chip1 (qspi_regs f') = Mock.chip1 (qspi_regs f) /\
    healthy 0 f' /\
    qspi_curr_sector f' = Mock.ext_addr (Mock.chip0 (qspi_regs f')).
Proof.
  intros m f ubuf.
  apply (qspi_read_returns_flash_content always_ok 0 ubuf 10 4090 f m).
  - healthy_by_evaluation.
  - right. discriminate.
  - intros a. reflexivity.
  - vm_compute. split; [discriminate | reflexivity].
  - vm_compute. discriminate.
  - lia.
  - reflexivity.
  - reflexivity.
  - vm_compute. discriminate.
Defined.

(** ** Erasing and writing on the mock controller *)

Section MockWrite.

Local Abbreviation flashT := (@xrt_qspi Mock.device).
Local Abbreviation mset := (@set_regs Mock.device).
Implicit Types (f flash : flashT) (h : Mock.hw).

Lemma page_io_size_cases off cnt :
  qspi_get_page_io_size off cnt = 0 \/
  ((qspi_get_page_io_size off cnt = 4096 \/
    qspi_get_page_io_size off cnt = 32768 \/
    qspi_get_page_io_size off cnt = 65536) /\
   off mod qspi_get_page_io_size off cnt = 0 /\
   qspi_get_page_io_size off cnt <= cnt).
Proof.
  rewrite qspi_get_page_io_size_spec. unfold page_io_size_spec.
  destruct (Z.eqb_spec (off mod 65536) 0), (Z.leb_spec 65536 cnt); cbn [andb];
    try (right; split; [auto | split; assumption]);
    destruct (Z.eqb_spec (off mod 32768) 0), (Z.leb_spec 32768 cnt); cbn [andb];
    try (right; split; [auto | split; assumption]);
    destruct (Z.eqb_spec (off mod 4096) 0), (Z.leb_spec 4096 cnt); cbn [andb];
    try (right; split; [auto | split; assumption]); left; reflexivity.
Qed.

Lemma erased_page m A len a :
  len = 4096 \/ len = 32768 \/ len = 65536 -> A mod len = 0 ->
  erased m A (qspi_erase_cmd len) a
  = if (A <=? a) && (a <? A + len) then 0xFF else m a.
Proof.
  intros Hl Ha. unfold erased.
  assert (E : Mock.erase_size (qspi_erase_cmd len) = len)
    by (destruct Hl as [-> | [-> | ->]]; reflexivity).
  rewrite E.
  destruct (Z.eqb_spec len 0); [lia |].
  unfold Mock.erase. rewrite Ha, Z.sub_0_r. reflexivity.
Qed.

Lemma chip_addr_aligned off len :
  len = 4096 \/ len = 32768 \/ len = 65536 -> 0 <= off -> off mod len = 0 ->
  chip_addr off mod len = 0 /\ chip_addr off + len <= 2 ^ 32.
Proof.
  intros Hl Hoff Ha. unfold chip_addr.
  destruct Hl as [-> | [-> | ->]]; Z.div_mod_to_equations; lia.
Qed.

(** X19.  qspi_page_erase with one of the three page sizes at an offset
    aligned to it, on a working controller (idle, without fault, FIFO deeper
    than 8 bytes) whose cached sector is not stale for the chip of the
    current slave, that is, equals that chip's extended address register or
    differs from the sector of the offset: it returns 0, every byte of that
    page reads 0xFF afterwards, every other byte of the chip and the whole
    other chip are as before, and the cached sector is the chip's register,
    so that the condition holds again for the next call on this slave. *)
Theorem qspi_page_erase_sets_page s f off pagesz m :
  healthy s f -> sector_known s (sector (qspi_offset2faddr off)) f ->
  (forall a, Mock.mem (Mock.the_chip s (qspi_regs f)) a = m a) ->
  pagesz = QSPI_PAGE_SIZE \/ pagesz = QSPI_LARGE_PAGE_SIZE \/
  pagesz = QSPI_HUGE_PAGE_SIZE ->
  0 <= off -> off mod pagesz = 0 ->
  exists f',
    qspi_page_erase off pagesz f = (0, f') /\
    healthy s f' /\
    qspi_curr_sector f' = Mock.ext_addr (Mock.the_chip s (qspi_regs f')) /\
    Mock.the_chip (1 - s) (qspi_regs f')
    = Mock.the_chip (1 - s) (qspi_regs f) /\
    forall a,
      Mock.mem (Mock.the_chip s (qspi_regs f')) a
      = if (chip_addr off <=? a) && (a <? chip_addr off + pagesz)
        then 0xFF else m a.
Proof.
  intros H Hk Hm Hsz Hoff Hal.
  destruct (qspi_page_erase_healthy s off pagesz f m H Hk Hm)
    as (f' & fr & E & Hp & _).
  exists f'. split; [exact E |]. split; [apply (p_healthy _ _ _ _ Hp) |].
  split; [apply (p_known _ _ _ _ Hp) |].
  split; [apply (p_other _ _ _ _ Hp) |].
  intros a. rewrite (p_mem _ _ _ _ Hp).
  apply erased_page; [exact Hsz |].
  apply (chip_addr_aligned off pagesz Hsz Hoff Hal).
Qed.

Lemma qspi_page_wr_healthy s f ubuf upos kbuf off cnt m :
  healthy s f ->
  sector_known s (sector (qspi_offset2faddr off)) f ->
  is_write_cmd (write_cmd (vendor f)) ->
  (forall a, Mock.mem (Mock.the_chip s (qspi_regs f)) a = m a) ->
  0 <= off < 2 ^ 63 - 65536 ->
  qspi_get_page_io_size off cnt <> 0 ->
  0 <= upos ->
  upos + qspi_get_page_io_size off cnt <= Z.of_nat (List.length ubuf) ->
  65536 <= Z.of_nat (List.length kbuf) ->
  exists kbuf' f',
    qspi_page_wr ubuf upos kbuf off cnt f
    = Some (0, kbuf', qspi_get_page_io_size off cnt, f') /\
    healthy s f' /\
    qspi_curr_sector f' = Mock.ext_addr (Mock.the_chip s (qspi_regs f')) /\
    List.length kbuf' = List.length kbuf /\
    Mock.the_chip (1 - s) (qspi_regs f')
    = Mock.the_chip (1 - s) (qspi_regs f) /\
    forall a,
      Mock.mem (Mock.the_chip s (qspi_regs f')) a
      = if (chip_addr off <=? a)
           && (a <? chip_addr off + qspi_get_page_io_size off cnt)
        then u8 (buf_get ubuf (upos + (a - chip_addr off)))
        else m a.
Proof.
  intros H Hk Hv Hm Hoff Hsz Hupos Hubuf Hkbuf.
  destruct (page_io_size_cases off cnt) as [E0 | (Hl & Hal & Hcnt)];
    [contradiction |].
  unfold qspi_page_wr. cbv zeta.
  set (len := qspi_get_page_io_size off cnt) in *.
  assert (Hlen : 4096 <= len <= 65536) by lia.
  destruct (chip_addr_aligned off len Hl ltac:(lia) Hal) as (HAal & HAend).
  destruct (Z.eqb_spec len 0); [lia |].
  unfold copy_from_user.
  destruct (Z.leb_spec (upos + len) (Z.of_nat (List.length ubuf))); [| lia].
  cbn [Z.eqb negb].
  destruct (qspi_page_erase_healthy s off len f m H Hk Hm)
    as (f1 & fr & E1 & Hp1 & _).
  rewrite E1. cbn [Z.eqb].
  set (kbuf1 := memcpy kbuf 0 ubuf upos len).
  destruct (qspi_buf_rdwr_write_healthy s kbuf1 0 off len f1 _
              (p_healthy _ _ _ _ Hp1) (p_known _ _ _ _ Hp1)
              ltac:(rewrite (p_vendor _ _ _ _ Hp1); exact Hv)
              (p_mem _ _ _ _ Hp1) ltac:(lia) ltac:(lia) ltac:(lia) ltac:(lia)
              HAend)
    as (f2 & E2 & Hp2).
  rewrite E2. exists kbuf1, f2. split; [reflexivity |].
  split; [apply (p_healthy _ _ _ _ Hp2) |].
  split; [apply (p_known _ _ _ _ Hp2) |].
  split; [apply length_memcpy |].
  split; [rewrite (p_other _ _ _ _ Hp2); apply (p_other _ _ _ _ Hp1) |].
  intros a. rewrite (p_mem _ _ _ _ Hp2). unfold programmed.
  rewrite erased_page by assumption.
  destruct (Z.leb_spec (chip_addr off) a),
    (Z.ltb_spec a (chip_addr off + len)); cbn [andb]; try reflexivity.
  rewrite land_255_byte by apply u8_range.
  unfold kbuf1. rewrite buf_get_memcpy by lia.
  destruct (Z.leb_spec 0 (0 + (a - chip_addr off))),
    (Z.ltb_spec (0 + (a - chip_addr off)) (0 + len)); cbn [andb]; try lia.
  do 2 f_equal. lia.
Qed.

Lemma write_chunk_range off len :
  0 <= off -> 0 < len ->
  0 < write_chunk off len <= len /\
  (off mod 4096 + write_chunk off len <= 4096 \/
   (write_chunk off len = 4096 \/ write_chunk off len = 32768 \/
    write_chunk off len = 65536) /\ off mod write_chunk off len = 0).
Proof.
  intros Hoff Hlen. unfold write_chunk.
  pose proof (Z.mod_pos_bound off 4096 ltac:(lia)) as Hfront.
  destruct (page_io_size_cases off len) as [E0 | (Hl & Hal & Hcnt)].
  - rewrite E0. cbn [Z.eqb]. split; [lia |]. left. lia.
  - destruct (Z.eqb_spec (qspi_get_page_io_size off len) 0); [lia |].
    split; [lia |]. right. split; assumption.
Qed.

Lemma chip_addr_write_chunk off len :
  0 <= off -> 0 < len -> chip_addr off + write_chunk off len <= 2 ^ 32.
Proof.
  intros Hoff Hlen.
  destruct (write_chunk_range off len Hoff Hlen) as [Hr [Hp | [Hl Hal]]].
  - apply chip_addr_chunk; lia.
  - apply (chip_addr_aligned off _ Hl Hoff Hal).
Qed.

(** One write attempt on a working controller, whichever path it takes. *)
Lemma qspi_write_attempt_healthy s f ubuf upos page off len m :
  healthy s f ->
  sector_known s (sector (qspi_offset2faddr off)) f ->
  is_write_cmd (write_cmd (vendor f)) ->
  (forall a, Mock.mem (Mock.the_chip s (qspi_regs f)) a = m a) ->
  (forall a, is_byte (m a)) ->
  0 <= off < 2 ^ 63 - 65536 ->
  0 < len < 2 ^ 64 ->
  0 <= upos ->
  upos + write_chunk off len <= Z.of_nat (List.length ubuf) ->
  65536 <= Z.of_nat (List.length page) ->
  exists page' f',
    qspi_write_attempt ubuf upos page off len f
    = Some (0, page', write_chunk off len, f') /\
    healthy s f' /\
    qspi_curr_sector f' = Mock.ext_addr (Mock.the_chip s (qspi_regs f')) /\
    List.length page' = List.length page /\
    Mock.the_chip (1 - s) (qspi_regs f')
    = Mock.the_chip (1 - s) (qspi_regs f) /\
    forall a,
      Mock.mem (Mock.the_chip s (qspi_regs f')) a
      = if (chip_addr off <=? a) && (a <? chip_addr off + write_chunk off len)
        then u8 (buf_get ubuf (upos + (a - chip_addr off)))
        else m a.
Proof.
  intros H Hk Hv Hm Hbyte Hoff Hlen Hupos Hubuf Hpage.
  unfold write_chunk in *.
  destruct (page_io_size_cases off len) as [E0 | (Hl & Hal & Hcnt)].
  - rewrite E0 in *. cbn [Z.eqb] in *.
    rewrite qspi_write_attempt_fallback by exact E0.
    destruct (qspi_page_rmw_settled s f ubuf upos page off len m H Hk Hv Hm
                Hbyte ltac:(lia) Hlen Hupos Hubuf ltac:(lia))
      as (page' & f' & E & Hh & Hkn & Hpl & Ho & Hmem).
    exists page', f'. split; [exact E |].
    repeat (split; [assumption |]). exact Hmem.
  - destruct (Z.eqb_spec (qspi_get_page_io_size off len) 0); [lia |].
    destruct (qspi_page_wr_healthy s f ubuf upos page off len m H Hk Hv Hm
                Hoff ltac:(lia) Hupos Hubuf Hpage)
      as (page' & f' & E & Hh & Hkn & Hpl & Ho & Hmem).
    exists page', f'. split.
    { unfold qspi_write_attempt. rewrite E. reflexivity. }
    repeat (split; [assumption |]). exact Hmem.
Qed.

(** The same when the caller's bytes of this chunk cannot be copied: the
    attempt stops with -EFAULT before anything is erased. *)
Lemma qspi_write_attempt_fault s f ubuf upos page off len m :
  healthy s f ->
  sector_known s (sector (qspi_offset2faddr off)) f ->
  (forall a, Mock.mem (Mock.the_chip s (qspi_regs f)) a = m a) ->
  0 <= off < 2 ^ 63 - 65536 ->
  0 < len < 2 ^ 64 ->
  0 <= upos ->
  Z.of_nat (List.length ubuf) < upos + write_chunk off len ->
  65536 <= Z.of_nat (List.length page) ->
  exists page' len' f',
    qspi_write_attempt ubuf upos page off len f
    = Some (- EFAULT, page', len', f') /\
    healthy s f' /\
    Mock.the_chip (1 - s) (qspi_regs f')
    = Mock.the_chip (1 - s) (qspi_regs f) /\
    forall a, Mock.mem (Mock.the_chip s (qspi_regs f')) a = m a.
Proof.
  intros H Hk Hm Hoff Hlen Hupos Hubuf Hpage.
  unfold write_chunk in *.
  destruct (page_io_size_cases off len) as [E0 | (Hl & Hal & Hcnt)].
  - rewrite E0 in *. cbn [Z.eqb] in *.
    rewrite qspi_write_attempt_fallback by exact E0.
    unfold qspi_page_rmw.
    rewrite QSPI_PAGE_OFFSET_mod, QSPI_PAGE_ALIGN_mod by lia.
    change QSPI_PAGE_SIZE with 4096.
    pose proof (Z.mod_pos_bound off 4096 ltac:(lia)) as Hfront.
    pose proof (Z.mod_le off 4096 ltac:(lia) ltac:(lia)) as Hfo.
    rewrite (u64_small (4096 - off mod 4096)) by lia.
    cbv zeta. rewrite (s64_small (off - off mod 4096)) by lia.
    destruct (chip_addr_page off ltac:(lia)) as (HAp & HAal & HAp0 & HApe).
    assert (Hst0 : settled s (sector (qspi_offset2faddr off)) f f m)
      by (constructor; try reflexivity; assumption).
    destruct (optional_read s _ page 0 (off - off mod 4096) (off mod 4096)
                f f m Hst0
                ltac:(intros _; symmetry; apply sector_page; lia)
                ltac:(lia) ltac:(lia) ltac:(lia) ltac:(lia) ltac:(lia)
                ltac:(lia))
      as (f1 & page1 & E1 & Hst1 & Hl1 & Hb1).
    rewrite E1. cbn [Z.eqb negb].
    unfold copy_from_user.
    destruct (Z.leb_spec (upos + Z.min len (4096 - off mod 4096))
                (Z.of_nat (List.length ubuf))) as [Hle | _]; [lia |].
    destruct (Z.eqb_spec (Z.min len (4096 - off mod 4096)) 0); [lia |].
    cbn [negb].
    eexists _, _, f1. split; [reflexivity |].
    split; [apply (st_healthy _ _ _ _ _ Hst1) |].
    split; [apply (st_other _ _ _ _ _ Hst1) |].
    apply (st_mem _ _ _ _ _ Hst1).
  - destruct (Z.eqb_spec (qspi_get_page_io_size off len) 0) as [E0 | N0];
      [lia |].
    unfold qspi_write_attempt, qspi_page_wr. cbv zeta.
    destruct (Z.eqb_spec (qspi_get_page_io_size off len) 0); [lia |].
    unfold copy_from_user.
    destruct (Z.leb_spec (upos + qspi_get_page_io_size off len)
                (Z.of_nat (List.length ubuf))) as [Hle | _]; [lia |].
    destruct (Z.eqb_spec (qspi_get_page_io_size off len) 0); [lia |].
    cbn [negb].
    change (negb (- EFAULT =? 0)) with true.
    change (- EFAULT =? - EOPNOTSUPP) with false. cbv iota.
    eexists _, _, f. split; [reflexivity |].
    split; [exact H |]. split; [reflexivity | exact Hm].
Qed.

Lemma stored_bytes m A buf n a :
  (forall a, is_byte (m a)) -> is_byte (stored m A buf n a).
Proof.
  intros Hb. unfold stored. destruct (_ && _); [apply u8_range | apply Hb].
Qed.

(** The write loop on a working controller: it commits chunk after chunk
    and stops at the first one whose bytes cannot be copied.  [k] is the
    count committed. *)
Lemma qspi_write_loop_mock s buf n off m (fuel : nat) :
  0 <= off -> off + n < 2 ^ 63 - 65536 ->
  chip_addr off + n <= 2 ^ 32 ->
  (forall a, is_byte (m a)) ->
  forall cnt page f,
    healthy s f ->
    sector_known s (sector (qspi_offset2faddr (off + cnt))) f ->
    is_write_cmd (write_cmd (vendor f)) ->
    (forall a, Mock.mem (Mock.the_chip s (qspi_regs f)) a
               = stored m (chip_addr off) buf cnt a) ->
    0 <= cnt < n -> n - cnt <= Z.of_nat fuel ->
    cnt <= Z.of_nat (List.length buf) ->
    65536 <= Z.of_nat (List.length page) ->
    exists r k f',
      qspi_write_loop fuel buf page n off cnt f = Some (r, k, f') /\
      cnt <= k <= n /\ k <= Z.of_nat (List.length buf) /\
      (r = 0 /\ k = n /\
       qspi_curr_sector f' = Mock.ext_addr (Mock.the_chip s (qspi_regs f'))
       \/ r = - EFAULT /\ k < n /\ Z.of_nat (List.length buf) < n) /\
      healthy s f' /\
      Mock.the_chip (1 - s) (qspi_regs f')
      = Mock.the_chip (1 - s) (qspi_regs f) /\
      forall a,
        Mock.mem (Mock.the_chip s (qspi_regs f')) a
        = stored m (chip_addr off) buf k a.
Proof.
  intros Hoff Hend Hchip Hbyte.
  induction fuel as [| fuel IH];
    intros cnt page f H Hk Hv Hm Hcnt Hfuel Hbuf Hpage; [lia |].
  cbn [qspi_write_loop].
  destruct (Z.ltb_spec cnt n); [| lia].
  rewrite (s64_small (off + cnt)), (u64_small (n - cnt)) by lia.
  destruct (write_chunk_range (off + cnt) (n - cnt) ltac:(lia) ltac:(lia))
    as [Hlen' _].
  pose proof (chip_addr_write_chunk (off + cnt) (n - cnt) ltac:(lia)
                ltac:(lia)) as Hce.
  set (len' := write_chunk (off + cnt) (n - cnt)) in *.
  destruct (Z.le_gt_cases (cnt + len') (Z.of_nat (List.length buf)))
    as [Hfit | Hfault].
  - destruct (qspi_write_attempt_healthy s f buf cnt page (off + cnt)
                (n - cnt) _ H Hk Hv Hm
                ltac:(intros a; apply stored_bytes, Hbyte)
                ltac:(lia) ltac:(lia) ltac:(lia) Hfit Hpage)
      as (page' & f1 & E & Hh & Hkn & Hpl & Ho & Hmem).
    fold len' in E, Hmem.
    rewrite E. cbn [Z.eqb negb].
    rewrite (u64_small (cnt + len')) by lia.
    assert (HA : chip_addr (off + cnt) = chip_addr off + cnt)
      by (apply chip_addr_add; lia).
    assert (Hm1 : forall a, Mock.mem (Mock.the_chip s (qspi_regs f1)) a
                            = stored m (chip_addr off) buf (cnt + len') a).
    { intros a. rewrite Hmem, HA. unfold stored.
      destruct (Z.leb_spec (chip_addr off + cnt) a),
        (Z.ltb_spec a (chip_addr off + cnt + len')),
        (Z.leb_spec (chip_addr off) a),
        (Z.ltb_spec a (chip_addr off + (cnt + len'))),
        (Z.ltb_spec a (chip_addr off + cnt)); cbn [andb];
        try reflexivity; try lia.
      do 2 f_equal. lia. }
    assert (Hv1 : is_write_cmd (write_cmd (vendor f1))).
    { apply qspi_write_attempt_setup in E. cbn [snd] in E.
      unfold setup_of, config_of in E. injection E as _ _ Ev _ _.
      rewrite Ev. exact Hv. }
    destruct (Z.ltb_spec (cnt + len') n) as [Hmore | Hdone].
    + destruct (IH (cnt + len') page' f1 Hh (or_introl Hkn) Hv1 Hm1
                  ltac:(lia) ltac:(lia) ltac:(lia) ltac:(lia))
        as (r & k & f2 & E2 & Hk2 & Hkb & Hr & Hh2 & Ho2 & Hmem2).
      exists r, k, f2. split; [exact E2 |]. split; [lia |].
      split; [exact Hkb |]. split; [exact Hr |]. split; [exact Hh2 |].
      split; [congruence | exact Hmem2].
    + assert (Hn : cnt + len' = n) by lia.
      exists 0, n, f1. split.
      { destruct fuel; cbn [qspi_write_loop];
          (destruct (Z.ltb_spec (cnt + len') n); [lia |]); congruence. }
      split; [lia |]. split; [lia |].
      split; [left; split; [reflexivity | split; [reflexivity | exact Hkn]] |].
      split; [exact Hh |]. split; [exact Ho |].
      intros a. rewrite Hm1. congruence.
  - destruct (qspi_write_attempt_fault s f buf cnt page (off + cnt)
                (n - cnt) _ H Hk Hm ltac:(lia) ltac:(lia) ltac:(lia)
                ltac:(fold len'; lia) Hpage)
      as (page' & c' & f1 & E & Hh & Ho & Hmem).
    rewrite E. change (negb (- EFAULT =? 0)) with true. cbv iota.
    exists (- EFAULT), cnt, f1. split; [reflexivity |].
    split; [lia |]. split; [exact Hbuf |].
    split; [right; split; [reflexivity | lia] |].
    split; [exact Hh |]. split; [exact Ho | exact Hmem].
Qed.

Variable vmalloc_ok : Z -> bool.

(** A stream write on slave 0 of a working controller: [k] bytes are
    committed, all of them or up to the chunk that could not be copied. *)
Lemma qspi_write_mock s0 buf n off f m :
  healthy s0 f ->
  sector_known 0 (sector (qspi_offset2faddr off)) f ->
  is_write_cmd (write_cmd (vendor f)) ->
  (forall a, Mock.mem (Mock.the_chip 0 (qspi_regs f)) a = m a) ->
  (forall a, is_byte (m a)) ->
  0 <= off < flash_size f -> flash_size f <= 2 ^ 32 -> 0 < n ->
  vmalloc_ok QSPI_HUGE_PAGE_SIZE = true ->
  exists k f',
    (qspi_write vmalloc_ok buf n off f
     = Some (Z.min n (flash_size f - off),
             off + Z.min n (flash_size f - off), f') /\
     k = Z.min n (flash_size f - off) /\
     qspi_curr_sector f' = Mock.ext_addr (Mock.the_chip 0 (qspi_regs f'))
     \/
     qspi_write vmalloc_ok buf n off f = Some (- EFAULT, off, f') /\
     k < Z.min n (flash_size f - off) /\
     Z.of_nat (List.length buf) < Z.min n (flash_size f - off)) /\
    0 <= k <= Z.of_nat (List.length buf) /\
    healthy 0 f' /\
    config_of f' = config_of f /\
    Mock.the_chip 1 (qspi_regs f') = Mock.the_chip 1 (qspi_regs f) /\
    forall a,
      Mock.mem (Mock.the_chip 0 (qspi_regs f')) a = stored m off buf k a.
Proof.
  intros H Hk Hv Hm Hbyte Hoff Hsz Hn Hva.
  set (n' := Z.min n (flash_size f - off)) in *.
  pose proof (healthy_set_curr_slave s0 0 f H ltac:(auto)) as H1.
  set (f0 := mset (Mock.after_frame 0 [QSPI_CMD_STATUSREG_READ; 0]
                     (qspi_regs (set_curr_slave 0 f)))
               (set_curr_slave 0 f)).
  destruct (qspi_write_loop_mock 0 buf n' off m (Z.to_nat n')
              ltac:(lia) ltac:(lia)
              ltac:(rewrite chip_addr_low32; lia) Hbyte 0
              (vmalloc QSPI_HUGE_PAGE_SIZE) f0)
    as (r & k & f' & E & Hkr & Hkb & Hr & Hh & Ho & Hmem).
  - apply healthy_after_frame, H1.
  - rewrite Z.add_0_r. apply sector_known_after_ready; [auto | exact Hk].
  - exact Hv.
  - intros a. unfold f0. rewrite mem_after_ready by auto.
    cbn [qspi_regs set_curr_slave]. rewrite Hm. unfold stored.
    destruct (Z.leb_spec (chip_addr off) a),
      (Z.ltb_spec a (chip_addr off + 0)); cbn [andb]; try reflexivity; lia.
  - lia.
  - lia.
  - lia.
  - unfold vmalloc. rewrite repeat_length. vm_compute. discriminate.
  - assert (Ew : qspi_write vmalloc_ok buf n off f
                 = if negb (r =? 0) then Some (r, off, f')
                   else Some (s64 n', s64 (off + n'), f')).
    { unfold qspi_write.
      destruct (Z.eqb_spec n 0) as [E0 | _]; [lia |].
      rewrite is_valid_offset_slave0 by lia.
      destruct (Z.ltb_spec off (flash_size f)); [| lia].
      cbn [negb orb]. cbv zeta. rewrite clamp_slave0 by lia.
      fold n'. rewrite Hva. cbn [negb].
      unfold qspi_write_locked. cbv zeta.
      rewrite slave_low32 by lia.
      rewrite (qspi_wait_until_ready_healthy 0 _ H1). cbn [negb].
      fold f0. rewrite E. reflexivity. }
    assert (Hc : config_of f' = config_of f).
    { destruct (negb (r =? 0));
        apply (qspi_write_config vmalloc_ok _ _ _ _ _ Ew). }
    exists k, f'. split.
    { destruct Hr as [(-> & -> & Hkn) | (-> & Hlt & Hshort)].
      - left. cbn [Z.eqb negb] in Ew.
        rewrite (s64_small n'), (s64_small (off + n')) in Ew by lia.
        split; [exact Ew |]. split; [reflexivity | exact Hkn].
      - right. change (negb (- EFAULT =? 0)) with true in Ew.
        split; [exact Ew |]. split; assumption. }
    split; [lia |]. split; [exact Hh |]. split; [exact Hc |].
    split.
    + change (1 - 0) with 1 in Ho. rewrite Ho. reflexivity.
    + intros a. rewrite Hmem, chip_addr_low32 by lia. reflexivity.
Qed.

Lemma qspi_write_healthy s0 buf n off f m :
  healthy s0 f ->
  sector_known 0 (sector (qspi_offset2faddr off)) f ->
  is_write_cmd (write_cmd (vendor f)) ->
  (forall a, Mock.mem (Mock.the_chip 0 (qspi_regs f)) a = m a) ->
  (forall a, is_byte (m a)) ->
  0 <= off < flash_size f -> flash_size f <= 2 ^ 32 -> 0 < n ->
  vmalloc_ok QSPI_HUGE_PAGE_SIZE = true ->
  Z.min n (flash_size f - off) <= Z.of_nat (List.length buf) ->
  exists f',
    qspi_write vmalloc_ok buf n off f
    = Some (Z.min n (flash_size f - off),
            off + Z.min n (flash_size f - off), f') /\
    healthy 0 f' /\
    qspi_curr_sector f' = Mock.ext_addr (Mock.the_chip 0 (qspi_regs f')) /\
    config_of f' = config_of f /\
    Mock.the_chip 1 (qspi_regs f') = Mock.the_chip 1 (qspi_regs f) /\
    forall a,
      Mock.mem (Mock.the_chip 0 (qspi_regs f')) a
      = stored m off buf (Z.min n (flash_size f - off)) a.
Proof.
  intros H Hk Hv Hm Hbyte Hoff Hsz Hn Hva Hbuf.
  destruct (qspi_write_mock s0 buf n off f m H Hk Hv Hm Hbyte Hoff Hsz Hn Hva)
    as (k & f' & [(E & -> & Hkn) | (_ & _ & Hshort)] & Hkb & Hh & Hc & Ho
        & Hmem); [| lia].
  exists f'. repeat (split; [assumption |]). exact Hmem.
Qed.

(** X22.  A stream write of at least one byte on slave 0, at an offset
    below flash_size (itself at most 4GB), on a working controller (idle,
    without fault, FIFO deeper than 8 bytes) whose cached sector is not
    stale for chip 0 (it equals chip 0's extended address register or
    differs from the sector of the offset), whose vendor programs with page
    program or quad write, whose chip holds bytes, when the 64KB page buffer
    can be allocated and the user buffer holds the clamped count: the count
    is clamped to the bytes left in the chip, the call returns that count
    and advances *off by it, and afterwards the chip holds the caller's
    bytes in [off, off + count) and what it held before everywhere else,
    whatever mix of full-page writes and read-modify-writes the request
    needed; the other chip is untouched, and the instance is a working one
    on slave 0 whose cached sector is chip 0's register. *)
Theorem qspi_write_stores_data s0 buf n off f m :
  healthy s0 f ->
  sector_known 0 (sector (qspi_offset2faddr off)) f ->
  is_write_cmd (write_cmd (vendor f)) ->
  (forall a, Mock.mem (Mock.chip0 (qspi_regs f)) a = m a) ->
  (forall a, is_byte (m a)) ->
  0 <= off < flash_size f -> flash_size f <= 2 ^ 32 -> 0 < n ->
  vmalloc_ok QSPI_HUGE_PAGE_SIZE = true ->
  Z.min n (flash_size f - off) <= Z.of_nat (List.length buf) ->
  exists f',
    qspi_write vmalloc_ok buf n off f
    = Some (Z.min n (flash_size f - off),
            off + Z.min n (flash_size f - off), f') /\
    (forall a,
       Mock.mem (Mock.chip0 (qspi_regs f')) a
       = if (off <=? a) && (a <? off + Z.min n (flash_size f - off))
         then u8 (buf_get buf (a - off)) else m a) /\
    Mock.chip1 (qspi_regs f') = Mock.chip1 (qspi_regs f) /\
    healthy 0 f' /\
    qspi_curr_sector f' = Mock.ext_addr (Mock.chip0 (qspi_regs f')).
Proof.
  intros H Hk Hv Hm Hbyte Hoff Hsz Hn Hva Hbuf.
  destruct (qspi_write_healthy s0 buf n off f m H Hk Hv Hm Hbyte
              Hoff Hsz Hn Hva Hbuf) as (f' & E & Hh & Hc & _ & Ho & Hmem).
  exists f'. split; [exact E |]. split; [exact Hmem |].
  split; [exact Ho |]. split; [exact Hh | exact Hc].
Qed.

(** X23.  The same stream write (slave 0, offset below flash_size, working
    controller with a cached sector that is not stale for chip 0, vendor
    and chip as above, page buffer allocated) when the user buffer is
    shorter than the clamped count: it returns -EFAULT with *off unchanged,
    and the flash holds a prefix of the data: for some k, at most the
    readable bytes and less than the clamped count, the chip holds the
    caller's bytes in [off, off + k) and what it held before everywhere
    else, so nothing beyond that prefix is erased or programmed; the other
    chip is untouched and the instance is still a working one on slave 0. *)
Theorem qspi_write_fault_commits_prefix s0 buf n off f m :
  healthy s0 f ->
  sector_known 0 (sector (qspi_offset2faddr off)) f ->
  is_write_cmd (write_cmd (vendor f)) ->
  (forall a, Mock.mem (Mock.chip0 (qspi_regs f)) a = m a) ->
  (forall a, is_byte (m a)) ->
  0 <= off < flash_size f -> flash_size f <= 2 ^ 32 -> 0 < n ->
  vmalloc_ok QSPI_HUGE_PAGE_SIZE = true ->
  Z.of_nat (List.length buf) < Z.min n (flash_size f - off) ->
  exists k f',
    qspi_write vmalloc_ok buf n off f = Some (- EFAULT, off, f') /\
    0 <= k <= Z.of_nat (List.length buf) /\
    k < Z.min n (flash_size f - off) /\
    (forall a,
       Mock.mem (Mock.chip0 (qspi_regs f')) a
       = if (off <=? a) && (a <? off + k)
         then u8 (buf_get buf (a - off)) else m a) /\
    Mock.chip1 (qspi_regs f') = Mock.chip1 (qspi_regs f) /\
    healthy 0 f'.
Proof.
  intros H Hk Hv Hm Hbyte Hoff Hsz Hn Hva Hshort.
  destruct (qspi_write_mock s0 buf n off f m H Hk Hv Hm Hbyte Hoff
              Hsz Hn Hva)
    as (k & f' & [(_ & -> & _) | (E & Hlt & _)] & Hkb & Hh & _ & Ho & Hmem);
    [lia |].
  exists k, f'. split; [exact E |]. split; [exact Hkb |].
  split; [exact Hlt |]. split; [exact Hmem |]. split; [exact Ho | exact Hh].
Qed.

(** Write, then read back, under the conditions of the stream write above
    when every allocation succeeds and both user buffers hold the clamped
    count: the write returns the clamped count, and a stream read of the
    same count at the same offset on the instance the write left returns
    that count and the bytes written. *)
Lemma qspi_write_then_read_healthy s0 buf ubuf n off f m :
  healthy s0 f ->
  sector_known 0 (sector (qspi_offset2faddr off)) f ->
  is_write_cmd (write_cmd (vendor f)) ->
  (forall a, Mock.mem (Mock.chip0 (qspi_regs f)) a = m a) ->
  (forall a, is_byte (m a)) ->
  0 <= off < flash_size f -> flash_size f <= 2 ^ 32 -> 0 < n ->
  (forall k, vmalloc_ok k = true) ->
  Z.min n (flash_size f - off) <= Z.of_nat (List.length buf) ->
  Z.min n (flash_size f - off) <= Z.of_nat (List.length ubuf) ->
  exists f1 f2 ubuf',
    qspi_write vmalloc_ok buf n off f
    = Some (Z.min n (flash_size f - off),
            off + Z.min n (flash_size f - off), f1) /\
    qspi_read vmalloc_ok ubuf n off f1
    = Some (Z.min n (flash_size f - off), ubuf',
            off + Z.min n (flash_size f - off), f2) /\
    forall j, 0 <= j < Z.min n (flash_size f - off) ->
      buf_get ubuf' j = u8 (buf_get buf j).
Proof.
  intros H Hk Hv Hm Hbyte Hoff Hsz Hn Hva Hbuf Hubuf.
  destruct (qspi_write_healthy s0 buf n off f m H Hk Hv Hm Hbyte
              Hoff Hsz Hn (Hva _) Hbuf)
    as (f1 & E1 & Hh1 & Hk1 & Hc1 & _ & Hm1).
  assert (Hfs : flash_size f1 = flash_size f).
  { unfold config_of in Hc1. injection Hc1 as Hfs _ _ _. exact Hfs. }
  destruct (qspi_read_healthy vmalloc_ok 0 ubuf n off f1 _ Hh1
              (or_introl Hk1) Hm1 ltac:(rewrite Hfs; exact Hoff)
              ltac:(rewrite Hfs; exact Hsz) Hn (Hva _) (Hva _)
              ltac:(rewrite Hfs; exact Hubuf))
    as (f2 & ubuf' & E2 & _ & _ & Hb).
  rewrite Hfs in E2, Hb.
  exists f1, f2, ubuf'. split; [exact E1 |]. split; [exact E2 |].
  intros j Hj. rewrite Hb by lia.
  destruct (Z.ltb_spec j (Z.min n (flash_size f - off))); [| lia].
  unfold stored.
  destruct (Z.leb_spec off (off + j)),
    (Z.ltb_spec (off + j) (off + Z.min n (flash_size f - off)));
    cbn [andb]; try lia.
  rewrite u8_u8. do 2 f_equal. lia.
Qed.

End MockWrite.

Lemma qspi_page_erase_sets_page_witness :
  let m := fun a : Z => a mod 251 in
  let f := demo_flash in
  exists f',
    qspi_page_erase 32768 QSPI_LARGE_PAGE_SIZE f = (0, f') /\
    healthy 0 f' /\
    qspi_curr_sector f' = Mock.ext_addr (Mock.the_chip 0 (qspi_regs f')) /\
    Mock.the_chip (1 - 0) (qspi_regs f')
    = Mock.the_chip (1 - 0) (qspi_regs f) /\
    forall a,
      Mock.mem (Mock.the_chip 0 (qspi_regs f')) a
      = if (chip_addr 32768 <=? a)
           && (a <? chip_addr 32768 + QSPI_LARGE_PAGE_SIZE)
        then 0xFF else m a.
Proof.
  intros m f.
  apply (qspi_page_erase_sets_page 0 f 32768 QSPI_LARGE_PAGE_SIZE m).
  - healthy_by_evaluation.
  - right. discriminate.
  - intros a. reflexivity.
  - right. left. reflexivity.
  - lia.
  - reflexivity.
Defined.

Lemma qspi_write_stores_data_witness :
  let m := fun a : Z => a mod 251 in
  let f := demo_flash in
  let buf := repeat 7 10 in
  exists f',
    qspi_write always_ok buf 10 4090 f
    = Some (Z.min 10 (flash_size f - 4090),
            4090 + Z.min 10 (flash_size f - 4090), f') /\
    (forall a,
       Mock.mem (Mock.chip0 (qspi_regs f')) a
       = if (4090 <=? a) && (a <? 4090 + Z.min 10 (flash_size f - 4090))
         then u8 (buf_get buf (a - 4090)) else m a) /\
    Mock.chip1 (qspi_regs f') = Mock.chip1 (qspi_regs f) /\
    healthy 0 f' /\
    qspi_curr_sector f' = Mock.ext_addr (Mock.chip0 (qspi_regs f')).
Proof.
  intros m f buf.
  apply (qspi_write_stores_data always_ok 0 buf 10 4090 f m).
  - healthy_by_evaluation.
  - right. discriminate.
  - right. reflexivity.
  - intros a. reflexivity.
  - apply demo_pattern_bytes.
  - vm_compute. split; [discriminate | reflexivity].
  - vm_compute. discriminate.
  - lia.
  - reflexivity.
  - vm_compute. discriminate.
Defined.

Lemma qspi_write_fault_commits_prefix_witness :
  let m := fun a : Z => a mod 251 in
  let f := demo_flash in
  let buf := repeat 7 4096 in
  exists k f',
    qspi_write always_ok buf 8192 0 f = Some (- EFAULT, 0, f') /\
    0 <= k <= Z.of_nat (List.length buf) /\
    k < Z.min 8192 (flash_size f - 0) /\
    (forall a,
       Mock.mem (Mock.chip0 (qspi_regs f')) a
       = if (0 <=? a) && (a <? 0 + k)
         then u8 (buf_get buf (a - 0)) else m a) /\
    Mock.chip1 (qspi_regs f') = Mock.chip1 (qspi_regs f) /\
    healthy 0 f'.
Proof.
  intros m f buf.
  apply (qspi_write_fault_commits_prefix always_ok 0 buf 8192 0 f m).
  - healthy_by_evaluation.
  - right. discriminate.
  - right. reflexivity.
  - intros a. reflexivity.
  - apply demo_pattern_bytes.
  - vm_compute. split; [discriminate | reflexivity].
  - vm_compute. discriminate.
  - lia.
  - reflexivity.
  - vm_compute. reflexivity.
Defined.

(** ** From attach to the first write and read *)

Lemma sector_below_size off :
  0 <= off < 16 * (16 * 1024 * 1024) ->
  sector (qspi_offset2faddr off) <> 0xff.
Proof.
  intros H. cbn [qspi_offset2faddr sector]. unfold u8.
  rewrite Z.shiftr_div_pow2 by lia.
  assert (0 <= off / 2 ^ 24 < 16) by (Z.div_mod_to_equations; lia).
  rewrite Z.mod_small by lia. lia.
Qed.

Lemma vendors_write_cmd v : In v vendors -> is_write_cmd (write_cmd v).
Proof. intros [<- | [<- | []]]; [right | left]; reflexivity. Qed.

Section MockAttachIO.

Variable vmalloc_ok : Z -> bool.

(** X24.  Attach, write, read back.  On a mock controller without fault,
    with a FIFO deeper than 8 bytes, whose ID read names a vendor of the
    table and a size code that vendor knows, whose chip 0 holds bytes, and
    with every allocation succeeding: qspi_probe returns 0 with flash_size
    the size the code stands for; on the instance it leaves, a stream write
    of at least one byte at an offset below flash_size, from a user buffer
    that holds the clamped count, returns that count and advances *off by
    it; and a stream read of the same count at the same offset on the
    instance the write left returns that count and the bytes written.
    Nothing is assumed about the instance: attach sets it up. *)
Theorem qspi_write_then_read (fuel : nat) h v size buf ubuf n off m :
  Mock.flt h = Mock.NoFault ->
  8 < Mock.depth h < 2 ^ 64 -> Mock.depth h <= Z.of_nat fuel ->
  (forall k, vmalloc_ok k = true) ->
  In v vendors -> vendor_id v = u8 (Mock.id_vendor h) ->
  size = code2sectors v (u8 (Mock.id_code h)) * (16 * 1024 * 1024) ->
  (forall a, Mock.mem (Mock.chip0 h) a = m a) ->
  (forall a, is_byte (m a)) ->
  0 <= off < size -> 0 < n ->
  Z.min n (size - off) <= Z.of_nat (List.length buf) ->
  Z.min n (size - off) <= Z.of_nat (List.length ubuf) ->
  exists f0 f1 f2 ubuf',
    @qspi_probe Mock.device vmalloc_ok fuel h = Some (0, f0) /\
    flash_size f0 = size /\
    qspi_write vmalloc_ok buf n off f0
    = Some (Z.min n (size - off), off + Z.min n (size - off), f1) /\
    qspi_read vmalloc_ok ubuf n off f1
    = Some (Z.min n (size - off), ubuf', off + Z.min n (size - off), f2) /\
    forall j, 0 <= j < Z.min n (size - off) ->
      buf_get ubuf' j = u8 (buf_get buf j).
Proof.
  intros Hf Hd Hfuel Hva Hin Hid Hsize Hm Hbyte Hoff Hn Hbuf Hubuf.
  pose proof (vendor_sectors v (u8 (Mock.id_code h)) Hin) as Hsec.
  destruct (qspi_probe_working vmalloc_ok fuel h v Hf Hd Hfuel
              (Hva _) Hin Hid ltac:(lia))
    as (f0 & E0 & Hh & Hv & Hfs & Hcs & Hc0 & _).
  rewrite <- Hsize in Hfs.
  destruct (qspi_write_then_read_healthy vmalloc_ok 0 buf ubuf n off f0 m Hh)
    as (f1 & f2 & ubuf' & E1 & E2 & Hb).
  - right. rewrite Hcs. apply not_eq_sym, sector_below_size. lia.
  - rewrite Hv. apply vendors_write_cmd, Hin.
  - intros a. rewrite Hc0. apply Hm.
  - exact Hbyte.
  - rewrite Hfs. exact Hoff.
  - rewrite Hfs. change (2 ^ 32) with 4294967296. lia.
  - exact Hn.
  - exact Hva.
  - rewrite Hfs. exact Hbuf.
  - rewrite Hfs. exact Hubuf.
  - rewrite Hfs in E1, E2, Hb.
    exists f0, f1, f2, ubuf'. auto.
Qed.

End MockAttachIO.

Lemma qspi_write_then_read_witness :
  let h := Mock.load (fun a => a mod 251) (Mock.init 300) in
  let buf := repeat 7 10 in
  let ubuf := repeat 0 16 in
  exists f0 f1 f2 ubuf',
    @qspi_probe Mock.device always_ok 300 h = Some (0, f0) /\
    flash_size f0 = 16777216 /\
    qspi_write always_ok buf 10 4090 f0
    = Some (Z.min 10 (16777216 - 4090), 4090 + Z.min 10 (16777216 - 4090),
            f1) /\
    qspi_read always_ok ubuf 10 4090 f1
    = Some (Z.min 10 (16777216 - 4090), ubuf',
            4090 + Z.min 10 (16777216 - 4090), f2) /\
    forall j, 0 <= j < Z.min 10 (16777216 - 4090) ->
      buf_get ubuf' j = u8 (buf_get buf j).
Proof.
  intros h buf ubuf.
  apply (qspi_write_then_read always_ok 300 h micron 16777216 buf ubuf 10
           4090 (fun a => a mod 251)).
  - reflexivity.
  - vm_compute. split; reflexivity.
  - vm_compute. discriminate.
  - reflexivity.
  - left. reflexivity.
  - reflexivity.
  - reflexivity.
  - intros a. reflexivity.
  - apply demo_pattern_bytes.
  - vm_compute. split; [discriminate | reflexivity].
  - lia.
  - vm_compute. discriminate.
  - vm_compute. discriminate.
Defined.

(** ** The stream calls return *)

Lemma u64_range x : 0 <= u64 x < 2 ^ 64.
Proof. unfold u64. apply Z.mod_pos_bound. lia. Qed.

Lemma u64_sub_u64 a b : u64 (u64 a - u64 b) = u64 (a - b).
Proof. unfold u64. rewrite <- Zminus_mod. reflexivity. Qed.

(** The bytes the read loop takes up to the next 4KB boundary: between 1 and
    4096, for every loff_t. *)
Lemma QSPI_PAGE_ROUNDUP_gap x :
  u64 (QSPI_PAGE_ROUNDUP x - u64 x) = 4096 - x mod 4096.
Proof.
  unfold QSPI_PAGE_ROUNDUP. rewrite QSPI_PAGE_OFFSET_u64.
  change QSPI_PAGE_SIZE with 4096.
  assert (Hm : u64 x mod 4096 = x mod 4096).
  { unfold u64. Z.div_mod_to_equations. lia. }
  rewrite Hm.
  pose proof (Z.mod_pos_bound x 4096 ltac:(lia)) as Hb.
  destruct (Z.eqb_spec (x mod 4096) 0) as [E | E]; cbn [negb].
  - rewrite u64_sub_u64. replace (x + 4096 - x) with 4096 by lia.
    rewrite E. reflexivity.
  - unfold round_up. change (4096 - 1) with (Z.ones 12).
    rewrite lor_ones_low by lia. change (Z.ones 12) with 4095.
    change (2 ^ 12) with 4096.
    rewrite u64_sub_u64.
    replace (x - 1 - (x - 1) mod 4096 + 4095 + 1 - x)
      with (4096 - x mod 4096)
      by (Z.div_mod_to_equations; lia).
    apply u64_small. lia.
Qed.

Section Returns.
Context {D : Device}.
Implicit Types flash : xrt_qspi.

Lemma setup_of_depth flash flash' :
  setup_of flash' = setup_of flash ->
  qspi_fifo_depth flash' = qspi_fifo_depth flash.
Proof. unfold setup_of, config_of. intros [= _ H _ _ _]. exact H. Qed.

(** A FIFO read that succeeds moves at least one byte, unless the FIFO
    depth is exactly the 8 bytes of header and dummy bytes. *)
Lemma qspi_fifo_rd_progress off buf pos cnt flash :
  0 <= qspi_fifo_depth flash < 2 ^ 64 -> qspi_fifo_depth flash <> 8 ->
  0 < cnt ->
  fst (fst (fst (qspi_fifo_rd off buf pos cnt flash))) = 0 ->
  0 < snd (fst (qspi_fifo_rd off buf pos cnt flash)) <= cnt.
Proof.
  intros Hd Hd8 Hc. unfold qspi_fifo_rd, qspi_setup_io_cmd_header. cbv zeta.
  match goal with |- context [qspi_set_sector ?a ?b] =>
    pose proof (qspi_set_sector_setup a b) as S0;
    destruct (qspi_set_sector a b) as [r0 f0] end.
  cbn [snd] in S0. apply setup_of_depth in S0.
  destruct (Z.eqb_spec r0 0) as [-> | N]; cbn [Z.eqb negb].
  - unfold qspi_fifo_rd_len, read_dummy_len.
    cbn [qspi_fifo_depth set_io_buf]. rewrite S0.
    destruct (qspi_exec_io_cmd _ _ _) as [r1 f1].
    destruct (Z.eqb_spec r1 0) as [-> | N]; cbn [negb fst snd].
    + intros _.
      pose proof (u64_range (qspi_fifo_depth flash - 4 - 4)) as Hu.
      assert (u64 (qspi_fifo_depth flash - 4 - 4) <> 0).
      { unfold u64 in *. Z.div_mod_to_equations. lia. }
      lia.
    + intros E. contradiction.
  - destruct (Z.eqb_spec r0 0); [contradiction |]. cbn [negb fst snd].
    intros E. contradiction.
Qed.

(** With a FIFO depth of exactly 8 a FIFO read that succeeds moves no
    byte: the loop of qspi_buf_rdwr then does not advance. *)
Lemma qspi_fifo_rd_no_room off buf pos cnt flash :
  qspi_fifo_depth flash = 8 -> 0 <= cnt ->
  fst (fst (fst (qspi_fifo_rd off buf pos cnt flash))) = 0 ->
  snd (fst (qspi_fifo_rd off buf pos cnt flash)) = 0.
Proof.
  intros Hd Hc. unfold qspi_fifo_rd, qspi_setup_io_cmd_header. cbv zeta.
  match goal with |- context [qspi_set_sector ?a ?b] =>
    pose proof (qspi_set_sector_setup a b) as S0;
    destruct (qspi_set_sector a b) as [r0 f0] end.
  cbn [snd] in S0. apply setup_of_depth in S0.
  destruct (Z.eqb_spec r0 0) as [-> | N]; cbn [Z.eqb negb].
  - unfold qspi_fifo_rd_len, read_dummy_len.
    cbn [qspi_fifo_depth set_io_buf]. rewrite S0, Hd.
    destruct (qspi_exec_io_cmd _ _ _) as [r1 f1].
    destruct (Z.eqb_spec r1 0) as [-> | N]; cbn [negb fst snd].
    + intros _. change (u64 (8 - 4 - 4)) with 0. lia.
    + intros E. contradiction.
  - destruct (Z.eqb_spec r0 0); [contradiction |]. cbn [negb fst snd].
    intros E. contradiction.
Qed.

(** A FIFO write that succeeds moves at least one byte, unless the FIFO
    depth is exactly the 4 bytes of the header. *)
Lemma qspi_fifo_wr_progress off buf pos cnt flash :
  0 <= qspi_fifo_depth flash < 2 ^ 64 -> qspi_fifo_depth flash <> 4 ->
  0 < cnt ->
  fst (fst (qspi_fifo_wr off buf pos cnt flash)) = 0 ->
  0 < snd (fst (qspi_fifo_wr off buf pos cnt flash)) <= cnt.
Proof.
  intros Hd Hd4 Hc. unfold qspi_fifo_wr, qspi_setup_io_cmd_header. cbv zeta.
  match goal with |- context [qspi_set_sector ?a ?b] =>
    pose proof (qspi_set_sector_setup a b) as S0;
    destruct (qspi_set_sector a b) as [r0 f0] end.
  cbn [snd] in S0. apply setup_of_depth in S0.
  destruct (Z.eqb_spec r0 0) as [-> | N]; cbn [Z.eqb negb].
  - unfold qspi_fifo_wr_len, write_max_len.
    cbn [qspi_fifo_depth set_io_buf]. rewrite S0.
    destruct (qspi_enable_write _) as [r1 f1].
    destruct (Z.eqb_spec r1 0) as [-> | N]; cbn [negb fst snd];
      [| intros E; contradiction].
    destruct (qspi_exec_io_cmd _ _ _) as [r2 f2].
    destruct (Z.eqb_spec r2 0) as [-> | N]; cbn [negb fst snd];
      [| intros E; contradiction].
    destruct (qspi_wait_until_ready _) as [rdy f3].
    destruct rdy; cbn [negb fst snd]; [| intros E; discriminate E].
    intros _.
    pose proof (u64_range (qspi_fifo_depth flash - 4)) as Hu.
    assert (u64 (qspi_fifo_depth flash - 4) <> 0).
    { unfold u64 in *. Z.div_mod_to_equations. lia. }
    lia.
  - destruct (Z.eqb_spec r0 0); [contradiction |]. cbn [negb fst snd].
    intros E. contradiction.
Qed.

Lemma qspi_buf_rdwr_loop_returns (fuel : nat) :
  forall buf pos off len write n flash,
    fifo_moves write (qspi_fifo_depth flash) ->
    0 <= n -> len < 2 ^ 64 -> len - n <= Z.of_nat fuel ->
    exists r, qspi_buf_rdwr_loop fuel buf pos off len write n flash = Some r.
Proof.
  induction fuel as [| fuel IH]; intros buf pos off len write n flash
    [Hd Hne] Hn Hlen Hfuel; cbn [qspi_buf_rdwr_loop];
    destruct (Z.ltb_spec n len) as [Hlt | Hge]; try (eexists; reflexivity);
    [lia |].
  cbv zeta. rewrite (u64_small (len - n)) by lia.
  destruct write.
  - pose proof (qspi_fifo_wr_progress (s64 (off + n)) buf (pos + n) (len - n)
                  flash Hd Hne ltac:(lia)) as Hp.
    pose proof (qspi_fifo_wr_setup (s64 (off + n)) buf (pos + n) (len - n)
                  flash) as Hs.
    destruct (qspi_fifo_wr _ _ _ _ _) as [[r c] f1]. cbn [fst snd] in Hp, Hs.
    apply setup_of_depth in Hs.
    destruct (Z.eqb_spec r 0) as [-> | N]; [| eexists; reflexivity].
    specialize (Hp eq_refl).
    apply IH; try lia.
    + rewrite Hs. split; assumption.
    + apply u64_range.
    + rewrite u64_small by lia. lia.
  - pose proof (qspi_fifo_rd_progress (s64 (off + n)) buf (pos + n) (len - n)
                  flash Hd Hne ltac:(lia)) as Hp.
    pose proof (qspi_fifo_rd_setup (s64 (off + n)) buf (pos + n) (len - n)
                  flash) as Hs.
    destruct (qspi_fifo_rd _ _ _ _ _) as [[[r b] c] f1]. cbn [fst snd] in Hp, Hs.
    apply setup_of_depth in Hs.
    destruct (Z.eqb_spec r 0) as [-> | N]; [| eexists; reflexivity].
    specialize (Hp eq_refl).
    apply IH; try lia.
    + rewrite Hs. split; assumption.
    + apply u64_range.
    + rewrite u64_small by lia. lia.
Qed.

Lemma qspi_buf_rdwr_returns buf pos off len write flash :
  fifo_moves write (qspi_fifo_depth flash) -> 0 <= len < 2 ^ 64 ->
  exists r, qspi_buf_rdwr buf pos off len write flash = Some r.
Proof.
  intros Hd Hlen. unfold qspi_buf_rdwr.
  apply qspi_buf_rdwr_loop_returns; try assumption; lia.
Qed.

Lemma qspi_do_read_loop_returns (fuel : nat) :
  forall page kbuf n off cnt flash,
    fifo_moves false (qspi_fifo_depth flash) ->
    0 <= cnt -> n < 2 ^ 64 -> n - cnt <= Z.of_nat fuel ->
    exists r, qspi_do_read_loop fuel page kbuf n off cnt flash = Some r.
Proof.
  induction fuel as [| fuel IH]; intros page kbuf n off cnt flash
    Hd Hc Hn Hfuel; cbn [qspi_do_read_loop];
    destruct (Z.ltb_spec cnt n) as [Hlt | Hge]; try (eexists; reflexivity);
    [lia |].
  cbv zeta. rewrite QSPI_PAGE_ROUNDUP_gap, (u64_small (n - cnt)) by lia.
  pose proof (Z.mod_pos_bound (s64 (off + cnt)) 4096 ltac:(lia)) as Hm.
  set (thislen := Z.min (n - cnt) (4096 - s64 (off + cnt) mod 4096)).
  assert (Hl : 0 < thislen <= n - cnt) by (unfold thislen; lia).
  destruct (qspi_buf_rdwr_returns page (QSPI_PAGE_OFFSET (s64 (off + cnt)))
              (s64 (off + cnt)) thislen false flash Hd ltac:(lia))
    as [[[r p] f1] E].
  rewrite E. apply qspi_buf_rdwr_setup, setup_of_depth in E. cbn [snd] in E.
  destruct (negb (r =? 0)); [eexists; reflexivity |].
  apply IH; try lia.
  - rewrite E. exact Hd.
  - apply u64_range.
  - rewrite u64_small by lia. lia.
Qed.

Lemma optional_read_returns (c : bool) buf pos off len flash :
  fifo_moves false (qspi_fifo_depth flash) -> 0 <= len < 2 ^ 64 ->
  exists r,
    (if c then qspi_buf_rdwr buf pos off len false flash
     else Some (0, buf, flash)) = Some r /\
    qspi_fifo_depth (snd r) = qspi_fifo_depth flash.
Proof.
  intros Hd Hlen. destruct c.
  - destruct (qspi_buf_rdwr_returns buf pos off len false flash Hd Hlen)
      as [r E].
    exists r. split; [exact E |].
    apply qspi_buf_rdwr_setup, setup_of_depth in E. exact E.
  - eexists. split; reflexivity.
Qed.

Lemma qspi_page_rmw_returns ubuf upos kbuf off cnt flash :
  fifo_moves false (qspi_fifo_depth flash) ->
  fifo_moves true (qspi_fifo_depth flash) ->
  0 < cnt ->
  exists r,
    qspi_page_rmw ubuf upos kbuf off cnt flash = Some r /\
    (fst (fst (fst r)) = 0 -> 0 < snd (fst r) <= cnt).
Proof.
  intros Hr Hw Hc. unfold qspi_page_rmw. cbv zeta.
  rewrite QSPI_PAGE_OFFSET_u64. change QSPI_PAGE_SIZE with 4096.
  pose proof (Z.mod_pos_bound (u64 off) 4096 ltac:(lia)) as Hf.
  set (front := u64 off mod 4096) in *.
  rewrite (u64_small (4096 - front)) by lia.
  set (mid := Z.min cnt (4096 - front)).
  assert (Hmid : 0 < mid <= cnt) by (unfold mid; lia).
  rewrite (u64_small (4096 - front - mid)) by (unfold mid; lia).
  destruct (optional_read_returns (negb (front =? 0)) kbuf 0
              (s64 (QSPI_PAGE_ALIGN off)) front flash Hr ltac:(lia))
    as [[[r1 b1] f1] [E1 D1]].
  rewrite E1. cbn [snd] in D1.
  destruct (Z.eqb_spec r1 0) as [-> | N1]; cbn [negb];
    [| eexists; split; [reflexivity | cbn [fst snd]; intros; contradiction]].
  destruct (copy_from_user _ _ _ _ _) as [unc kb].
  destruct (negb (unc =? 0));
    [eexists; split; [reflexivity | cbn [fst snd]; discriminate] |].
  destruct (optional_read_returns (negb (4096 - front - mid =? 0)) kb
              (0 + front + mid)
              (s64 (s64 (s64 (QSPI_PAGE_ALIGN off) + front) + mid))
              (4096 - front - mid) f1
              ltac:(rewrite D1; exact Hr) ltac:(unfold mid; lia))
    as [[[r2 b2] f2] [E2 D2]].
  rewrite E2. cbn [snd] in D2.
  destruct (Z.eqb_spec r2 0) as [-> | N2]; cbn [negb];
    [| eexists; split; [reflexivity | cbn [fst snd]; intros; contradiction]].
  match goal with |- context [qspi_page_erase ?a ?b ?c] =>
    pose proof (qspi_page_erase_setup a b c) as S3;
    destruct (qspi_page_erase a b c) as [r3 f3] end.
  cbn [snd] in S3. apply setup_of_depth in S3.
  destruct (Z.eqb_spec r3 0) as [-> | N3];
    [| eexists; split; [reflexivity | cbn [fst snd]; intros; contradiction]].
  destruct (qspi_buf_rdwr_returns b2 0 (s64 (QSPI_PAGE_ALIGN off)) 4096 true
              f3 ltac:(rewrite S3, D2, D1; exact Hw) ltac:(lia))
    as [[[r4 b4] f4] E4].
  rewrite E4. eexists. split; [reflexivity |]. cbn [fst snd]. intros _.
  exact Hmid.
Qed.

Lemma qspi_page_wr_returns ubuf upos kbuf off cnt flash :
  fifo_moves true (qspi_fifo_depth flash) -> 0 < cnt ->
  exists r,
    qspi_page_wr ubuf upos kbuf off cnt flash = Some r /\
    0 < snd (fst r) <= cnt.
Proof.
  intros Hw Hc. unfold qspi_page_wr. cbv zeta.
  destruct (page_io_size_cases off cnt) as [E0 | (Hsz & _ & Hle)].
  { rewrite E0. cbn [Z.eqb]. eexists. split; [reflexivity |].
    cbn [fst snd]. lia. }
  set (sz := qspi_get_page_io_size off cnt) in *.
  assert (Hpos : 0 < sz <= cnt) by lia.
  destruct (Z.eqb_spec sz 0) as [E | _]; [lia |].
  destruct (copy_from_user _ _ _ _ _) as [unc kb].
  destruct (negb (unc =? 0));
    [eexists; split; [reflexivity | cbn [fst snd]; exact Hpos] |].
  match goal with |- context [qspi_page_erase ?a ?b ?c] =>
    pose proof (qspi_page_erase_setup a b c) as S3;
    destruct (qspi_page_erase a b c) as [r3 f3] end.
  cbn [snd] in S3. apply setup_of_depth in S3.
  destruct (r3 =? 0);
    [| eexists; split; [reflexivity | cbn [fst snd]; exact Hpos]].
  destruct (qspi_buf_rdwr_returns kb 0 off sz true f3
              ltac:(rewrite S3; exact Hw) ltac:(lia))
    as [[[r4 b4] f4] E4].
  rewrite E4. eexists. split; [reflexivity |]. cbn [fst snd]. exact Hpos.
Qed.

Lemma qspi_write_attempt_returns ubuf upos page off len flash :
  fifo_moves false (qspi_fifo_depth flash) ->
  fifo_moves true (qspi_fifo_depth flash) ->
  0 < len ->
  exists r,
    qspi_write_attempt ubuf upos page off len flash = Some r /\
    (fst (fst (fst r)) = 0 -> 0 < snd (fst r) <= len).
Proof.
  intros Hr Hw Hl. unfold qspi_write_attempt.
  destruct (qspi_page_wr_returns ubuf upos page off len flash Hw Hl)
    as [[[[r1 b1] c1] f1] [E1 H1]].
  rewrite E1. cbn [fst snd] in H1.
  apply qspi_page_wr_setup, setup_of_depth in E1. cbn [snd] in E1.
  destruct (Z.eqb_spec r1 0) as [-> | N]; cbn [negb].
  { eexists. split; [reflexivity |]. cbn [fst snd]. intros _. exact H1. }
  destruct (r1 =? - EOPNOTSUPP).
  - destruct (qspi_page_rmw_returns ubuf upos b1 off c1 f1
                ltac:(rewrite E1; exact Hr) ltac:(rewrite E1; exact Hw)
                ltac:(lia)) as [r [E H]].
    exists r. split; [exact E |]. intros H0. specialize (H H0). lia.
  - eexists. split; [reflexivity |]. cbn [fst snd]. intros; contradiction.
Qed.

Lemma qspi_write_loop_returns (fuel : nat) :
  forall buf page n off cnt flash,
    fifo_moves false (qspi_fifo_depth flash) ->
    fifo_moves true (qspi_fifo_depth flash) ->
    0 <= cnt -> n < 2 ^ 64 -> n - cnt <= Z.of_nat fuel ->
    exists r, qspi_write_loop fuel buf page n off cnt flash = Some r.
Proof.
  induction fuel as [| fuel IH]; intros buf page n off cnt flash
    Hr Hw Hc Hn Hfuel; cbn [qspi_write_loop];
    destruct (Z.ltb_spec cnt n) as [Hlt | Hge]; try (eexists; reflexivity);
    [lia |].
  cbv zeta. rewrite (u64_small (n - cnt)) by lia.
  destruct (qspi_write_attempt_returns buf cnt page (s64 (off + cnt))
              (n - cnt) flash Hr Hw ltac:(lia))
    as [[[[r1 p1] c1] f1] [E1 H1]].
  rewrite E1. cbn [fst snd] in H1.
  apply qspi_write_attempt_setup, setup_of_depth in E1. cbn [snd] in E1.
  destruct (Z.eqb_spec r1 0) as [-> | N]; cbn [negb];
    [| eexists; reflexivity].
  specialize (H1 eq_refl).
  apply IH; try lia; try (rewrite E1; assumption).
  - apply u64_range.
  - rewrite u64_small by lia. lia.
Qed.

Lemma qspi_write_locked_returns buf n off flash :
  fifo_moves false (qspi_fifo_depth flash) ->
  fifo_moves true (qspi_fifo_depth flash) ->
  0 <= n < 2 ^ 64 ->
  exists r, qspi_write_locked buf n off flash = Some r.
Proof.
  intros Hr Hw Hn. unfold qspi_write_locked. cbv zeta.
  match goal with |- context [qspi_wait_until_ready ?f] =>
    pose proof (qspi_wait_until_ready_setup f) as H1;
    destruct (qspi_wait_until_ready f) as [rdy f1] end.
  cbn [snd] in H1. apply setup_of_depth in H1.
  cbn [qspi_fifo_depth set_curr_slave] in H1.
  destruct (negb rdy); [eexists; reflexivity |].
  apply qspi_write_loop_returns; try lia; rewrite H1; assumption.
Qed.

Variable vmalloc_ok : Z -> bool.

Lemma qspi_do_read_returns kbuf n off flash :
  fifo_moves false (qspi_fifo_depth flash) -> 0 <= n < 2 ^ 64 ->
  exists r, qspi_do_read vmalloc_ok kbuf n off flash = Some r.
Proof.
  intros Hd Hn. unfold qspi_do_read. cbv zeta.
  destruct (negb (vmalloc_ok _)); [eexists; reflexivity |].
  match goal with |- context [qspi_wait_until_ready ?f] =>
    pose proof (qspi_wait_until_ready_setup f) as H1;
    destruct (qspi_wait_until_ready f) as [rdy f1] end.
  cbn [snd] in H1. apply setup_of_depth in H1.
  cbn [qspi_fifo_depth set_curr_slave] in H1.
  destruct (negb rdy); [eexists; reflexivity |].
  apply qspi_do_read_loop_returns; try lia.
  rewrite H1. exact Hd.
Qed.

Lemma qspi_read_returns ubuf n off flash :
  fifo_moves false (qspi_fifo_depth flash) -> 0 <= n < 2 ^ 64 ->
  exists r, qspi_read vmalloc_ok ubuf n off flash = Some r.
Proof.
  intros Hd Hn. unfold qspi_read.
  destruct (_ || _); [eexists; reflexivity |]. cbv zeta.
  destruct (negb (vmalloc_ok _)); [eexists; reflexivity |].
  pose proof (u64_range (flash_size flash - u64 off)) as Hu.
  destruct (qspi_do_read_returns
              (vmalloc (Z.min n (u64 (flash_size flash - u64 off))))
              (Z.min n (u64 (flash_size flash - u64 off))) off flash Hd
              ltac:(lia)) as [[[r b] f1] E].
  rewrite E.
  destruct (if r =? 0 then _ else _) as [r2 ub].
  destruct (negb (r2 =? 0)); eexists; reflexivity.
Qed.

Lemma qspi_write_returns buf n off flash :
  fifo_moves false (qspi_fifo_depth flash) ->
  fifo_moves true (qspi_fifo_depth flash) ->
  0 <= n < 2 ^ 64 ->
  exists r, qspi_write vmalloc_ok buf n off flash = Some r.
Proof.
  intros Hr Hw Hn. unfold qspi_write.
  destruct (_ || _); [eexists; reflexivity |]. cbv zeta.
  destruct (negb (vmalloc_ok _)); [eexists; reflexivity |].
  pose proof (u64_range (flash_size flash - u64 off)) as Hu.
  destruct (qspi_write_locked_returns buf
              (Z.min n (u64 (flash_size flash - u64 off))) off flash Hr Hw
              ltac:(lia)) as [[[r c] f1] E].
  rewrite E. destruct (negb (r =? 0)); eexists; reflexivity.
Qed.

(** X8.  qspi_read returns, and what it returns, on any device whose FIFO
    depth (a size_t) is not 8, for a request of less than 2^63 bytes: either
    a count between 0 and the count asked for, with *off advanced by exactly
    that count, or one of -ENOMEM, -EINVAL, -ETIMEDOUT and -EFAULT with *off
    unchanged.  With a depth of exactly 8 a FIFO read has no room for
    payload next to its 8 bytes of header and dummy bytes, and the loop of
    qspi_buf_rdwr has no bound of its own. *)
Theorem qspi_read_result ubuf n off flash :
  0 <= n < 2 ^ 63 -> - 2 ^ 63 <= off < 2 ^ 63 ->
  0 <= qspi_fifo_depth flash < 2 ^ 64 -> qspi_fifo_depth flash <> 8 ->
  exists r off',
    read_outcome (qspi_read vmalloc_ok ubuf n off flash) = Some (r, off') /\
    ((0 <= r <= n /\ off' = s64 (off + r)) \/
     (In r [- ENOMEM; - EINVAL; - ETIMEDOUT; - EFAULT] /\ off' = off)).
Proof.
  intros Hn Hoff Hd Hd8.
  destruct (qspi_read_returns ubuf n off flash
              (conj Hd Hd8) ltac:(lia)) as [[[[r b] o] f] E].
  exists r, o.
  assert (Ho : read_outcome (qspi_read vmalloc_ok ubuf n off flash)
               = Some (r, o)) by (rewrite E; reflexivity).
  split; [exact Ho |].
  exact (qspi_read_codes vmalloc_ok ubuf n off flash r o Hn Hoff Ho).
Qed.

(** X9.  qspi_write returns, and what it returns, on any device whose FIFO
    depth (a size_t) is neither 4 nor 8, for a request of less than 2^63
    bytes: either a count between 0 and the count asked for, with *off
    advanced by exactly that count, or one of -ENOSPC, -ENOMEM, -EINVAL,
    -ETIMEDOUT and -EFAULT with *off unchanged.  -EOPNOTSUPP, the signal of
    qspi_page_wr, never reaches the caller. *)
Theorem qspi_write_result buf n off flash :
  0 <= n < 2 ^ 63 ->
  0 <= qspi_fifo_depth flash < 2 ^ 64 ->
  qspi_fifo_depth flash <> 4 -> qspi_fifo_depth flash <> 8 ->
  exists r off',
    write_outcome (qspi_write vmalloc_ok buf n off flash) = Some (r, off') /\
    ((0 <= r <= n /\ off' = s64 (off + r)) \/
     (In r [- ENOSPC; - ENOMEM; - EINVAL; - ETIMEDOUT; - EFAULT] /\
      off' = off)).
Proof.
  intros Hn Hd Hd4 Hd8.
  destruct (qspi_write_returns buf n off flash (conj Hd Hd8) (conj Hd Hd4)
              ltac:(lia)) as [[[r o] f] E].
  exists r, o.
  assert (Ho : write_outcome (qspi_write vmalloc_ok buf n off flash)
               = Some (r, o)) by (rewrite E; reflexivity).
  split; [exact Ho |].
  exact (qspi_write_codes vmalloc_ok buf n off flash r o Hn Ho).
Qed.

End Returns.

Lemma qspi_read_result_witness :
  exists r off',
    read_outcome (qspi_read always_ok (repeat 0 16) 10 4090 demo_flash)
    = Some (r, off') /\
    ((0 <= r <= 10 /\ off' = s64 (4090 + r)) \/
     (In r [- ENOMEM; - EINVAL; - ETIMEDOUT; - EFAULT] /\ off' = 4090)).
Proof.
  apply (qspi_read_result always_ok (repeat 0 16) 10 4090 demo_flash).
  - lia.
  - lia.
  - vm_compute. split; [discriminate | reflexivity].
  - vm_compute. discriminate.
Defined.

Lemma qspi_write_result_witness :
  exists r off',
    write_outcome (qspi_write always_ok (repeat 7 10) 10 4090 demo_flash)
    = Some (r, off') /\
    ((0 <= r <= 10 /\ off' = s64 (4090 + r)) \/
     (In r [- ENOSPC; - ENOMEM; - EINVAL; - ETIMEDOUT; - EFAULT] /\
      off' = 4090)).
Proof.
  apply (qspi_write_result always_ok (repeat 7 10) 10 4090 demo_flash).
  - lia.
  - vm_compute. split; [discriminate | reflexivity].
  - vm_compute. discriminate.
  - vm_compute. discriminate.
Defined.
